(** * VocalHarmony: the multi-voice playback engine of [App.jsx]

    The component keeps three pieces of state: the recording ([audioBlob]),
    the set of selected pitch offsets ([activePitches]) and a map from pitch
    offset to a Tone.js player/pitch-shift pair ([pitchPlayersRef.current]).
    The handlers [togglePitch], [setupPitchPlayer] and [playRecording]
    mutate them and call into Tone.js.

    The embedding keeps the component state in a record, threads it through
    a small state-and-exception monad, and records every call made into
    Tone.js in a log, so that properties about "which chains were created,
    started or disposed" are statements about that log.

    The handlers are [async]. They are run in two ways: one at a time, each
    to its end ([handle], [run]), and overlapping, suspended at each [await]
    while other events are served ([react], [react_all]). Both are built
    from the same pieces, and the first is the second when every awaited
    promise settles before the next event ([toggle_settled_at_once],
    [play_settled_in_turn]). *)

From Stdlib Require Import ZArith List String Bool Lia QArith Arith.
From Stdlib Require Import DecimalString DecimalZ Permutation.
Import ListNotations.
Open Scope Z_scope.

(** ** JavaScript [Set] and [Map] keyed by pitch offsets

    Both containers iterate in insertion order, and the handlers iterate
    over them ([for ... of activePitches], [pitchPlayersRef.current.forEach]),
    so they are modelled as lists in insertion order. *)

Module JsSet.

Definition has (x : Z) (s : list Z) : bool := existsb (Z.eqb x) s.

(** [add] appends a value that is not yet a member and leaves the set
    alone otherwise. *)
Definition add (x : Z) (s : list Z) : list Z :=
  if has x s then s else s ++ [x].

Definition delete (x : Z) (s : list Z) : list Z :=
  filter (fun y => negb (x =? y)) s.

End JsSet.

Module JsMap.

Section Values.
Context {V : Type}.

Definition has (k : Z) (m : list (Z * V)) : bool :=
  existsb (fun kv => k =? fst kv) m.

Fixpoint get (k : Z) (m : list (Z * V)) : option V :=
  match m with
  | [] => None
  | (k', v) :: r => if k =? k' then Some v else get k r
  end.

(** [set] overwrites the value of an existing key in place and appends
    a new key at the end. *)
Fixpoint set (k : Z) (v : V) (m : list (Z * V)) : list (Z * V) :=
  match m with
  | [] => [(k, v)]
  | (k', v') :: r => if k =? k' then (k, v) :: r else (k', v') :: set k v r
  end.

Definition delete (k : Z) (m : list (Z * V)) : list (Z * V) :=
  filter (fun kv => negb (k =? fst kv)) m.

Definition keys (m : list (Z * V)) : list Z := map fst m.

End Values.

End JsMap.

(** ** Interval classification ([getIntervalStyle], lines 14-34) *)

Definition perfectConsonances : list Z := [4; 7; 12].
Definition imperfectConsonances : list Z := [3; 5; 8; 9].

Definition style_original : string := "bg-white hover:bg-gray-200".
Definition style_perfect : string := "bg-blue-300 hover:bg-blue-400 text-blue-900".
Definition style_imperfect : string := "bg-blue-100 hover:bg-blue-200 text-blue-900".
Definition style_dissonant : string := "bg-red-100 hover:bg-red-200 text-red-900".

Definition getIntervalStyle (pitch : Z) : string :=
  if pitch =? 0 then style_original
  else
    let absValue := Z.abs pitch in
    if JsSet.has absValue perfectConsonances then style_perfect
    else if JsSet.has absValue imperfectConsonances then style_imperfect
    else style_dissonant.

(** The four consonance categories the styles stand for (the comments of
    lines 20, 26 and 32 and the legend of lines 219-227). *)
Inductive IntervalClass : Type :=
| Original
| PerfectConsonance
| ImperfectConsonance
| Dissonance.

Definition class_of_style (style : string) : option IntervalClass :=
  if String.eqb style style_original then Some Original
  else if String.eqb style style_perfect then Some PerfectConsonance
  else if String.eqb style style_imperfect then Some ImperfectConsonance
  else if String.eqb style style_dissonant then Some Dissonance
  else None.

(** The classification table as the specification words it: by absolute
    value on the grid, nothing said outside of it. *)
Definition spec_interval_class (offset : Z) : option IntervalClass :=
  let a := Z.abs offset in
  if existsb (Z.eqb a) [4; 7; 12] then Some PerfectConsonance
  else if existsb (Z.eqb a) [3; 5; 8; 9] then Some ImperfectConsonance
  else if offset =? 0 then Some Original
  else if existsb (Z.eqb a) [1; 2; 6; 10; 11] then Some Dissonance
  else None.

(** ** Data model of the playback engine *)

(** The recording: the bytes of the [Blob] assembled by [onstop]. *)
Definition Blob : Type := list Byte.byte.

(** Readings of the audio clock ([Tone.now()], seconds). *)
Definition Seconds : Type := Q.

(** Tone.js objects are identified by the order of their construction. *)
Definition Handle : Type := nat.

(** [new Tone.PitchShift({ pitch, windowSize: 0.1, delayTime: 0 })]. *)
Record PitchShift : Type := mkPitchShift {
  shift_id : Handle;
  pitch : Z;
  windowSize : Q;
  delayTime : Q
}.

(** The object [{ player, pitchShift }] stored in the map. *)
Record Chain : Type := mkChain {
  player : Handle;
  pitchShift : PitchShift
}.

(** Calls made into Tone.js (and [URL]), in program order. *)
Inductive Call : Type :=
| NewPlayer (p : Handle)                  (* new Tone.Player().toDestination() *)
| NewPitchShift (ps : PitchShift)         (* new Tone.PitchShift({...}).toDestination() *)
| Disconnect (p : Handle)                 (* player.disconnect() *)
| Connect (p : Handle) (ps : Handle)      (* player.connect(pitchShift) *)
| CreateObjectURL (b : Blob)              (* URL.createObjectURL(audioBlob) *)
| PlayerLoad (p : Handle) (b : Blob)      (* player.load(audioUrl) *)
| ToneStart                               (* Tone.start() *)
| ToneNow (t : Seconds)                   (* Tone.now(), with the value returned *)
| PlayerStart (p : Handle) (t : Seconds)  (* player.start(startTime) *)
| DisposePlayer (p : Handle)              (* player.dispose() *)
| DisposeShift (ps : Handle).             (* pitchShift.dispose() *)

(** What an [async] handler can be rejected with: the code raises nothing
    itself, it only lets failures of the library through. *)
Inductive Error : Type :=
| LoadRejected (p : Handle) (b : Blob)   (* the promise of player.load *)
| StartThrew (p : Handle)                (* an exception of player.start *)
| DisposeThrew (h : Handle).             (* an exception of dispose *)

Inductive Completion (A : Type) : Type :=
| Returned (a : A)
| Threw (e : Error).
Arguments Returned {A} a.
Arguments Threw {A} e.

Record State : Type := mkState {
  audioBlob : option Blob;                (* useState(null) *)
  activePitches : list Z;                 (* useState(new Set([0])) *)
  pitchPlayers : list (Z * Chain);        (* pitchPlayersRef.current *)
  clock : Seconds;                        (* the audio context's clock *)
  next_handle : Handle;                   (* Tone.js objects built so far *)
  calls : list Call                       (* log, oldest call first *)
}.

Definition initial_state : State :=
  {| audioBlob := None;
     activePitches := [0];
     pitchPlayers := [];
     clock := 0%Q;
     next_handle := 0%nat;
     calls := [] |}.

(** [player.start] was called on the object [h]. *)
Definition starts (h : Handle) (c : Call) : bool :=
  match c with
  | PlayerStart p _ => Nat.eqb p h
  | _ => false
  end.

(** ** The library

    Tone.js is not part of the repository. Three of its answers decide the
    control flow of the handlers and are parameters of the model: whether
    the promise of [player.load] is fulfilled for a recording, whether
    [player.start] returns normally, and whether [dispose] returns normally
    on an object that [start] was called on (both given the calls made so
    far). [dispose] on an object that was never started is taken to return;
    Tone.js throws from [dispose] on a player whose [start] threw. The other
    calls (constructors, wiring, [Tone.start()], [Tone.now()]) are taken to
    return normally. *)
Record Tone : Type := mkTone {
  decodes : Blob -> bool;
  start_ok : list Call -> Handle -> Seconds -> bool;
  dispose_ok : list Call -> Handle -> bool
}.

(** Whether [dispose] returns on the object [h] after the calls of [log]. *)
Definition dispose_returns (T : Tone) (log : list Call) (h : Handle) : bool :=
  negb (existsb (starts h) log) || dispose_ok T log h.

(** Two recordings and a library used in examples: an empty [Blob] (a
    recorder stopped before it delivered data) cannot be decoded,
    [player.start] returns for a player that was asked to load a recording
    that decodes and throws for a player without a buffer, and [dispose]
    throws on a player that was started without a buffer. *)
Definition riff_blob : Blob := [Byte.x52; Byte.x49; Byte.x46; Byte.x46].
Definition empty_blob : Blob := [].

Definition loads_buffer (p : Handle) (c : Call) : bool :=
  match c with
  | PlayerLoad q (_ :: _) => Nat.eqb q p
  | _ => false
  end.

Definition tone_js : Tone :=
  {| decodes := fun b => match b with [] => false | _ :: _ => true end;
     start_ok := fun log p _ => existsb (loads_buffer p) log;
     dispose_ok := fun log h => existsb (loads_buffer h) log |}.

(** ** What the user and the platform do *)

(** One handler at a time: every handler runs to its end before the next one
    begins. The recorder delivers a recording ([onstop], lines 65-68), a grid
    button or the play button is clicked, the audio clock moves on. *)
Inductive Op : Type :=
| Recorded (b : Blob)
| Toggle (pitch : Z)
| Play
| Tick (t : Seconds).


(** ** Handlers as state-and-exception computations

    A handler runs on the component state and either returns or throws;
    what it did to the state before throwing stays done. *)

Definition M (A : Type) : Type := State -> Completion A * State.

Definition ret {A : Type} (a : A) : M A := fun s => (Returned a, s).

Definition bind {A B : Type} (m : M A) (k : A -> M B) : M B :=
  fun s =>
    match m s with
    | (Returned a, s') => k a s'
    | (Threw e, s') => (Threw e, s')
    end.

Declare Scope handler_scope.
Delimit Scope handler_scope with handler.
Notation "x <- m ;; k" := (bind m (fun x => k))
  (at level 61, m at next level, right associativity) : handler_scope.
Notation "m ;; k" := (bind m (fun _ => k))
  (at level 61, right associativity) : handler_scope.
Open Scope handler_scope.

Definition read {A : Type} (f : State -> A) : M A := fun s => (Returned (f s), s).
Definition write (f : State -> State) : M unit := fun s => (Returned tt, f s).

Definition set_audioBlob (b : option Blob) (s : State) : State :=
  mkState b (activePitches s) (pitchPlayers s) (clock s) (next_handle s) (calls s).
Definition set_activePitches (a : list Z) (s : State) : State :=
  mkState (audioBlob s) a (pitchPlayers s) (clock s) (next_handle s) (calls s).
Definition set_pitchPlayers (m : list (Z * Chain)) (s : State) : State :=
  mkState (audioBlob s) (activePitches s) m (clock s) (next_handle s) (calls s).
Definition set_clock (t : Seconds) (s : State) : State :=
  mkState (audioBlob s) (activePitches s) (pitchPlayers s) t (next_handle s) (calls s).
Definition log_call (c : Call) (s : State) : State :=
  mkState (audioBlob s) (activePitches s) (pitchPlayers s) (clock s) (next_handle s)
          (calls s ++ [c]).
Definition bump_handle (s : State) : State :=
  mkState (audioBlob s) (activePitches s) (pitchPlayers s) (clock s) (S (next_handle s))
          (calls s).

Definition call (c : Call) : M unit := write (log_call c).
Definition fresh : M Handle := fun s => (Returned (next_handle s), bump_handle s).
Definition setActivePitches (a : list Z) : M unit := write (set_activePitches a).
Definition setAudioBlob (b : Blob) : M unit := write (set_audioBlob (Some b)).

(** [Tone.now()] reads the audio clock. *)
Definition tone_now : M Seconds :=
  t <- read clock ;; call (ToneNow t) ;; ret t.

(** A loop whose body may throw: [for ... of] and [forEach]. *)
Fixpoint for_each {A : Type} (l : list A) (body : A -> M unit) : M unit :=
  match l with
  | [] => ret tt
  | x :: r => body x ;; for_each r body
  end.

(** The handlers of one render close over the state values of that render
    ([audioBlob] and [activePitches]); the map lives in a ref and is shared. *)
Record Render : Type := mkRender {
  seen_audioBlob : option Blob;
  seen_activePitches : list Z
}.

Definition render (s : State) : Render :=
  {| seen_audioBlob := audioBlob s; seen_activePitches := activePitches s |}.

(** Lines 108-122 of [setupPitchPlayer], up to the [await]: build the two
    nodes, wire them, store the pair under [pitch] and ask the player to
    load the recording. The result names the load that is awaited. *)
Definition setupPitchPlayer_to_await (r : Render) (pitch : Z) : M (option (Handle * Blob)) :=
  p <- fresh ;;
  call (NewPlayer p) ;;
  sid <- fresh ;;
  let shift := mkPitchShift sid pitch (1 # 10)%Q 0%Q in
  call (NewPitchShift shift) ;;
  call (Disconnect p) ;;
  call (Connect p sid) ;;
  write (fun s => set_pitchPlayers (JsMap.set pitch (mkChain p shift) (pitchPlayers s)) s) ;;
  match seen_audioBlob r with
  | Some b =>
      call (CreateObjectURL b) ;;
      call (PlayerLoad p b) ;;
      ret (Some (p, b))
  | None => ret None
  end.

(** Suspended handlers. [player.load] and [Tone.start()] are awaited: the
    handler is suspended and other events are served before it resumes. A
    suspended handler keeps the values of the render it was created in.
    [ToggleAwaitsLoad]: [togglePitch] at line 100, inside [setupPitchPlayer]
    at line 122, with the selection it will set. [PlayAwaitsToneStart]:
    [playRecording] at line 129. [PlayAwaitsLoad]: [playRecording] at line
    136, inside [setupPitchPlayer] at line 122; [rest] are the pitches the
    loop has not visited yet. *)
Inductive Pending : Type :=
| ToggleAwaitsLoad (p : Handle) (b : Blob) (newActivePitches : list Z)
| PlayAwaitsToneStart (r : Render)
| PlayAwaitsLoad (r : Render) (p : Handle) (b : Blob) (rest : list Z).

Record World : Type := mkWorld {
  comp : State;
  mounted : bool;
  pending : list Pending
}.

Definition initial_world : World :=
  {| comp := initial_state; mounted := true; pending := [] |}.

Inductive Event : Type :=
| Recorder_stopped (b : Blob)
| Click_toggle (pitch : Z)
| Click_play
| Clock (t : Seconds)
| Unmount
| Settle (i : nat).     (* the promise awaited by the i-th suspended handler settles *)

Definition suspend (k : Pending) (s : State) (w : World) : World :=
  {| comp := s; mounted := mounted w; pending := pending w ++ [k] |}.

Definition continue (s : State) (w : World) : World :=
  {| comp := s; mounted := mounted w; pending := pending w |}.

Fixpoint remove_nth {A : Type} (i : nat) (l : list A) : list A :=
  match l, i with
  | [], _ => []
  | _ :: r, O => r
  | x :: r, S j => x :: remove_nth j r
  end.

(** The loop of lines 134-138 from the pitches still to visit up to the
    next [await]. *)
Fixpoint play_loop (r : Render) (rest : list Z) (s : State)
  : option (Handle * Blob * list Z) * State :=
  match rest with
  | [] => (None, s)
  | pitch :: rest' =>
      if JsMap.has pitch (pitchPlayers s) then play_loop r rest' s
      else
        match setupPitchPlayer_to_await r pitch s with
        | (Returned (Some (p, b)), s') => (Some (p, b, rest'), s')
        | (_, s') => play_loop r rest' s'
        end
  end.

Section Engine.

Variable T : Tone.

(** The promise of [player.load] settles. *)
Definition load_settles (p : Handle) (b : Blob) : M unit :=
  fun s => if decodes T b then (Returned tt, s) else (Threw (LoadRejected p b), s).

Definition player_start (p : Handle) (t : Seconds) : M unit :=
  fun s =>
    if start_ok T (calls s) p t then (Returned tt, log_call (PlayerStart p t) s)
    else (Threw (StartThrew p), log_call (PlayerStart p t) s).

(** [player.dispose()] and [pitchShift.dispose()]: the call is made, and
    it returns or throws. *)
Definition player_dispose (p : Handle) : M unit :=
  fun s =>
    if dispose_returns T (calls s) p then (Returned tt, log_call (DisposePlayer p) s)
    else (Threw (DisposeThrew p), log_call (DisposePlayer p) s).

Definition pitchShift_dispose (q : Handle) : M unit :=
  fun s =>
    if dispose_returns T (calls s) q then (Returned tt, log_call (DisposeShift q) s)
    else (Threw (DisposeThrew q), log_call (DisposeShift q) s).

(** Lines 91-96 of [togglePitch]: the registry's "release". When [has]
    answers [true], [get] is defined. A [dispose] that throws ends the
    handler before the entry is deleted. *)
Definition release (pitch : Z) : M unit :=
  reg <- read pitchPlayers ;;
  if JsMap.has pitch reg then
    match JsMap.get pitch reg with
    | Some c =>
        player_dispose (player c) ;;
        pitchShift_dispose (shift_id (pitchShift c)) ;;
        write (fun s => set_pitchPlayers (JsMap.delete pitch (pitchPlayers s)) s)
    | None => ret tt
    end
  else ret tt.

(** The cleanup of the effect (lines 45-50): the stored pairs are disposed
    of in the order of the map, up to the first [dispose] that throws, which
    ends the [forEach]; the map itself is left as it is. *)
Definition cleanup : M unit :=
  reg <- read pitchPlayers ;;
  for_each reg (fun kc =>
    player_dispose (player (snd kc)) ;;
    pitchShift_dispose (shift_id (pitchShift (snd kc)))).

(** [setupPitchPlayer] (lines 107-124). *)
Definition setupPitchPlayer (r : Render) (pitch : Z) : M unit :=
  awaited <- setupPitchPlayer_to_await r pitch ;;
  match awaited with
  | Some (p, b) => load_settles p b
  | None => ret tt
  end.

(** Lines 135-137 of [playRecording] (and, behind the test of
    [audioBlob], lines 99-101 of [togglePitch]): the registry's "ensure". *)
Definition ensure (r : Render) (pitch : Z) : M unit :=
  reg <- read pitchPlayers ;;
  if JsMap.has pitch reg then ret tt else setupPitchPlayer r pitch.

(** [togglePitch] (lines 85-105). *)
Definition togglePitch (r : Render) (pitch : Z) : M unit :=
  let newActivePitches := seen_activePitches r in
  if JsSet.has pitch newActivePitches then
    let newActivePitches := JsSet.delete pitch newActivePitches in
    release pitch ;;
    setActivePitches newActivePitches
  else
    let newActivePitches := JsSet.add pitch newActivePitches in
    match seen_audioBlob r with
    | Some _ => ensure r pitch
    | None => ret tt
    end ;;
    setActivePitches newActivePitches.

(** Lines 141-146 of [playRecording]. *)
Definition start_registered : M unit :=
  startTime <- tone_now ;;
  reg <- read pitchPlayers ;;
  for_each reg (fun kc => player_start (player (snd kc)) startTime).

(** [playRecording] (lines 126-148). *)
Definition playRecording (r : Render) : M unit :=
  match seen_audioBlob r with
  | Some b =>
      call ToneStart ;;
      call (CreateObjectURL b) ;;
      for_each (seen_activePitches r) (ensure r) ;;
      start_registered
  | None => ret tt
  end.

(** *** One handler at a time *)

Definition handle (op : Op) : M unit :=
  fun s =>
    match op with
    | Recorded b => setAudioBlob b s
    | Toggle pitch => togglePitch (render s) pitch s
    | Play => playRecording (render s) s
    | Tick t => write (set_clock t) s
    end.

Definition step (op : Op) (s : State) : State := snd (handle op s).

Definition run (ops : list Op) (s : State) : State :=
  fold_left (fun s op => step op s) ops s.



(** *** Handlers that overlap *)

(** [togglePitch] up to its first suspension. *)
Definition togglePitch_begin (pitch : Z) (w : World) : World :=
  let s := comp w in
  let r := render s in
  if JsSet.has pitch (seen_activePitches r) then
    continue (snd (togglePitch r pitch s)) w
  else
    let newActivePitches := JsSet.add pitch (seen_activePitches r) in
    match seen_audioBlob r with
    | Some _ =>
        if JsMap.has pitch (pitchPlayers s) then
          continue (set_activePitches newActivePitches s) w
        else
          match setupPitchPlayer_to_await r pitch s with
          | (Returned (Some (p, b)), s') =>
              suspend (ToggleAwaitsLoad p b newActivePitches) s' w
          | (_, s') => continue (set_activePitches newActivePitches s') w
          end
    | None => continue (set_activePitches newActivePitches s) w
    end.

Definition play_continue (r : Render) (rest : list Z) (w : World) : World :=
  match play_loop r rest (comp w) with
  | (Some (p, b, rest'), s') => suspend (PlayAwaitsLoad r p b rest') s' w
  | (None, s') => continue (snd (start_registered s')) w
  end.

(** A suspended handler resumes. A state update of an unmounted component
    is dropped; a rejected promise ends the handler. *)
Definition resume (k : Pending) (w : World) : World :=
  match k with
  | ToggleAwaitsLoad p b newActivePitches =>
      if decodes T b then
        if mounted w then continue (set_activePitches newActivePitches (comp w)) w else w
      else w
  | PlayAwaitsToneStart r =>
      match seen_audioBlob r with
      | Some b =>
          play_continue r (seen_activePitches r)
            (continue (log_call (CreateObjectURL b) (comp w)) w)
      | None => w
      end
  | PlayAwaitsLoad r p b rest =>
      if decodes T b then play_continue r rest w else w
  end.

Definition react (e : Event) (w : World) : World :=
  match e with
  | Recorder_stopped b =>
      if mounted w then continue (set_audioBlob (Some b) (comp w)) w else w
  | Click_toggle pitch =>
      if mounted w then togglePitch_begin pitch w else w
  | Click_play =>
      if mounted w then
        match audioBlob (comp w) with
        | Some _ =>
            suspend (PlayAwaitsToneStart (render (comp w)))
                    (log_call ToneStart (comp w)) w
        | None => w
        end
      else w
  | Clock t => continue (set_clock t (comp w)) w
  | Unmount =>
      if mounted w then
        {| comp := snd (cleanup (comp w)); mounted := false; pending := pending w |}
      else w
  | Settle i =>
      match nth_error (pending w) i with
      | Some k =>
          resume k {| comp := comp w; mounted := mounted w;
                      pending := remove_nth i (pending w) |}
      | None => w
      end
  end.

Definition react_all (es : list Event) (w : World) : World :=
  fold_left (fun w e => react e w) es w.

End Engine.

(** ** Reading the log *)

Definition creates_chain_for (o : Z) (c : Call) : bool :=
  match c with
  | NewPitchShift ps => pitch ps =? o
  | _ => false
  end.

Definition chains_created_for (o : Z) (log : list Call) : nat :=
  List.length (filter (creates_chain_for o) log).

Definition is_load (c : Call) : bool :=
  match c with PlayerLoad _ _ => true | _ => false end.

Definition is_start (c : Call) : bool :=
  match c with PlayerStart _ _ => true | _ => false end.

Definition is_now (c : Call) : bool :=
  match c with ToneNow _ => true | _ => false end.

Definition disposes (h : Handle) (c : Call) : bool :=
  match c with
  | DisposePlayer p => Nat.eqb p h
  | DisposeShift p => Nat.eqb p h
  | _ => false
  end.

Definition disposals (h : Handle) (log : list Call) : nat :=
  List.length (filter (disposes h) log).

Definition is_dispose (c : Call) : bool :=
  match c with DisposePlayer _ | DisposeShift _ => true | _ => false end.

(** The call is made on (or builds) the Tone.js object [h]. *)
Definition touches (h : Handle) (c : Call) : bool :=
  match c with
  | NewPlayer p => Nat.eqb p h
  | NewPitchShift ps => Nat.eqb (shift_id ps) h
  | Disconnect p => Nat.eqb p h
  | Connect p ps => Nat.eqb p h || Nat.eqb ps h
  | PlayerLoad p _ => Nat.eqb p h
  | PlayerStart p _ => Nat.eqb p h
  | DisposePlayer p => Nat.eqb p h
  | DisposeShift ps => Nat.eqb ps h
  | CreateObjectURL _ | ToneStart | ToneNow _ => false
  end.

(** The calls added to the log between two states. *)
Definition calls_since (before after : State) : list Call :=
  skipn (List.length (calls before)) (calls after).

Definition load_pending (h : Handle) (w : World) : bool :=
  existsb (fun k =>
             match k with
             | ToggleAwaitsLoad p _ _ => Nat.eqb p h
             | PlayAwaitsLoad _ p _ _ => Nat.eqb p h
             | PlayAwaitsToneStart _ => false
             end) (pending w).

(** The Tone.js objects held by the map. *)
Definition handles_of (reg : list (Z * Chain)) : list Handle :=
  flat_map (fun kc => [player (snd kc); shift_id (pitchShift (snd kc))]) reg.

(** The pair built by [setupPitchPlayer] when [n] objects exist, and the
    calls it makes up to its [await]. *)
Definition new_chain (n : Handle) (pitch : Z) : Chain :=
  mkChain n (mkPitchShift (S n) pitch (1 # 10)%Q 0%Q).

Definition setup_calls (n : Handle) (pitch : Z) (blob : option Blob) : list Call :=
  [NewPlayer n; NewPitchShift (pitchShift (new_chain n pitch));
   Disconnect n; Connect n (S n)]
  ++ match blob with
     | Some b => [CreateObjectURL b; PlayerLoad n b]
     | None => []
     end.

(** The state [setupPitchPlayer] leaves at its [await], and the state
    "release" leaves when it disposes of the pair [c]. *)
Definition after_setup (r : Render) (pitch : Z) (s : State) : State :=
  mkState (audioBlob s) (activePitches s)
          (JsMap.set pitch (new_chain (next_handle s) pitch) (pitchPlayers s))
          (clock s) (S (S (next_handle s)))
          (calls s ++ setup_calls (next_handle s) pitch (seen_audioBlob r)).

Definition after_release (pitch : Z) (c : Chain) (s : State) : State :=
  mkState (audioBlob s) (activePitches s)
          (JsMap.delete pitch (pitchPlayers s))
          (clock s) (next_handle s)
          (calls s ++ [DisposePlayer (player c); DisposeShift (shift_id (pitchShift c))]).

(** The state "release" leaves when the [n]-th of its two disposals throws:
    the calls made so far, the entry still in the map. *)
Definition disposal_threw (n : nat) (c : Chain) (s : State) : State :=
  mkState (audioBlob s) (activePitches s) (pitchPlayers s) (clock s) (next_handle s)
          (calls s ++ firstn n [DisposePlayer (player c);
                                DisposeShift (shift_id (pitchShift c))]).

(** The disposals of the cleanup, in the order of the map. *)
Definition disposal_calls (reg : list (Z * Chain)) : list Call :=
  flat_map (fun kc => [DisposePlayer (player (snd kc));
                       DisposeShift (shift_id (pitchShift (snd kc)))]) reg.

(** The object a call disposes of. *)
Definition disposed_by (c : Call) : option Handle :=
  match c with
  | DisposePlayer p => Some p
  | DisposeShift q => Some q
  | _ => None
  end.

(** What the loop of lines 134-138 may do to a state: it builds pairs and
    asks them to load, and it neither reads the clock nor starts a player. *)
Definition prepared_from (s0 s1 : State) : Prop :=
  audioBlob s1 = audioBlob s0
  /\ activePitches s1 = activePitches s0
  /\ clock s1 = clock s0
  /\ (exists added, calls s1 = calls s0 ++ added
                    /\ filter is_now added = [] /\ filter is_start added = [])
  /\ (forall kc, In kc (pitchPlayers s0) -> In kc (pitchPlayers s1)).

(** The Tone.js objects of the map are distinct, were built before now,
    and none of them has been disposed of; no object was disposed of twice. *)
Definition live_and_distinct (s : State) : Prop :=
  NoDup (handles_of (pitchPlayers s))
  /\ (forall h, In h (handles_of (pitchPlayers s)) -> (h < next_handle s)%nat)
  /\ (forall h, In h (handles_of (pitchPlayers s)) -> disposals h (calls s) = 0%nat)
  /\ (forall h, (disposals h (calls s) <= 1)%nat)
  /\ (forall h, (next_handle s <= h)%nat -> disposals h (calls s) = 0%nat).


(** The objects of the map are distinct and were built before now. *)
Definition registry_fresh (s : State) : Prop :=
  NoDup (handles_of (pitchPlayers s))
  /\ (forall h, In h (handles_of (pitchPlayers s)) -> (h < next_handle s)%nat).

(** From [s] to [s'] the program only called objects that the map of [s]
    held or that it built on the way, and the map of [s'] holds no others. *)
Definition confined (s s' : State) : Prop :=
  (next_handle s <= next_handle s')%nat
  /\ (forall h, In h (handles_of (pitchPlayers s')) ->
                In h (handles_of (pitchPlayers s)) \/ (next_handle s <= h)%nat)
  /\ (exists added,
        calls s' = calls s ++ added
        /\ forall c h, In c added -> touches h c = true ->
                       In h (handles_of (pitchPlayers s)) \/ (next_handle s <= h)%nat).

Definition sound_step (s s' : State) : Prop :=
  registry_fresh s -> registry_fresh s' /\ confined s s'.

(** ** The statements of the specification, as it words them *)

(** Toggling [o] on creates and loads nothing at toggle time, and toggling
    it off again leaves no chain ever created for [o]. *)
Definition toggle_on_defers_creation (T : Tone) (s : State) (o : Z) : Prop :=
  JsSet.has o (activePitches s) = false ->
  let s1 := step T (Toggle o) s in
  let s2 := step T (Toggle o) s1 in
  filter (fun c => creates_chain_for o c || is_load c) (calls_since s s1) = []
  /\ chains_created_for o (calls_since s s2) = 0%nat.

(** [play()] without a recording fails and changes nothing. *)
Definition play_without_recording_fails (T : Tone) (s : State) : Prop :=
  audioBlob s = None ->
  exists e, handle T Play s = (Threw e, s).

(** Toggling twice restores the membership of the selection. *)
Definition toggle_twice_restores (T : Tone) (s : State) (o : Z) : Prop :=
  forall x,
    JsSet.has x (activePitches (step T (Toggle o) (step T (Toggle o) s)))
    = JsSet.has x (activePitches s).


Definition keys_selected (s : State) : Prop :=
  forall k, JsMap.has k (pitchPlayers s) = true -> JsSet.has k (activePitches s) = true.

Definition keyed_by_pitch (s : State) : Prop :=
  forall k c, In (k, c) (pitchPlayers s) -> pitch (pitchShift c) = k.

Definition one_pair_per_offset (s : State) : Prop :=
  NoDup (JsMap.keys (pitchPlayers s)) /\ keyed_by_pitch s.

(** The map stays within the selection, has one pair per offset, and each
    pair was built for the offset it is stored under. *)
Definition registry_within_selection (T : Tone) (ops : list Op) : Prop :=
  let s := run T ops initial_state in
  keys_selected s /\ NoDup (JsMap.keys (pitchPlayers s)) /\ keyed_by_pitch s.

(** No toggle of the sequence was rejected. *)
Fixpoint no_toggle_rejected (T : Tone) (ops : list Op) (s : State) : Prop :=
  match ops with
  | [] => True
  | op :: rest =>
      match op with
      | Toggle _ => fst (handle T op s) = Returned tt
      | _ => True
      end
      /\ no_toggle_rejected T rest (step T op s)
  end.

(** A chain disposed while its load is pending is not used afterwards. *)
Definition disposed_while_loading_stays_unused (T : Tone) (es : list Event) : Prop :=
  forall es1 e es2 h,
    es = es1 ++ e :: es2 ->
    let w1 := react_all T es1 initial_world in
    let w2 := react T e w1 in
    load_pending h w1 = true ->
    In (DisposePlayer h) (calls_since (comp w1) (comp w2)) ->
    forall c, In c (calls_since (comp w2) (comp (react_all T es2 w2))) ->
              touches h c = false.


(** The scenario of the major triad: a recording, then +4 and +7 are
    switched on, the unison being switched off first or left on; the clock
    reads [t] when play is pressed. *)
Definition triad_scenario (b : Blob) (unison : bool) (t : Seconds) : list Op :=
  Recorded b :: (if unison then [] else [Toggle 0]) ++ [Toggle 4; Toggle 7; Tick t].

(** ** The grid of buttons (lines 36-41 and 173-210) *)

(** [Array.from({ length }, (_, i) => f(i))]. *)
Definition array_from {A : Type} (length : nat) (f : Z -> A) : list A :=
  map (fun i => f (Z.of_nat i)) (seq 0 length).

Definition pitchRows : list (list Z) :=
  [ array_from 12 (fun i => - (i + 1));
    [0];
    array_from 12 (fun i => i + 1) ].

(** A number in a template or as a JSX child: its decimal digits, with a
    minus sign when negative (offsets are integers far below 10^21, where
    JavaScript starts to print exponents). *)
Definition decimal (n : Z) : string := DecimalString.NilZero.string_of_int (Z.to_int n).

(** The text of a grid button (line 208). *)
Definition pitchLabel (pitch : Z) : string :=
  if 0 <? pitch then String.append "+" (decimal pitch) else decimal pitch.

Definition style_active : string := "bg-green-600 hover:bg-green-700 text-white".

(** The colour classes of a grid button (lines 202-205). *)
Definition gridButtonColour (activePitches : list Z) (pitch : Z) : string :=
  if JsSet.has pitch activePitches then style_active else getIntervalStyle pitch.

(** [disabled={!audioBlob}] of the play button and of the grid buttons
    (lines 185 and 200): a [Blob], even an empty one, is truthy. *)
Definition controlsDisabled (audioBlob : option Blob) : bool :=
  match audioBlob with
  | Some _ => false
  | None => true
  end.

(** The text of the record button (line 181). *)
Definition recordLabel (isRecording : bool) : string :=
  if isRecording then "Stop Recording" else "Record".

(** ** Capture (lines 53-83) *)

(** The stream [getUserMedia] answers with, by its tracks. *)
Record MediaStream : Type := mkMediaStream {
  tracks : list Handle
}.

(** Calls made into the platform by [startRecording] and [stopRecording]. *)
Inductive CaptureCall : Type :=
| GetUserMedia                          (* navigator.mediaDevices.getUserMedia({ audio: true }) *)
| NewMediaRecorder (stream : MediaStream)  (* new MediaRecorder(stream) *)
| RecorderStart                         (* mediaRecorderRef.current.start() *)
| RecorderStop                          (* mediaRecorderRef.current.stop() *)
| TrackStop (track : Handle)            (* track.stop() *)
| ConsoleError.                         (* console.error(...) *)

Record Capture : Type := mkCapture {
  isRecording : bool;                       (* useState(false) *)
  mediaRecorderRef : option MediaStream;    (* useRef(null): the recorder, by its stream *)
  audioChunksRef : list Blob;               (* useRef([]) *)
  capture_calls : list CaptureCall          (* log, oldest call first *)
}.

Definition initial_capture : Capture :=
  {| isRecording := false; mediaRecorderRef := None; audioChunksRef := [];
     capture_calls := [] |}.

(** [startRecording] (lines 53-75). [answer] is what [getUserMedia] settles
    with: a stream, or nothing when the promise is rejected, which the
    [catch] turns into a message on the console. *)
Definition startRecording (answer : option MediaStream) (c : Capture) : Capture :=
  match answer with
  | Some stream =>
      {| isRecording := true;
         mediaRecorderRef := Some stream;
         audioChunksRef := [];
         capture_calls := capture_calls c ++ [GetUserMedia; NewMediaRecorder stream; RecorderStart] |}
  | None =>
      {| isRecording := isRecording c;
         mediaRecorderRef := mediaRecorderRef c;
         audioChunksRef := audioChunksRef c;
         capture_calls := capture_calls c ++ [GetUserMedia; ConsoleError] |}
  end.

(** [stopRecording] (lines 77-83). *)
Definition stopRecording (c : Capture) : Capture :=
  match mediaRecorderRef c with
  | Some stream =>
      if isRecording c then
        {| isRecording := false;
           mediaRecorderRef := mediaRecorderRef c;
           audioChunksRef := audioChunksRef c;
           capture_calls := capture_calls c ++ RecorderStop :: map TrackStop (tracks stream) |}
      else c
  | None => c
  end.

(** [ondataavailable] (lines 59-63): [event.data.size] is the number of
    bytes of the chunk. *)
Definition ondataavailable (data : Blob) (c : Capture) : Capture :=
  if (0 <? List.length data)%nat then
    {| isRecording := isRecording c;
       mediaRecorderRef := mediaRecorderRef c;
       audioChunksRef := audioChunksRef c ++ [data];
       capture_calls := capture_calls c |}
  else c.

(** The [Blob] built by [onstop] (line 66): the chunks, one after the other. *)
Definition onstop_blob (c : Capture) : Blob := List.concat (audioChunksRef c).

(** ** The component: capture, engine and the buttons *)

Record Studio : Type := mkStudio {
  capture : Capture;
  engine : State
}.

Definition initial_studio : Studio :=
  {| capture := initial_capture; engine := initial_state |}.

(** What reaches the handlers of the rendered component. A click on a
    disabled button reaches none; the two recorder events reach the handlers
    that [startRecording] installed, if it installed any. *)
Inductive StudioEvent : Type :=
| Record_button (answer : option MediaStream)  (* line 174; [answer] is used by startRecording *)
| Data_available (data : Blob)
| Recorder_stops
| Play_button
| Grid_button (pitch : Z)
| Clock_reads (t : Seconds).

(** The balance of the component's own [start()] and [stop()] calls on
    recorders: [Some true] when the last of them was a [start()], [Some
    false] when it was a [stop()] or there was none, [None] once [stop()]
    was called without a [start()] since the last [stop()], or [start()]
    twice without a [stop()] between. A recorder that stops by itself makes
    no call and does not change the balance. *)
Definition recorder_balance (log : list CaptureCall) : option bool :=
  fold_left (fun st call =>
               match st, call with
               | Some false, RecorderStart => Some true
               | Some true, RecorderStart => None
               | Some true, RecorderStop => Some false
               | Some false, RecorderStop => None
               | _, _ => st
               end) log (Some false).

Definition capture_balanced (c : Capture) : Prop :=
  recorder_balance (capture_calls c) = Some (isRecording c)
  /\ (isRecording c = true -> mediaRecorderRef c <> None).

Definition is_recorder_stop (e : StudioEvent) : bool :=
  match e with Recorder_stops => true | _ => false end.

(** ** More readings of the log and of the map *)


Definition is_load_of (p : Handle) (c : Call) : bool :=
  match c with PlayerLoad q _ => Nat.eqb q p | _ => false end.

(** Every object named in the log was built before now. *)
Definition log_fresh (s : State) : Prop :=
  forall c h, In c (calls s) -> touches h c = true -> (h < next_handle s)%nat.

(** Every pair of the map was built by one run of [setupPitchPlayer] for
    the offset it is stored under, with a recording [b] that stands in the
    relation [R] to its player, and its player was not asked to load again. *)
Definition built_once (R : Handle -> Blob -> Prop) (s : State) : Prop :=
  forall k c, In (k, c) (pitchPlayers s) ->
    c = new_chain (player c) k
    /\ exists b pre post,
         R (player c) b
         /\ calls s = pre ++ setup_calls (player c) k (Some b) ++ post
         /\ (forall x, In x pre -> touches (player c) x = false)
         /\ (forall x, In x post -> is_load_of (player c) x = false).

(** The facts kept along a handler that began in [s0]: objects are only
    added, and every pair was built once. *)
Definition built_since (R : Handle -> Blob -> Prop) (s0 s : State) : Prop :=
  (next_handle s0 <= next_handle s)%nat /\ log_fresh s /\ built_once R s.

Section StudioEngine.

Variable T : Tone.

(** One event of the rendered component, handlers served one at a time:
    the microphone has answered, and a load has settled, before the next
    event arrives. The record button runs [stopRecording] while recording
    and [startRecording] otherwise; the play and grid buttons are disabled
    without a recording; [onstop] sets [audioBlob]. *)
Definition studio_react (e : StudioEvent) (u : Studio) : Studio :=
  match e with
  | Record_button answer =>
      if isRecording (capture u)
      then mkStudio (stopRecording (capture u)) (engine u)
      else mkStudio (startRecording answer (capture u)) (engine u)
  | Data_available data =>
      match mediaRecorderRef (capture u) with
      | Some _ => mkStudio (ondataavailable data (capture u)) (engine u)
      | None => u
      end
  | Recorder_stops =>
      match mediaRecorderRef (capture u) with
      | Some _ => mkStudio (capture u) (step T (Recorded (onstop_blob (capture u))) (engine u))
      | None => u
      end
  | Play_button =>
      if controlsDisabled (audioBlob (engine u)) then u
      else mkStudio (capture u) (step T Play (engine u))
  | Grid_button pitch =>
      if controlsDisabled (audioBlob (engine u)) then u
      else mkStudio (capture u) (step T (Toggle pitch) (engine u))
  | Clock_reads t => mkStudio (capture u) (step T (Tick t) (engine u))
  end.

Definition studio_run (es : list StudioEvent) (u : Studio) : Studio :=
  fold_left (fun u e => studio_react e u) es u.

End StudioEngine.

Section BuiltBy.

Variable T : Tone.

(** The object [p] was built by the handler of one operation of [ops], and
    [b] was the recording when that handler began. *)
Definition built_during (ops : list Op) (p : Handle) (b : Blob) : Prop :=
  exists ops1 op ops2,
    ops = ops1 ++ op :: ops2
    /\ audioBlob (run T ops1 initial_state) = Some b
    /\ (next_handle (run T ops1 initial_state) <= p)%nat
    /\ (p < next_handle (step T op (run T ops1 initial_state)))%nat.

End BuiltBy.

(** ** Capture with clicks that overtake the microphone *)

(** [startRecording] is suspended at line 55 until [getUserMedia] settles;
    until then [isRecording] is unchanged and the record button still runs
    [startRecording]. What follows the [await] reads no state of the render,
    so the suspended calls are told apart by their answers only. *)
Record CaptureWorld : Type := mkCaptureWorld {
  cap : Capture;
  awaiting_microphone : nat       (* calls of startRecording suspended at line 55 *)
}.

Inductive CaptureEvent : Type :=
| Click_record
| Microphone_answers (answer : option MediaStream).

(** Line 55 up to the [await]. *)
Definition startRecording_begin (c : Capture) : Capture :=
  {| isRecording := isRecording c;
     mediaRecorderRef := mediaRecorderRef c;
     audioChunksRef := audioChunksRef c;
     capture_calls := capture_calls c ++ [GetUserMedia] |}.

(** Lines 56-71 after the [await], or the [catch] of line 73. *)
Definition startRecording_resume (answer : option MediaStream) (c : Capture) : Capture :=
  match answer with
  | Some stream =>
      {| isRecording := true;
         mediaRecorderRef := Some stream;
         audioChunksRef := [];
         capture_calls := capture_calls c ++ [NewMediaRecorder stream; RecorderStart] |}
  | None =>
      {| isRecording := isRecording c;
         mediaRecorderRef := mediaRecorderRef c;
         audioChunksRef := audioChunksRef c;
         capture_calls := capture_calls c ++ [ConsoleError] |}
  end.

Definition capture_react (e : CaptureEvent) (w : CaptureWorld) : CaptureWorld :=
  match e with
  | Click_record =>
      if isRecording (cap w)
      then mkCaptureWorld (stopRecording (cap w)) (awaiting_microphone w)
      else mkCaptureWorld (startRecording_begin (cap w)) (S (awaiting_microphone w))
  | Microphone_answers answer =>
      match awaiting_microphone w with
      | O => w
      | S n => mkCaptureWorld (startRecording_resume answer (cap w)) n
      end
  end.

Definition capture_react_all (es : list CaptureEvent) (w : CaptureWorld) : CaptureWorld :=
  fold_left (fun w e => capture_react e w) es w.

Definition stops_track (t : Handle) (call : CaptureCall) : bool :=
  match call with TrackStop t' => Nat.eqb t' t | _ => false end.

(** * Properties *)

(** ** The containers *)

Lemma set_has_In (x : Z) (s : list Z) : JsSet.has x s = true <-> In x s.
Proof.
  unfold JsSet.has. rewrite existsb_exists. split.
  - intros [y [Hy Heq]]. apply Z.eqb_eq in Heq. now subst.
  - intros H. exists x. split; [assumption | apply Z.eqb_refl].
Qed.

Lemma set_has_app (x : Z) (s1 s2 : list Z) :
  JsSet.has x (s1 ++ s2) = JsSet.has x s1 || JsSet.has x s2.
Proof. unfold JsSet.has. apply existsb_app. Qed.

Lemma set_has_add (x y : Z) (s : list Z) :
  JsSet.has x (JsSet.add y s) = (x =? y) || JsSet.has x s.
Proof.
  unfold JsSet.add. destruct (JsSet.has y s) eqn:Hy.
  - destruct (Z.eqb_spec x y) as [-> | _]; [now rewrite Hy | reflexivity].
  - rewrite set_has_app. cbn. rewrite orb_false_r. apply orb_comm.
Qed.

Lemma set_has_delete (x y : Z) (s : list Z) :
  JsSet.has x (JsSet.delete y s) = negb (y =? x) && JsSet.has x s.
Proof.
  unfold JsSet.delete, JsSet.has. induction s as [| z s IH]; cbn.
  - now rewrite andb_false_r.
  - destruct (Z.eqb_spec y z) as [-> | Hyz]; cbn.
    + rewrite IH. rewrite (Z.eqb_sym x z). destruct (z =? x); reflexivity.
    + rewrite IH. destruct (Z.eqb_spec x z) as [-> | _]; cbn.
      * destruct (Z.eqb_spec y z); [contradiction | reflexivity].
      * reflexivity.
Qed.

Section MapFacts.
Context {V : Type}.
Implicit Types (m : list (Z * V)) (k : Z) (v : V).

Lemma map_has_In k m : JsMap.has k m = true <-> In k (JsMap.keys m).
Proof.
  unfold JsMap.has, JsMap.keys. rewrite existsb_exists, in_map_iff. split.
  - intros [kv [Hin Heq]]. apply Z.eqb_eq in Heq. exists kv. now split.
  - intros [kv [Heq Hin]]. exists kv. split; [assumption |]. apply Z.eqb_eq. now symmetry.
Qed.


Lemma map_has_get k m :
  JsMap.has k m = match JsMap.get k m with Some _ => true | None => false end.
Proof.
  induction m as [| [k' v'] m IH]; cbn; [reflexivity |].
  destruct (k =? k'); [reflexivity | exact IH].
Qed.

Lemma map_get_In k v m : JsMap.get k m = Some v -> In (k, v) m.
Proof.
  induction m as [| [k' v'] m IH]; cbn; [discriminate |].
  destruct (Z.eqb_spec k k') as [-> | _].
  - intros [= ->]. now left.
  - intros H. right. now apply IH.
Qed.

Lemma map_set_fresh k v m : JsMap.has k m = false -> JsMap.set k v m = m ++ [(k, v)].
Proof.
  induction m as [| [k' v'] m IH]; cbn; [reflexivity |].
  destruct (k =? k'); cbn; [discriminate |]. intros H. now rewrite IH.
Qed.

Lemma map_has_app k m1 m2 : JsMap.has k (m1 ++ m2) = JsMap.has k m1 || JsMap.has k m2.
Proof. unfold JsMap.has. apply existsb_app. Qed.

Lemma map_has_set k k' v m : JsMap.has k (JsMap.set k' v m) = (k =? k') || JsMap.has k m.
Proof.
  unfold JsMap.has. induction m as [| [k0 v0] m IH]; cbn.
  - reflexivity.
  - destruct (Z.eqb_spec k' k0) as [-> | Hne]; cbn.
    + now destruct (k =? k0).
    + rewrite IH. destruct (k =? k0), (k =? k'); reflexivity.
Qed.

Lemma map_has_delete k k' m :
  JsMap.has k (JsMap.delete k' m) = negb (k' =? k) && JsMap.has k m.
Proof.
  unfold JsMap.delete, JsMap.has. induction m as [| [k0 v0] m IH]; cbn.
  - now rewrite andb_false_r.
  - destruct (Z.eqb_spec k' k0) as [-> | Hne]; cbn.
    + rewrite IH. rewrite (Z.eqb_sym k k0). destruct (k0 =? k); reflexivity.
    + rewrite IH. destruct (Z.eqb_spec k k0) as [-> | _]; cbn.
      * destruct (Z.eqb_spec k' k0); [contradiction | reflexivity].
      * reflexivity.
Qed.

Lemma map_In_delete k (kv : Z * V) m : In kv (JsMap.delete k m) -> In kv m.
Proof. unfold JsMap.delete. intros H. now apply filter_In in H. Qed.

Lemma map_delete_absent k m : JsMap.has k m = false -> JsMap.delete k m = m.
Proof.
  unfold JsMap.delete, JsMap.has. induction m as [| [k0 v0] m IH]; cbn; [reflexivity |].
  destruct (k =? k0); cbn; [discriminate |]. intros H. now rewrite IH.
Qed.

Lemma map_keys_delete k m : JsMap.keys (JsMap.delete k m) = JsSet.delete k (JsMap.keys m).
Proof.
  unfold JsMap.keys, JsMap.delete, JsSet.delete.
  induction m as [| [k0 v0] m IH]; cbn; [reflexivity |].
  destruct (k =? k0); cbn; now rewrite IH.
Qed.

Lemma NoDup_keys_delete k m : NoDup (JsMap.keys m) -> NoDup (JsMap.keys (JsMap.delete k m)).
Proof. rewrite map_keys_delete. unfold JsSet.delete. apply NoDup_filter. Qed.

Lemma NoDup_keys_snoc k v m :
  JsMap.has k m = false -> NoDup (JsMap.keys m) -> NoDup (JsMap.keys (m ++ [(k, v)])).
Proof.
  intros Hk Hnd. unfold JsMap.keys. rewrite map_app. cbn.
  apply NoDup_app; [assumption | repeat constructor; intros [] |].
  intros x Hx [<- | []].
  apply map_has_In in Hx. congruence.
Qed.

End MapFacts.

(** ** The log *)

Lemma calls_since_app (s s' : State) (added : list Call) :
  calls s' = calls s ++ added -> calls_since s s' = added.
Proof.
  intros H. unfold calls_since. rewrite H.
  rewrite skipn_app, skipn_all, Nat.sub_diag. reflexivity.
Qed.

(** ** Interval classification *)

Lemma grid_offsets (o : Z) :
  -12 <= o <= 12 ->
  In o [-12; -11; -10; -9; -8; -7; -6; -5; -4; -3; -2; -1; 0;
        1; 2; 3; 4; 5; 6; 7; 8; 9; 10; 11; 12].
Proof.
  intros H. cbn.
  assert (Hn : exists n : nat, (n < 25)%nat /\ o = Z.of_nat n - 12).
  { exists (Z.to_nat (o + 12)). split; lia. }
  destruct Hn as [n [Hlt ->]].
  do 25 (destruct n as [| n]; [cbn; tauto |]).
  lia.
Qed.

(** C5. The classification of an offset of the grid [-12, 12] is a function
    of the offset alone and follows the table exactly: absolute value 4, 7
    or 12 is a perfect consonance, 3, 5, 8 or 9 an imperfect one, 0 the
    original, and every other offset (absolute value 1, 2, 6, 10 or 11) a
    dissonance. *)
Theorem interval_classification_exact (o : Z) :
  -12 <= o <= 12 ->
  spec_interval_class o <> None
  /\ class_of_style (getIntervalStyle o) = spec_interval_class o.
Proof.
  intros H. apply grid_offsets in H. cbn in H.
  repeat (destruct H as [<- | H]; [split; [discriminate | reflexivity] |]).
  contradiction.
Qed.

(** ** Running the handlers *)

(** Unfolds the primitive state updates. *)
Ltac unfold_updates :=
  unfold ret, read, write, call, fresh, setActivePitches, setAudioBlob, tone_now,
    log_call, bump_handle, set_pitchPlayers, set_activePitches, set_audioBlob, set_clock,
    new_chain in *.

Lemma bind_run {A B : Type} (m : M A) (k : A -> M B) (s : State) :
  bind m k s = match m s with
               | (Returned a, s') => k a s'
               | (Threw e, s') => (Threw e, s')
               end.
Proof. reflexivity. Qed.

Lemma for_each_cons {A : Type} (x : A) (l : list A) (body : A -> M unit) (s : State) :
  for_each (x :: l) body s = match body x s with
                             | (Returned _, s') => for_each l body s'
                             | (Threw e, s') => (Threw e, s')
                             end.
Proof. reflexivity. Qed.

(** A property kept by every turn of a loop is kept by the loop, whether it
    ends or throws. *)
Lemma for_each_invariant {A : Type} (body : A -> M unit) (P : State -> Prop) (l : list A) :
  (forall x s, In x l -> P s -> P (snd (body x s))) ->
  forall s, P s -> P (snd (for_each l body s)).
Proof.
  induction l as [| x l IH]; intros Hbody s Hs; [exact Hs |].
  rewrite for_each_cons.
  pose proof (Hbody x s (or_introl eq_refl) Hs) as Hx.
  destruct (body x s) as [[[] | e] s']; cbn in *.
  - apply IH; [| exact Hx]. intros y s0 Hy. apply Hbody. now right.
  - exact Hx.
Qed.

(** A loop that returns has run every turn to its end. *)
Lemma for_each_returned {A : Type} (body : A -> M unit) (Q : A -> State -> Prop) (l : list A) :
  (forall x s, fst (body x s) = Returned tt -> Q x (snd (body x s))) ->
  (forall x y s, Q x s -> Q x (snd (body y s))) ->
  forall s, fst (for_each l body s) = Returned tt ->
            forall x, In x l -> Q x (snd (for_each l body s)).
Proof.
  intros Hdone Hkeep. induction l as [| y l IH]; intros s Hret x Hx; [contradiction |].
  rewrite for_each_cons in *.
  pose proof (Hdone y s) as Hy.
  destruct (body y s) as [[[] | e] s'] eqn:Hb; cbn in *; [| discriminate].
  destruct Hx as [-> | Hx].
  - apply (for_each_invariant body (Q x) l); [| now apply Hy].
    intros z s0 _. apply Hkeep.
  - now apply IH.
Qed.

Lemma setup_to_await_run (r : Render) (pitch : Z) (s : State) :
  setupPitchPlayer_to_await r pitch s
  = (Returned (option_map (pair (next_handle s)) (seen_audioBlob r)),
     after_setup r pitch s).
Proof.
  unfold setupPitchPlayer_to_await, after_setup, setup_calls.
  destruct s as [blob act reg clk n log].
  destruct (seen_audioBlob r) as [b |]; unfold bind; unfold_updates; cbn;
    repeat rewrite <- app_assoc; reflexivity.
Qed.

Section EngineFacts.

Variable T : Tone.

(** "Release": nothing without an entry; with one, the two disposals and
    the deletion, or the calls up to the disposal that threw. *)
Lemma release_run (pitch : Z) (s : State) :
  release T pitch s
  = match JsMap.get pitch (pitchPlayers s) with
    | Some c =>
        if dispose_returns T (calls s) (player c) then
          if dispose_returns T (calls s ++ [DisposePlayer (player c)])
                             (shift_id (pitchShift c))
          then (Returned tt, after_release pitch c s)
          else (Threw (DisposeThrew (shift_id (pitchShift c))), disposal_threw 2 c s)
        else (Threw (DisposeThrew (player c)), disposal_threw 1 c s)
    | None => (Returned tt, s)
    end.
Proof.
  unfold release. rewrite bind_run. cbn [read].
  rewrite map_has_get. destruct s as [blob act reg clk n log]. cbn [pitchPlayers calls].
  destruct (JsMap.get pitch reg) as [c |]; [| reflexivity].
  rewrite !bind_run. unfold player_dispose at 1. cbn [calls].
  destruct (dispose_returns T log (player c)); [| reflexivity].
  rewrite bind_run. unfold pitchShift_dispose. cbn [calls log_call].
  destruct (dispose_returns T (log ++ [DisposePlayer (player c)]) (shift_id (pitchShift c)));
    unfold after_release, disposal_threw; unfold_updates; cbn; now rewrite <- app_assoc.
Qed.

(** A release that returns. *)
Lemma release_returned (pitch : Z) (s : State) :
  fst (release T pitch s) = Returned tt ->
  snd (release T pitch s)
  = match JsMap.get pitch (pitchPlayers s) with
    | Some c => after_release pitch c s
    | None => s
    end.
Proof.
  rewrite release_run. destruct (JsMap.get pitch (pitchPlayers s)) as [c |]; [| reflexivity].
  destruct (dispose_returns T (calls s) (player c)); [| discriminate].
  destruct (dispose_returns T (calls s ++ [DisposePlayer (player c)])
                            (shift_id (pitchShift c))); [reflexivity | discriminate].
Qed.

(** A release that is rejected: one of the two disposals of the entry
    threw, and the entry is still in the map. *)
Lemma release_rejected (pitch : Z) (s : State) (e : Error) :
  fst (release T pitch s) = Threw e ->
  exists c n,
    JsMap.get pitch (pitchPlayers s) = Some c
    /\ snd (release T pitch s) = disposal_threw n c s
    /\ ((n = 1%nat /\ e = DisposeThrew (player c)
         /\ dispose_returns T (calls s) (player c) = false)
        \/ (n = 2%nat /\ e = DisposeThrew (shift_id (pitchShift c))
            /\ dispose_returns T (calls s ++ [DisposePlayer (player c)])
                               (shift_id (pitchShift c)) = false)).
Proof.
  rewrite release_run. destruct (JsMap.get pitch (pitchPlayers s)) as [c |]; [| discriminate].
  destruct (dispose_returns T (calls s) (player c)) eqn:Hp.
  - destruct (dispose_returns T (calls s ++ [DisposePlayer (player c)])
                              (shift_id (pitchShift c))) eqn:Hq; [discriminate |].
    cbn. intros [= <-]. exists c, 2%nat. split; [reflexivity |]. split; [reflexivity |].
    right. repeat split; exact Hq.
  - cbn. intros [= <-]. exists c, 1%nat. split; [reflexivity |]. split; [reflexivity |].
    left. repeat split; exact Hp.
Qed.

(** Whatever its outcome, a release makes some of the two disposals of
    its entry and nothing else, and adds nothing to the map. *)
Lemma release_effect (pitch : Z) (s : State) :
  exists n reg,
    snd (release T pitch s)
    = mkState (audioBlob s) (activePitches s) reg (clock s) (next_handle s)
              (calls s ++ firstn n match JsMap.get pitch (pitchPlayers s) with
                                   | Some c => [DisposePlayer (player c);
                                                DisposeShift (shift_id (pitchShift c))]
                                   | None => []
                                   end)
    /\ (reg = pitchPlayers s \/ reg = JsMap.delete pitch (pitchPlayers s)).
Proof.
  rewrite release_run. destruct (JsMap.get pitch (pitchPlayers s)) as [c |] eqn:Hget.
  - destruct (dispose_returns T (calls s) (player c)).
    + destruct (dispose_returns T (calls s ++ [DisposePlayer (player c)])
                                (shift_id (pitchShift c))).
      * exists 2%nat, (JsMap.delete pitch (pitchPlayers s)). split; [reflexivity | now right].
      * exists 2%nat, (pitchPlayers s). split; [reflexivity | now left].
    + exists 1%nat, (pitchPlayers s). split; [reflexivity | now left].
  - exists 0%nat, (pitchPlayers s). destruct s; cbn. rewrite app_nil_r.
    split; [reflexivity | now left].
Qed.

(** The [forEach] of the cleanup: the disposals it made, up to the first
    one that threw. *)
Lemma cleanup_loop_run (reg : list (Z * Chain)) (s : State) :
  exists issued : nat,
    snd (for_each reg (fun kc =>
           player_dispose T (player (snd kc)) ;;
           pitchShift_dispose T (shift_id (pitchShift (snd kc)))) s)
    = mkState (audioBlob s) (activePitches s) (pitchPlayers s) (clock s) (next_handle s)
              (calls s ++ firstn issued (disposal_calls reg))
    /\ (fst (for_each reg (fun kc =>
               player_dispose T (player (snd kc)) ;;
               pitchShift_dispose T (shift_id (pitchShift (snd kc)))) s) = Returned tt ->
        firstn issued (disposal_calls reg) = disposal_calls reg)
    /\ (forall e,
          fst (for_each reg (fun kc =>
                 player_dispose T (player (snd kc)) ;;
                 pitchShift_dispose T (shift_id (pitchShift (snd kc)))) s) = Threw e ->
          exists before c h,
            firstn issued (disposal_calls reg) = before ++ [c]
            /\ disposed_by c = Some h
            /\ e = DisposeThrew h
            /\ dispose_returns T (calls s ++ before) h = false
            /\ (issued <= List.length (disposal_calls reg))%nat).
Proof.
  revert s. induction reg as [| kc reg IH]; intros s.
  - exists 0%nat. destruct s; cbn. rewrite app_nil_r.
    split; [reflexivity |]. split; [reflexivity | discriminate].
  - rewrite for_each_cons, bind_run. unfold player_dispose at 1 3 5.
    destruct (dispose_returns T (calls s) (player (snd kc))) eqn:Hp.
    + unfold pitchShift_dispose at 1 3 5. cbn [calls log_call].
      destruct (dispose_returns T (calls s ++ [DisposePlayer (player (snd kc))])
                                (shift_id (pitchShift (snd kc)))) eqn:Hq.
      * destruct (IH (log_call (DisposeShift (shift_id (pitchShift (snd kc))))
                       (log_call (DisposePlayer (player (snd kc))) s)))
          as [n (Hs & Hr & He)].
        exists (S (S n)). rewrite Hs. cbn [log_call audioBlob activePitches pitchPlayers clock
                                            next_handle calls disposal_calls flat_map app firstn].
        fold (disposal_calls reg). rewrite <- !app_assoc. cbn [app].
        split; [reflexivity |]. split.
        -- intros Hret. now rewrite (Hr Hret).
        -- intros e Hthrew. destruct (He e Hthrew) as (before & c & h & Hb & Hc & Hh & Hd & Hle).
           exists (DisposePlayer (player (snd kc))
                     :: DisposeShift (shift_id (pitchShift (snd kc))) :: before), c, h.
           rewrite Hb. split; [reflexivity |]. split; [exact Hc |]. split; [exact Hh |].
           split.
           ++ cbn [log_call calls] in Hd. rewrite <- !app_assoc in Hd. exact Hd.
           ++ cbn [List.length]. lia.
      * exists 2%nat. cbn [fst snd log_call audioBlob activePitches pitchPlayers clock
                             next_handle calls disposal_calls flat_map app firstn].
        split; [unfold log_call; cbn; now rewrite <- app_assoc |]. split; [discriminate |].
        intros e [= <-]. exists [DisposePlayer (player (snd kc))],
          (DisposeShift (shift_id (pitchShift (snd kc)))), (shift_id (pitchShift (snd kc))).
        repeat split; try reflexivity; [exact Hq | cbn; lia].
    + exists 1%nat. cbn [fst snd log_call audioBlob activePitches pitchPlayers clock
                           next_handle calls disposal_calls flat_map app firstn].
      split; [reflexivity |]. split; [discriminate |].
      intros e [= <-]. exists [], (DisposePlayer (player (snd kc))), (player (snd kc)).
      rewrite app_nil_r. repeat split; try reflexivity; [exact Hp | cbn; lia].
Qed.

Lemma cleanup_run (s : State) :
  exists issued : nat,
    snd (cleanup T s)
    = mkState (audioBlob s) (activePitches s) (pitchPlayers s) (clock s) (next_handle s)
              (calls s ++ firstn issued (disposal_calls (pitchPlayers s)))
    /\ (fst (cleanup T s) = Returned tt ->
        firstn issued (disposal_calls (pitchPlayers s)) = disposal_calls (pitchPlayers s))
    /\ (forall e,
          fst (cleanup T s) = Threw e ->
          exists before c h,
            firstn issued (disposal_calls (pitchPlayers s)) = before ++ [c]
            /\ disposed_by c = Some h
            /\ e = DisposeThrew h
            /\ dispose_returns T (calls s ++ before) h = false
            /\ (issued <= List.length (disposal_calls (pitchPlayers s)))%nat).
Proof. unfold cleanup. rewrite bind_run. cbn [read]. apply cleanup_loop_run. Qed.

Lemma setupPitchPlayer_run (r : Render) (pitch : Z) (s : State) :
  setupPitchPlayer T r pitch s
  = (match seen_audioBlob r with
     | Some b => if decodes T b then Returned tt else Threw (LoadRejected (next_handle s) b)
     | None => Returned tt
     end, after_setup r pitch s).
Proof.
  unfold setupPitchPlayer. rewrite bind_run, setup_to_await_run.
  destruct (seen_audioBlob r) as [b |]; cbn; [| reflexivity].
  unfold load_settles. now destruct (decodes T b).
Qed.

Lemma ensure_run (r : Render) (pitch : Z) (s : State) :
  ensure T r pitch s
  = if JsMap.has pitch (pitchPlayers s) then (Returned tt, s)
    else setupPitchPlayer T r pitch s.
Proof.
  unfold ensure. rewrite bind_run. cbn [read].
  now destruct (JsMap.has pitch (pitchPlayers s)).
Qed.

(** [togglePitch] on an active pitch: release, then the new selection,
    unless a disposal threw. *)
Lemma toggle_off_run (pitch : Z) (s : State) :
  JsSet.has pitch (activePitches s) = true ->
  handle T (Toggle pitch) s
  = match release T pitch s with
    | (Returned _, s') =>
        (Returned tt, set_activePitches (JsSet.delete pitch (activePitches s)) s')
    | (Threw e, s') => (Threw e, s')
    end.
Proof.
  intros H. unfold handle, togglePitch. cbn [render seen_activePitches]. rewrite H.
  rewrite bind_run. destruct (release T pitch s) as [[[] | e] s']; reflexivity.
Qed.

(** [togglePitch] on an inactive pitch. *)
Lemma toggle_on_run (pitch : Z) (s : State) :
  JsSet.has pitch (activePitches s) = false ->
  handle T (Toggle pitch) s
  = match audioBlob s with
    | None => (Returned tt, set_activePitches (JsSet.add pitch (activePitches s)) s)
    | Some b =>
        if JsMap.has pitch (pitchPlayers s) then
          (Returned tt, set_activePitches (JsSet.add pitch (activePitches s)) s)
        else if decodes T b then
          (Returned tt,
           set_activePitches (JsSet.add pitch (activePitches s)) (after_setup (render s) pitch s))
        else
          (Threw (LoadRejected (next_handle s) b), after_setup (render s) pitch s)
    end.
Proof.
  intros H. unfold handle, togglePitch. cbn [render seen_activePitches seen_audioBlob].
  rewrite H. rewrite bind_run.
  destruct (audioBlob s) as [b |] eqn:Hb; [| reflexivity].
  rewrite ensure_run. destruct (JsMap.has pitch (pitchPlayers s)); [reflexivity |].
  rewrite setupPitchPlayer_run. cbn [render seen_audioBlob]. rewrite Hb.
  now destruct (decodes T b).
Qed.

(** The loop of [forEach] at lines 144-146: the starts it issued, up to
    the first one that threw. *)
Lemma start_loop_run (t : Seconds) (reg : list (Z * Chain)) (s : State) :
  exists issued : nat,
    snd (for_each reg (fun kc => player_start T (player (snd kc)) t) s)
    = mkState (audioBlob s) (activePitches s) (pitchPlayers s) (clock s) (next_handle s)
              (calls s ++ map (fun kc => PlayerStart (player (snd kc)) t) (firstn issued reg))
    /\ (fst (for_each reg (fun kc => player_start T (player (snd kc)) t) s) = Returned tt ->
        firstn issued reg = reg).
Proof.
  revert s. induction reg as [| kc reg IH]; intros s.
  - exists 0%nat. destruct s; cbn. now rewrite app_nil_r.
  - rewrite for_each_cons. unfold player_start at 1 3.
    destruct (start_ok T (calls s) (player (snd kc)) t).
    + destruct (IH (log_call (PlayerStart (player (snd kc)) t) s)) as [n [Hs Hr]].
      exists (S n). rewrite Hs. cbn. rewrite <- app_assoc. split; [reflexivity |].
      intros Hret. now rewrite (Hr Hret).
    + exists 1%nat. cbn. split; [reflexivity | discriminate].
Qed.

Lemma start_registered_unfold (s : State) :
  start_registered T s
  = for_each (pitchPlayers s) (fun kc => player_start T (player (snd kc)) (clock s))
             (log_call (ToneNow (clock s)) s).
Proof. reflexivity. Qed.

Lemma start_registered_run (s : State) :
  exists issued : nat,
    snd (start_registered T s)
    = mkState (audioBlob s) (activePitches s) (pitchPlayers s) (clock s) (next_handle s)
              (calls s ++ ToneNow (clock s)
                 :: map (fun kc => PlayerStart (player (snd kc)) (clock s))
                        (firstn issued (pitchPlayers s)))
    /\ (fst (start_registered T s) = Returned tt ->
        firstn issued (pitchPlayers s) = pitchPlayers s).
Proof.
  rewrite start_registered_unfold.
  destruct (start_loop_run (clock s) (pitchPlayers s) (log_call (ToneNow (clock s)) s))
    as [n [Hs Hr]].
  exists n. rewrite Hs. cbn. rewrite <- app_assoc. split; [reflexivity | exact Hr].
Qed.

(** [playRecording] with a recording: the two calls of lines 129 and 131,
    the loop over the selection, then the starts. *)
Lemma play_run (s : State) (b : Blob) :
  audioBlob s = Some b ->
  handle T Play s
  = match for_each (activePitches s) (ensure T (render s))
                   (log_call (CreateObjectURL b) (log_call ToneStart s)) with
    | (Returned _, s1) => start_registered T s1
    | (Threw e, s1) => (Threw e, s1)
    end.
Proof.
  intros Hb. unfold handle, playRecording. cbn [render seen_audioBlob seen_activePitches].
  rewrite Hb. reflexivity.
Qed.

Lemma play_without_recording (s : State) :
  audioBlob s = None -> handle T Play s = (Returned tt, s).
Proof.
  intros Hb. unfold handle, playRecording. cbn [render seen_audioBlob]. now rewrite Hb.
Qed.

End EngineFacts.

(** ** Toggling and playing without a recording *)

Section ToggleFacts.

Variable T : Tone.

Lemma release_keeps_selection (pitch : Z) (s : State) :
  activePitches (snd (release T pitch s)) = activePitches s
  /\ audioBlob (snd (release T pitch s)) = audioBlob s
  /\ clock (snd (release T pitch s)) = clock s
  /\ next_handle (snd (release T pitch s)) = next_handle s.
Proof.
  destruct (release_effect T pitch s) as (n & reg & -> & _). repeat split; reflexivity.
Qed.



(** Without an entry, or with an entry whose two objects were never
    started, a release returns. *)
Lemma release_returns_unstarted (pitch : Z) (s : State) :
  (forall c, JsMap.get pitch (pitchPlayers s) = Some c ->
             existsb (starts (player c)) (calls s) = false
             /\ existsb (starts (shift_id (pitchShift c))) (calls s) = false) ->
  fst (release T pitch s) = Returned tt.
Proof.
  intros Hun. rewrite release_run.
  destruct (JsMap.get pitch (pitchPlayers s)) as [c |]; [| reflexivity].
  destruct (Hun c eq_refl) as [Hp Hq]. unfold dispose_returns.
  rewrite Hp, existsb_app, Hq. reflexivity.
Qed.

(** Switching an offset off: the outcome of the handler is the outcome of
    the release. *)
Lemma toggle_off_outcome (pitch : Z) (s : State) :
  JsSet.has pitch (activePitches s) = true ->
  fst (handle T (Toggle pitch) s) = fst (release T pitch s).
Proof.
  intros Hact. rewrite toggle_off_run by assumption.
  now destruct (release T pitch s) as [[[] | e] s'].
Qed.

Lemma toggle_off_returned (pitch : Z) (s : State) :
  JsSet.has pitch (activePitches s) = true ->
  fst (handle T (Toggle pitch) s) = Returned tt ->
  step T (Toggle pitch) s
  = set_activePitches (JsSet.delete pitch (activePitches s))
      match JsMap.get pitch (pitchPlayers s) with
      | Some c => after_release pitch c s
      | None => s
      end.
Proof.
  intros Hact Hret. rewrite toggle_off_outcome in Hret by assumption.
  unfold step. rewrite toggle_off_run by assumption.
  rewrite <- (release_returned T pitch s Hret).
  destruct (release T pitch s) as [[[] | e] s']; [reflexivity | discriminate].
Qed.

Lemma toggle_off_rejected (pitch : Z) (s : State) (e : Error) :
  JsSet.has pitch (activePitches s) = true ->
  fst (handle T (Toggle pitch) s) = Threw e ->
  exists c n,
    JsMap.get pitch (pitchPlayers s) = Some c
    /\ step T (Toggle pitch) s = disposal_threw n c s
    /\ ((n = 1%nat /\ e = DisposeThrew (player c)
         /\ dispose_returns T (calls s) (player c) = false)
        \/ (n = 2%nat /\ e = DisposeThrew (shift_id (pitchShift c))
            /\ dispose_returns T (calls s ++ [DisposePlayer (player c)])
                               (shift_id (pitchShift c)) = false)).
Proof.
  intros Hact Hthrew. rewrite toggle_off_outcome in Hthrew by assumption.
  destruct (release_rejected T pitch s e Hthrew) as (c & n & Hget & Hs & Hcase).
  exists c, n. split; [exact Hget |]. split; [| exact Hcase].
  unfold step. rewrite toggle_off_run by assumption. rewrite <- Hs.
  destruct (release T pitch s) as [[[] | e'] s']; [discriminate | reflexivity].
Qed.

(** The state a toggle-off leaves, whatever its outcome: some of the two
    disposals of the entry were made, and no entry was added. *)
Lemma toggle_off_effect (pitch : Z) (s : State) :
  JsSet.has pitch (activePitches s) = true ->
  exists n act reg,
    step T (Toggle pitch) s
    = mkState (audioBlob s) act reg (clock s) (next_handle s)
              (calls s ++ firstn n match JsMap.get pitch (pitchPlayers s) with
                                   | Some c => [DisposePlayer (player c);
                                                DisposeShift (shift_id (pitchShift c))]
                                   | None => []
                                   end)
    /\ (reg = pitchPlayers s \/ reg = JsMap.delete pitch (pitchPlayers s))
    /\ (act = activePitches s \/ act = JsSet.delete pitch (activePitches s)).
Proof.
  intros Hact. unfold step. rewrite toggle_off_run by assumption.
  destruct (release_effect T pitch s) as (n & reg & Hs & Hreg).
  destruct (release T pitch s) as [[[] | e] s']; cbn [snd] in *; subst s'.
  - exists n, (JsSet.delete pitch (activePitches s)), reg.
    split; [reflexivity |]. split; [exact Hreg | now right].
  - exists n, (activePitches s), reg. split; [reflexivity |]. split; [exact Hreg | now left].
Qed.

(** Switching an offset on is rejected only by a recording that cannot be
    decoded. *)
Lemma toggle_on_returns_if_decodable (pitch : Z) (s : State) :
  JsSet.has pitch (activePitches s) = false ->
  (forall b, audioBlob s = Some b -> decodes T b = true) ->
  fst (handle T (Toggle pitch) s) = Returned tt.
Proof.
  intros Hact Hdec. rewrite toggle_on_run by assumption.
  destruct (audioBlob s) as [b |]; [| reflexivity].
  destruct (JsMap.has pitch (pitchPlayers s)); [reflexivity |].
  now rewrite (Hdec b eq_refl).
Qed.

Lemma toggle_keeps_recording (pitch : Z) (s : State) :
  audioBlob (step T (Toggle pitch) s) = audioBlob s.
Proof.
  destruct (JsSet.has pitch (activePitches s)) eqn:Hact.
  - destruct (toggle_off_effect pitch s Hact) as (n & act & reg & -> & _). reflexivity.
  - unfold step. rewrite toggle_on_run by assumption.
    destruct (audioBlob s) as [b |] eqn:Hb; [| exact Hb].
    destruct (JsMap.has pitch (pitchPlayers s)); [exact Hb |].
    destruct (decodes T b); exact Hb.
Qed.

(** A toggle that returns has flipped the membership of its pitch. *)
Lemma toggle_returned_selection (pitch : Z) (s : State) :
  fst (handle T (Toggle pitch) s) = Returned tt ->
  activePitches (step T (Toggle pitch) s)
  = if JsSet.has pitch (activePitches s)
    then JsSet.delete pitch (activePitches s)
    else JsSet.add pitch (activePitches s).
Proof.
  destruct (JsSet.has pitch (activePitches s)) eqn:Hact.
  - intros Hret. now rewrite (toggle_off_returned pitch s Hact Hret).
  - unfold step. rewrite toggle_on_run by assumption.
    destruct (audioBlob s) as [b |]; [| reflexivity].
    destruct (JsMap.has pitch (pitchPlayers s)); [reflexivity |].
    destruct (decodes T b); [reflexivity | discriminate].
Qed.

(** The calls of a toggle-off build nothing. *)
Lemma toggle_off_creates_nothing (pitch o : Z) (s : State) :
  JsSet.has pitch (activePitches s) = true ->
  exists added,
    calls (step T (Toggle pitch) s) = calls s ++ added
    /\ chains_created_for o added = 0%nat.
Proof.
  intros Hact. destruct (toggle_off_effect pitch s Hact) as (n & act & reg & -> & _).
  eexists. split; [reflexivity |].
  destruct (JsMap.get pitch (pitchPlayers s)) as [c |]; [| now destruct n].
  destruct n as [| [| [| n]]]; reflexivity.
Qed.

(** C1 (as the code has it). Toggling [o] on is eager: with a recording
    and no pair stored under [o], the toggle itself builds the pair for [o]
    and asks it to load, so switching [o] on and off again before any play
    has created one chain for [o]. Only without a recording does the toggle
    create nothing, and the creation waits for a later play. *)
Theorem toggle_on_creates_eagerly (s : State) (o : Z) :
  JsSet.has o (activePitches s) = false ->
  let s1 := step T (Toggle o) s in
  let s2 := step T (Toggle o) s1 in
  (audioBlob s = None ->
     calls_since s s1 = []
     /\ pitchPlayers s1 = pitchPlayers s
     /\ chains_created_for o (calls_since s s2) = 0%nat)
  /\ (forall b, audioBlob s = Some b -> JsMap.has o (pitchPlayers s) = false ->
        calls_since s s1 = setup_calls (next_handle s) o (Some b)
        /\ JsMap.get o (pitchPlayers s1) = Some (new_chain (next_handle s) o)
        /\ chains_created_for o (calls_since s s1) = 1%nat
        /\ In (PlayerLoad (next_handle s) b) (calls_since s s1)
        /\ chains_created_for o (calls_since s s2) = 1%nat).
Proof.
  intros Hact s1 s2. split.
  - intros Hb.
    assert (Hs1 : s1 = set_activePitches (JsSet.add o (activePitches s)) s).
    { unfold s1, step. rewrite toggle_on_run by assumption. now rewrite Hb. }
    assert (Hon : JsSet.has o (activePitches s1) = true).
    { rewrite Hs1. unfold set_activePitches. cbn [activePitches].
      rewrite set_has_add, Z.eqb_refl. reflexivity. }
    unfold s2. clearbody s1. clear s2.
    split; [| split].
    + apply calls_since_app. rewrite Hs1. cbn. now rewrite app_nil_r.
    + now rewrite Hs1.
    + destruct (toggle_off_creates_nothing o o s1 Hon) as (added & Hadded & Hnone).
      erewrite calls_since_app.
      2:{ rewrite Hadded, Hs1. reflexivity. }
      exact Hnone.
  - intros b Hb Hreg.
    assert (Hcalls : calls s1 = calls s ++ setup_calls (next_handle s) o (Some b)
                     /\ pitchPlayers s1
                        = JsMap.set o (new_chain (next_handle s) o) (pitchPlayers s)).
    { unfold s1, step. rewrite toggle_on_run by assumption. rewrite Hb, Hreg.
      destruct (decodes T b); cbn; rewrite Hb; split; reflexivity. }
    destruct Hcalls as [Hcalls Hregs].
    assert (Hget : JsMap.get o (pitchPlayers s1) = Some (new_chain (next_handle s) o)).
    { rewrite Hregs, map_set_fresh by assumption.
      clear - Hreg. induction (pitchPlayers s) as [| [k c] m IH]; cbn in *.
      - now rewrite Z.eqb_refl.
      - destruct (o =? k); [discriminate | now apply IH]. }
    assert (Hb1 : audioBlob s1 = Some b).
    { unfold s1, step. rewrite toggle_on_run by assumption. rewrite Hb, Hreg.
      now destruct (decodes T b). }
    unfold s2. clearbody s1. clear s2.
    rewrite (calls_since_app s s1 _ Hcalls).
    split; [reflexivity |]. split; [exact Hget |].
    split; [cbn; now rewrite Z.eqb_refl |].
    split; [cbn; tauto |].
    destruct (JsSet.has o (activePitches s1)) eqn:Hon.
    + destruct (toggle_off_creates_nothing o o s1 Hon) as (added & Hadded & Hnone).
      erewrite calls_since_app.
      2:{ rewrite Hadded, Hcalls, <- app_assoc. reflexivity. }
      unfold chains_created_for in *. rewrite filter_app, length_app, Hnone.
      cbn. now rewrite Z.eqb_refl.
    + unfold step. rewrite toggle_on_run by assumption.
      assert (Hreg1 : JsMap.has o (pitchPlayers s1) = true).
      { rewrite map_has_get. now rewrite Hget. }
      rewrite Hb1, Hreg1. cbn [snd].
      erewrite calls_since_app.
      2:{ unfold set_activePitches. cbn [calls]. rewrite Hcalls. reflexivity. }
      cbn. now rewrite Z.eqb_refl.
Qed.

(** C2 (as the code has it). [play()] without a recording raises nothing:
    the handler returns at once and leaves the whole state, the registry
    included, as it was. *)
Theorem play_without_recording_returns (s : State) :
  audioBlob s = None ->
  handle T Play s = (Returned tt, s)
  /\ pitchPlayers (step T Play s) = pitchPlayers s
  /\ calls_since s (step T Play s) = [].
Proof.
  intros Hb. unfold step. rewrite play_without_recording by assumption. cbn.
  repeat split. apply calls_since_app. now rewrite app_nil_r.
Qed.

(** C6 (as the code has it). Two toggles of the same offset in a row, each
    run to its end before the next one begins, that both return restore the
    membership of the selection. (A toggle is rejected when it has to load a
    recording that cannot be decoded, or when a disposal throws, and then
    leaves the selection as it was. A second click that arrives while the
    load of the first is still awaited reads the old selection, and leaves
    the offset selected.) *)
Theorem toggle_twice_restores_when_returned (s : State) (o : Z) :
  fst (handle T (Toggle o) s) = Returned tt ->
  fst (handle T (Toggle o) (step T (Toggle o) s)) = Returned tt ->
  toggle_twice_restores T s o.
Proof.
  intros H1 H2 x.
  rewrite (toggle_returned_selection o _ H2), (toggle_returned_selection o _ H1).
  destruct (JsSet.has o (activePitches s)) eqn:Hact.
  - assert (Hd : JsSet.has o (JsSet.delete o (activePitches s)) = false)
      by (rewrite set_has_delete, Z.eqb_refl; reflexivity).
    rewrite Hd, set_has_add, set_has_delete.
    destruct (Z.eqb_spec x o) as [-> | Hne]; cbn [orb]; [now rewrite Hact |].
    destruct (Z.eqb_spec o x); [congruence | reflexivity].
  - assert (Ha : JsSet.has o (JsSet.add o (activePitches s)) = true)
      by (rewrite set_has_add, Z.eqb_refl; reflexivity).
    rewrite Ha, set_has_delete, set_has_add.
    destruct (Z.eqb_spec o x) as [<- | Hne]; cbn [negb andb]; [now rewrite Hact |].
    destruct (Z.eqb_spec x o); [congruence | reflexivity].
Qed.

End ToggleFacts.

(** ** Playing *)

Section PlayFacts.

Variable T : Tone.

Lemma prepared_from_refl (s : State) : prepared_from s s.
Proof.
  repeat split; try reflexivity; [| auto].
  exists []. now rewrite app_nil_r.
Qed.

Lemma ensure_prepares (r : Render) (s0 s : State) (pitch : Z) :
  prepared_from s0 s -> prepared_from s0 (snd (ensure T r pitch s)).
Proof.
  intros (Hb & Ha & Hc & (added & Hcalls & Hnow & Hstart) & Hin).
  rewrite ensure_run. destruct (JsMap.has pitch (pitchPlayers s)) eqn:Hhas.
  - cbn. repeat split; try assumption. now exists added.
  - rewrite setupPitchPlayer_run. cbn [snd after_setup].
    unfold after_setup, prepared_from. cbn [audioBlob activePitches clock calls pitchPlayers].
    repeat split; try assumption.
    + exists (added ++ setup_calls (next_handle s) pitch (seen_audioBlob r)).
      rewrite Hcalls, <- app_assoc, !filter_app, Hnow, Hstart.
      repeat split; destruct (seen_audioBlob r); reflexivity.
    + intros kc Hkc. rewrite map_set_fresh by assumption.
      apply in_or_app. left. now apply Hin.
Qed.

Lemma ensure_loop_prepares (r : Render) (l : list Z) (s : State) :
  prepared_from s (snd (for_each l (ensure T r) s)).
Proof.
  apply (for_each_invariant (ensure T r) (prepared_from s)).
  - intros x s1 _. apply ensure_prepares.
  - apply prepared_from_refl.
Qed.

Lemma ensure_registers (r : Render) (pitch : Z) (s : State) :
  JsMap.has pitch (pitchPlayers (snd (ensure T r pitch s))) = true.
Proof.
  rewrite ensure_run. destruct (JsMap.has pitch (pitchPlayers s)) eqn:Hhas; [exact Hhas |].
  rewrite setupPitchPlayer_run. unfold after_setup. cbn [snd pitchPlayers].
  now rewrite map_has_set, Z.eqb_refl.
Qed.

Lemma ensure_keeps_keys (r : Render) (k pitch : Z) (s : State) :
  JsMap.has k (pitchPlayers s) = true ->
  JsMap.has k (pitchPlayers (snd (ensure T r pitch s))) = true.
Proof.
  intros Hk. rewrite ensure_run. destruct (JsMap.has pitch (pitchPlayers s)); [exact Hk |].
  rewrite setupPitchPlayer_run. unfold after_setup. cbn [snd pitchPlayers].
  rewrite map_has_set, Hk. apply orb_true_r.
Qed.

(** The state in which the starts are issued and the state [play] leaves
    hold the same map and the same selection. *)
Lemma play_final_state (s : State) (b : Blob) :
  audioBlob s = Some b ->
  let s0 := log_call (CreateObjectURL b) (log_call ToneStart s) in
  let s1 := snd (for_each (activePitches s) (ensure T (render s)) s0) in
  pitchPlayers (step T Play s) = pitchPlayers s1
  /\ activePitches (step T Play s) = activePitches s
  /\ audioBlob (step T Play s) = audioBlob s.
Proof.
  intros Hb s0 s1. unfold step. rewrite (play_run T s b Hb). fold s0.
  pose proof (ensure_loop_prepares (render s) (activePitches s) s0) as (Hpb & Hpa & _).
  fold s1 in Hpb, Hpa. unfold s1 in *.
  destruct (for_each (activePitches s) (ensure T (render s)) s0) as [[[] | e] s2]; cbn [snd] in *.
  - destruct (start_registered_run T s2) as [n [Hs _]]. rewrite Hs. cbn.
    repeat split; assumption.
  - repeat split; assumption.
Qed.

(** C3. A [play()] that has a recording and returns reads the clock once
    and starts, with that one reading, the player of every pair the map
    holds at that moment: the pairs stored before the call as well as the
    ones the call built, one for each selected offset. *)
Theorem play_starts_every_chain_at_one_time (s : State) (b : Blob) :
  audioBlob s = Some b ->
  fst (handle T Play s) = Returned tt ->
  let s' := step T Play s in
  (exists prepared,
      calls_since s s'
      = prepared ++ ToneNow (clock s)
          :: map (fun kc => PlayerStart (player (snd kc)) (clock s)) (pitchPlayers s')
      /\ filter is_now prepared = []
      /\ filter is_start prepared = [])
  /\ (forall kc, In kc (pitchPlayers s) -> In kc (pitchPlayers s'))
  /\ (forall k, In k (activePitches s) -> JsMap.has k (pitchPlayers s') = true).
Proof.
  intros Hb Hret s'. unfold s', step. rewrite (play_run T s b Hb) in *.
  set (s0 := log_call (CreateObjectURL b) (log_call ToneStart s)) in *.
  pose proof (ensure_loop_prepares (render s) (activePitches s) s0)
    as (_ & _ & Hclock & (added & Hcalls & Hnow & Hstart) & Hin).
  pose proof (for_each_returned (ensure T (render s))
                (fun k s1 => JsMap.has k (pitchPlayers s1) = true) (activePitches s)
                (fun x s1 _ => ensure_registers (render s) x s1)
                (fun x y s1 => ensure_keeps_keys (render s) x y s1) s0) as Hall.
  destruct (for_each (activePitches s) (ensure T (render s)) s0) as [[[] | e] s1];
    cbn [fst snd] in *; [| discriminate].
  destruct (start_registered_run T s1) as [n [Hs Hfull]].
  rewrite Hs, (Hfull Hret). cbn [pitchPlayers]. split; [| split].
  - exists ([ToneStart; CreateObjectURL b] ++ added). split; [| split].
    + apply calls_since_app. cbn [calls]. rewrite Hcalls, Hclock. unfold s0. cbn.
      now rewrite <- !app_assoc.
    + cbn. exact Hnow.
    + cbn. exact Hstart.
  - intros kc Hkc. apply Hin. exact Hkc.
  - intros k Hk. now apply Hall.
Qed.

End PlayFacts.

(** ** The map and the selection *)

Section RegistryInvariants.

Variable T : Tone.

Lemma ensure_one_pair (r : Render) (pitch : Z) (s : State) :
  one_pair_per_offset s -> one_pair_per_offset (snd (ensure T r pitch s)).
Proof.
  intros [Hnd Hkey]. rewrite ensure_run.
  destruct (JsMap.has pitch (pitchPlayers s)) eqn:Hhas; [now split |].
  rewrite setupPitchPlayer_run. unfold after_setup, one_pair_per_offset, keyed_by_pitch.
  cbn [snd pitchPlayers]. rewrite map_set_fresh by assumption. split.
  - now apply NoDup_keys_snoc.
  - intros k c Hin. apply in_app_or in Hin. destruct Hin as [Hin | [[= <- <-] | []]].
    + now apply Hkey.
    + reflexivity.
Qed.

Lemma delete_one_pair (pitch : Z) (s s' : State) :
  pitchPlayers s' = pitchPlayers s \/ pitchPlayers s' = JsMap.delete pitch (pitchPlayers s) ->
  one_pair_per_offset s -> one_pair_per_offset s'.
Proof.
  intros [Hreg | Hreg] [Hnd Hkey]; unfold one_pair_per_offset, keyed_by_pitch; rewrite Hreg.
  - now split.
  - split; [now apply NoDup_keys_delete |].
    intros k c Hin. apply Hkey. now apply map_In_delete in Hin.
Qed.


Lemma one_pair_same_registry (s s' : State) :
  pitchPlayers s' = pitchPlayers s -> one_pair_per_offset s -> one_pair_per_offset s'.
Proof. unfold one_pair_per_offset, keyed_by_pitch. intros ->. auto. Qed.

Lemma ensure_loop_one_pair (r : Render) (l : list Z) (s : State) :
  one_pair_per_offset s -> one_pair_per_offset (snd (for_each l (ensure T r) s)).
Proof.
  apply (for_each_invariant (ensure T r) one_pair_per_offset).
  intros x s1 _. apply ensure_one_pair.
Qed.

Lemma step_one_pair (op : Op) (s : State) :
  one_pair_per_offset s -> one_pair_per_offset (step T op s).
Proof.
  intros Hs. destruct op as [b | pitch | | t]; unfold step.
  - exact Hs.
  - destruct (JsSet.has pitch (activePitches s)) eqn:Hact.
    + fold (step T (Toggle pitch) s).
      destruct (toggle_off_effect T pitch s Hact) as (n & act & reg & -> & Hreg & _).
      now apply (delete_one_pair pitch s).
    + pose proof (ensure_one_pair (render s) pitch s Hs) as He.
      rewrite ensure_run, setupPitchPlayer_run in He.
      rewrite toggle_on_run by assumption.
      destruct (audioBlob s) as [b |]; [| exact Hs].
      destruct (JsMap.has pitch (pitchPlayers s)); [exact Hs |].
      destruct (decodes T b); exact He.
  - destruct (audioBlob s) as [b |] eqn:Hb.
    + destruct (play_final_state T s b Hb) as (Hreg & _ & _).
      apply (one_pair_same_registry _ _ Hreg).
      apply ensure_loop_one_pair. exact Hs.
    + now rewrite play_without_recording.
  - exact Hs.
Qed.

Lemma run_one_pair (ops : list Op) (s : State) :
  one_pair_per_offset s -> one_pair_per_offset (run T ops s).
Proof.
  revert s. induction ops as [| op ops IH]; intros s Hs; [exact Hs |].
  cbn. apply IH. now apply step_one_pair.
Qed.

(** The loop of [play] only adds pairs for selected offsets. *)
Lemma ensure_loop_keys_selected (r : Render) (l : list Z) (s : State) :
  (forall x, In x l -> In x (activePitches s)) ->
  keys_selected s ->
  keys_selected (snd (for_each l (ensure T r) s)).
Proof.
  intros Hl Hs.
  apply (for_each_invariant (ensure T r)
           (fun s2 => activePitches s2 = activePitches s /\ keys_selected s2) l);
    [| now split].
  intros x s2 Hx [Ha Hk]. rewrite ensure_run.
  destruct (JsMap.has x (pitchPlayers s2)) eqn:Hhas; [now split |].
  rewrite setupPitchPlayer_run. unfold after_setup, keys_selected.
  cbn [snd pitchPlayers activePitches]. split; [exact Ha |].
  intros k. rewrite map_has_set. destruct (Z.eqb_spec k x) as [-> | _]; cbn [orb].
  - intros _. rewrite Ha. apply set_has_In. now apply Hl.
  - apply Hk.
Qed.

Lemma step_keys_selected (op : Op) (s : State) :
  match op with Toggle _ => fst (handle T op s) = Returned tt | _ => True end ->
  keys_selected s -> keys_selected (step T op s).
Proof.
  intros Hret Hs. destruct op as [b | pitch | | t].
  - exact Hs.
  - unfold keys_selected. rewrite (toggle_returned_selection T pitch s Hret).
    destruct (JsSet.has pitch (activePitches s)) eqn:Hact.
    + rewrite (toggle_off_returned T pitch s Hact Hret).
      assert (Hreg : pitchPlayers match JsMap.get pitch (pitchPlayers s) with
                                  | Some c => after_release pitch c s
                                  | None => s
                                  end = JsMap.delete pitch (pitchPlayers s)).
      { destruct (JsMap.get pitch (pitchPlayers s)) eqn:Hget; [reflexivity |].
        symmetry. apply map_delete_absent. rewrite map_has_get. now rewrite Hget. }
      unfold set_activePitches. cbn [pitchPlayers]. rewrite Hreg.
      intros k. rewrite map_has_delete, set_has_delete.
      destruct (negb (pitch =? k)); cbn [andb]; [apply Hs | discriminate].
    + unfold step. rewrite toggle_on_run in * by assumption.
      assert (Hadd : forall k, JsMap.has k (pitchPlayers s) = true ->
                               JsSet.has k (JsSet.add pitch (activePitches s)) = true).
      { intros k Hk. rewrite set_has_add, (Hs k Hk). apply orb_true_r. }
      destruct (audioBlob s) as [b |]; [| exact Hadd].
      destruct (JsMap.has pitch (pitchPlayers s)); [exact Hadd |].
      destruct (decodes T b); [| discriminate].
      unfold set_activePitches, after_setup. cbn [snd pitchPlayers].
      intros k. rewrite map_has_set, set_has_add.
      destruct (k =? pitch); cbn [orb]; [reflexivity | apply Hs].
  - destruct (audioBlob s) as [b |] eqn:Hb.
    + destruct (play_final_state T s b Hb) as (Hreg & Hact & _).
      unfold keys_selected. rewrite Hreg, Hact.
      pose proof (ensure_loop_keys_selected (render s) (activePitches s)
                    (log_call (CreateObjectURL b) (log_call ToneStart s))
                    (fun x Hx => Hx) Hs) as Hloop.
      pose proof (ensure_loop_prepares T (render s) (activePitches s)
                    (log_call (CreateObjectURL b) (log_call ToneStart s))) as (_ & Ha & _).
      unfold keys_selected in Hloop. rewrite Ha in Hloop. exact Hloop.
    + unfold step. now rewrite play_without_recording.
  - exact Hs.
Qed.

Lemma run_keys_selected (ops : list Op) (s : State) :
  no_toggle_rejected T ops s -> keys_selected s -> keys_selected (run T ops s).
Proof.
  revert s. induction ops as [| op ops IH]; intros s Hok Hs; [exact Hs |].
  destruct Hok as [Hop Hrest]. cbn. apply IH; [exact Hrest |].
  now apply step_keys_selected.
Qed.

(** Recordings that can be decoded and disposals that return never
    reject a toggle. *)
Lemma decodable_run_not_rejected (ops : list Op) (s : State) :
  (forall log h, dispose_ok T log h = true) ->
  (forall b, audioBlob s = Some b -> decodes T b = true) ->
  (forall b, In (Recorded b) ops -> decodes T b = true) ->
  no_toggle_rejected T ops s.
Proof.
  intros Hdis. revert s. induction ops as [| op ops IH]; intros s Hs Hops; [exact I |].
  split.
  - destruct op as [b | pitch | | t]; try exact I.
    destruct (JsSet.has pitch (activePitches s)) eqn:Hact.
    + rewrite toggle_off_outcome, release_run by assumption.
      destruct (JsMap.get pitch (pitchPlayers s)) as [c |]; [| reflexivity].
      unfold dispose_returns. rewrite !Hdis, !orb_true_r. reflexivity.
    + now apply toggle_on_returns_if_decodable.
  - apply IH; [| intros b Hb; apply Hops; now right].
    intros b. destruct op as [b' | pitch | | t]; unfold step.
    + cbn. intros [= <-]. apply Hops. now left.
    + fold (step T (Toggle pitch) s). rewrite toggle_keeps_recording. apply Hs.
    + destruct (audioBlob s) as [b0 |] eqn:Hb0.
      * destruct (play_final_state T s b0 Hb0) as (_ & _ & Hblob).
        fold (step T Play s). rewrite Hblob, Hb0. apply Hs.
      * rewrite play_without_recording by assumption. cbn. rewrite Hb0. discriminate.
    + cbn. apply Hs.
Qed.

Lemma initial_one_pair : one_pair_per_offset initial_state.
Proof. split; [constructor | intros k c []]. Qed.

Lemma initial_keys_selected : keys_selected initial_state.
Proof. intros k H. discriminate. Qed.

(** C10 (as the code has it). After every sequence of operations from the
    initial state, each handler run to its end before the next one begins,
    the map holds at most one pair per offset and every pair was built with
    the offset it is stored under; the keys of the map are selected offsets
    as long as no toggle of the sequence was rejected (a toggle-on rejected
    by a failed load leaves its pair in the map and its offset out of the
    selection). A click that overtakes a pending load can also leave a key
    that is not selected. *)
Theorem registry_within_selection_unless_rejected (ops : list Op) :
  NoDup (JsMap.keys (pitchPlayers (run T ops initial_state)))
  /\ keyed_by_pitch (run T ops initial_state)
  /\ (no_toggle_rejected T ops initial_state -> registry_within_selection T ops).
Proof.
  destruct (run_one_pair ops initial_state initial_one_pair) as [Hnd Hkey].
  split; [exact Hnd |]. split; [exact Hkey |].
  intros Hok. split; [| now split].
  apply run_keys_selected; [exact Hok | exact initial_keys_selected].
Qed.


End RegistryInvariants.

(** ** Ensure and release *)

Lemma handles_of_snoc (reg : list (Z * Chain)) (k : Z) (c : Chain) :
  handles_of (reg ++ [(k, c)]) = handles_of reg ++ [player c; shift_id (pitchShift c)].
Proof. unfold handles_of. rewrite flat_map_app. cbn. reflexivity. Qed.

Lemma handles_of_delete_incl (k : Z) (reg : list (Z * Chain)) (h : Handle) :
  In h (handles_of (JsMap.delete k reg)) -> In h (handles_of reg).
Proof.
  unfold handles_of, JsMap.delete. rewrite !in_flat_map.
  intros [kc [Hin Hh]]. exists kc. split; [| exact Hh]. now apply filter_In in Hin.
Qed.

Lemma handles_of_delete_NoDup (k : Z) (reg : list (Z * Chain)) :
  NoDup (handles_of reg) -> NoDup (handles_of (JsMap.delete k reg)).
Proof.
  induction reg as [| [k0 c0] reg IH]; cbn; [auto |].
  intros Hnd. inversion Hnd as [| ? ? Hp Hnd']; subst.
  inversion Hnd' as [| ? ? Hq Hnd'']; subst.
  destruct (k =? k0); cbn; [now apply IH |].
  constructor; [| constructor].
  - intros [Heq | Hin]; [apply Hp; now left |].
    apply Hp. right. now apply (handles_of_delete_incl k).
  - intros Hin. apply Hq. now apply (handles_of_delete_incl k).
  - now apply IH.
Qed.

Lemma handles_of_get (k : Z) (c : Chain) (reg : list (Z * Chain)) :
  JsMap.get k reg = Some c ->
  In (player c) (handles_of reg) /\ In (shift_id (pitchShift c)) (handles_of reg).
Proof.
  intros Hget. apply map_get_In in Hget. unfold handles_of. rewrite !in_flat_map.
  split; exists (k, c); cbn; tauto.
Qed.

(** The objects of the pair stored under [k] belong to no other pair. *)
Lemma handles_of_delete_apart (k : Z) (c : Chain) (reg : list (Z * Chain)) (h : Handle) :
  NoDup (handles_of reg) ->
  JsMap.get k reg = Some c ->
  In h (handles_of (JsMap.delete k reg)) ->
  h <> player c /\ h <> shift_id (pitchShift c).
Proof.
  induction reg as [| [k0 c0] reg IH]; cbn; [discriminate |].
  intros Hnd. inversion Hnd as [| ? ? Hp Hnd']; subst.
  inversion Hnd' as [| ? ? Hq Hnd'']; subst.
  destruct (Z.eqb_spec k k0) as [-> | Hne]; cbn.
  - intros [= <-] Hin. apply handles_of_delete_incl in Hin.
    split; intros ->; [apply Hp; now right | now apply Hq].
  - intros Hget Hin. destruct (handles_of_get _ _ _ Hget) as [Hpc Hqc].
    destruct Hin as [<- | [<- | Hin]].
    + split; intros Heq; apply Hp; right; [now rewrite Heq | now rewrite Heq].
    + split; intros Heq; apply Hq; [now rewrite Heq | now rewrite Heq].
    + now apply IH.
Qed.

Lemma pair_objects_differ (k : Z) (c : Chain) (reg : list (Z * Chain)) :
  NoDup (handles_of reg) -> JsMap.get k reg = Some c -> player c <> shift_id (pitchShift c).
Proof.
  induction reg as [| [k0 c0] reg IH]; cbn; [discriminate |].
  intros Hnd. inversion Hnd as [| ? ? Hp Hnd']; subst.
  inversion Hnd' as [| ? ? Hq Hnd'']; subst.
  destruct (k =? k0).
  - intros [= <-] Heq. apply Hp. left. now symmetry.
  - now apply IH.
Qed.

Lemma disposals_app (h : Handle) (l1 l2 : list Call) :
  disposals h (l1 ++ l2) = (disposals h l1 + disposals h l2)%nat.
Proof. unfold disposals. now rewrite filter_app, length_app. Qed.

Lemma disposals_setup (h n : Handle) (pitch : Z) (blob : option Blob) :
  disposals h (setup_calls n pitch blob) = 0%nat.
Proof. destruct blob; reflexivity. Qed.

Lemma disposals_pair (h p q : Handle) :
  disposals h [DisposePlayer p; DisposeShift q]
  = ((if Nat.eqb p h then 1 else 0) + (if Nat.eqb q h then 1 else 0))%nat.
Proof. unfold disposals. cbn. destruct (Nat.eqb p h), (Nat.eqb q h); reflexivity. Qed.

Section RegistryFacts.

Variable T : Tone.

Lemma ensure_live (r : Render) (pitch : Z) (s : State) :
  live_and_distinct s -> live_and_distinct (snd (ensure T r pitch s)).
Proof.
  intros (Hnd & Hlt & Hlive & Honce & Hfresh). rewrite ensure_run.
  destruct (JsMap.has pitch (pitchPlayers s)) eqn:Hhas; [now repeat split |].
  rewrite setupPitchPlayer_run. unfold after_setup, live_and_distinct.
  cbn [snd pitchPlayers next_handle calls].
  rewrite map_set_fresh by assumption. rewrite handles_of_snoc.
  cbn [new_chain player pitchShift shift_id].
  assert (Hd : forall h, disposals h (calls s ++ setup_calls (next_handle s) pitch
                                                   (seen_audioBlob r))
                         = disposals h (calls s)).
  { intros h. rewrite disposals_app, disposals_setup. lia. }
  split; [| split; [| split; [| split]]].
  - apply NoDup_app; [exact Hnd | |].
    + repeat constructor; cbn; [intros [Heq | []]; lia | intros []].
    + intros h Hin [<- | [<- | []]]; apply Hlt in Hin; lia.
  - intros h Hin. apply in_app_or in Hin. destruct Hin as [Hin | [<- | [<- | []]]];
      [apply Hlt in Hin |..]; lia.
  - intros h Hin. rewrite Hd. apply in_app_or in Hin.
    destruct Hin as [Hin | [<- | [<- | []]]]; [now apply Hlive | |]; apply Hfresh; lia.
  - intros h. rewrite Hd. apply Honce.
  - intros h Hle. rewrite Hd. apply Hfresh. lia.
Qed.





Lemma release_live (pitch : Z) (s : State) :
  fst (release T pitch s) = Returned tt ->
  live_and_distinct s -> live_and_distinct (snd (release T pitch s)).
Proof.
  intros Hret (Hnd & Hlt & Hlive & Honce & Hfresh). rewrite (release_returned T pitch s Hret).
  destruct (JsMap.get pitch (pitchPlayers s)) as [c |] eqn:Hget; [| now repeat split].
  destruct (handles_of_get _ _ _ Hget) as [Hp Hq].
  pose proof (pair_objects_differ _ _ _ Hnd Hget) as Hpq.
  unfold after_release, live_and_distinct. cbn [pitchPlayers next_handle calls].
  assert (Hd : forall h, disposals h (calls s ++ [DisposePlayer (player c);
                                                  DisposeShift (shift_id (pitchShift c))])
                         = (disposals h (calls s)
                            + ((if Nat.eqb (player c) h then 1 else 0)
                               + (if Nat.eqb (shift_id (pitchShift c)) h then 1 else 0)))%nat).
  { intros h. now rewrite disposals_app, disposals_pair. }
  split; [| split; [| split; [| split]]].
  - now apply handles_of_delete_NoDup.
  - intros h Hin. apply Hlt. now apply handles_of_delete_incl in Hin.
  - intros h Hin. rewrite Hd.
    destruct (handles_of_delete_apart _ _ _ _ Hnd Hget Hin) as [Hhp Hhq].
    apply handles_of_delete_incl in Hin. rewrite (Hlive h Hin).
    destruct (Nat.eqb_spec (player c) h); [congruence |].
    destruct (Nat.eqb_spec (shift_id (pitchShift c)) h); [congruence | reflexivity].
  - intros h. rewrite Hd.
    destruct (Nat.eqb_spec (player c) h) as [Hph | _];
      destruct (Nat.eqb_spec (shift_id (pitchShift c)) h) as [Hqh | _].
    + congruence.
    + subst h. rewrite (Hlive _ Hp). lia.
    + subst h. rewrite (Hlive _ Hq). lia.
    + specialize (Honce h). lia.
  - intros h Hle. rewrite Hd. rewrite (Hfresh h Hle).
    apply Hlt in Hp. apply Hlt in Hq.
    destruct (Nat.eqb_spec (player c) h); [lia |].
    destruct (Nat.eqb_spec (shift_id (pitchShift c)) h); [lia | reflexivity].
Qed.





End RegistryFacts.

(** ** Handlers that overlap *)

Lemma sound_step_refl (s : State) : sound_step s s.
Proof.
  intros Hs. split; [exact Hs |]. split; [lia |]. split; [auto |].
  exists []. split; [now rewrite app_nil_r | intros c h []].
Qed.

Lemma sound_step_trans (s s1 s2 : State) :
  sound_step s s1 -> sound_step s1 s2 -> sound_step s s2.
Proof.
  intros H1 H2 Hs.
  destruct (H1 Hs) as [Hs1 (Hn1 & Hh1 & added1 & Hc1 & Ht1)].
  destruct (H2 Hs1) as [Hs2 (Hn2 & Hh2 & added2 & Hc2 & Ht2)].
  split; [exact Hs2 |]. split; [lia |]. split.
  - intros h Hin. destruct (Hh2 h Hin) as [Hin1 | Hle]; [| right; lia].
    apply Hh1. exact Hin1.
  - exists (added1 ++ added2). split; [now rewrite Hc2, Hc1, app_assoc |].
    intros c h Hin Htouch. apply in_app_or in Hin. destruct Hin as [Hin | Hin].
    + now apply (Ht1 c).
    + destruct (Ht2 c h Hin Htouch) as [Hin1 | Hle]; [| right; lia].
      apply Hh1. exact Hin1.
Qed.

(** A step that leaves the map alone and only calls objects of the map. *)
Lemma sound_step_calls (s s' : State) (added : list Call) :
  pitchPlayers s' = pitchPlayers s ->
  next_handle s' = next_handle s ->
  calls s' = calls s ++ added ->
  (forall c h, In c added -> touches h c = true -> In h (handles_of (pitchPlayers s))) ->
  sound_step s s'.
Proof.
  intros Hreg Hnext Hcalls Htouch [Hnd Hlt]. split; [| split; [| split]].
  - unfold registry_fresh. rewrite Hreg, Hnext. now split.
  - lia.
  - rewrite Hreg. auto.
  - exists added. split; [exact Hcalls |]. intros c h Hc Ht. left. now apply (Htouch c).
Qed.

Lemma sound_step_silent (s s' : State) :
  pitchPlayers s' = pitchPlayers s ->
  next_handle s' = next_handle s ->
  calls s' = calls s ->
  sound_step s s'.
Proof.
  intros Hreg Hnext Hcalls. apply (sound_step_calls s s' []); try assumption.
  - now rewrite app_nil_r.
  - intros c h [].
Qed.

Lemma setup_sound (r : Render) (pitch : Z) (s : State) :
  JsMap.has pitch (pitchPlayers s) = false ->
  sound_step s (after_setup r pitch s).
Proof.
  intros Hhas [Hnd Hlt]. unfold after_setup, registry_fresh, confined.
  cbn [pitchPlayers next_handle calls].
  rewrite map_set_fresh by assumption. rewrite handles_of_snoc.
  cbn [new_chain player pitchShift shift_id].
  split; [split |].
  - apply NoDup_app; [exact Hnd | |].
    + repeat constructor; cbn; [intros [Heq | []]; lia | intros []].
    + intros h Hin [<- | [<- | []]]; apply Hlt in Hin; lia.
  - intros h Hin. apply in_app_or in Hin. destruct Hin as [Hin | [<- | [<- | []]]];
      [apply Hlt in Hin |..]; lia.
  - split; [lia |]. split.
    + intros h Hin. apply in_app_or in Hin.
      destruct Hin as [Hin | [<- | [<- | []]]]; [now left | right; lia | right; lia].
    + exists (setup_calls (next_handle s) pitch (seen_audioBlob r)). split; [reflexivity |].
      intros c h Hc Ht. right. unfold setup_calls in Hc. apply in_app_or in Hc.
      destruct Hc as [Hc | Hc].
      * cbn in Hc. destruct Hc as [<- | [<- | [<- | [<- | []]]]];
          cbn [touches shift_id pitchShift new_chain] in Ht;
          repeat match goal with
                 | H : (_ || _) = true |- _ => apply orb_true_iff in H; destruct H
                 | H : Nat.eqb _ _ = true |- _ => apply Nat.eqb_eq in H
                 end; lia.
      * destruct (seen_audioBlob r); cbn in Hc; [| contradiction].
        destruct Hc as [<- | [<- | []]]; cbn [touches] in Ht; [discriminate |].
        apply Nat.eqb_eq in Ht. lia.
Qed.

Lemma In_firstn {A : Type} (n : nat) (l : list A) (x : A) : In x (firstn n l) -> In x l.
Proof.
  intros Hin. rewrite <- (firstn_skipn n l). apply in_or_app. now left.
Qed.

(** A step that may delete the entry of [pitch], builds nothing, and only
    calls objects of the map. *)
Lemma sound_step_delete (pitch : Z) (s s' : State) (added : list Call) :
  pitchPlayers s' = pitchPlayers s \/ pitchPlayers s' = JsMap.delete pitch (pitchPlayers s) ->
  next_handle s' = next_handle s ->
  calls s' = calls s ++ added ->
  (forall c h, In c added -> touches h c = true -> In h (handles_of (pitchPlayers s))) ->
  sound_step s s'.
Proof.
  intros [Hreg | Hreg] Hnext Hcalls Htouch; [now apply (sound_step_calls s s' added) |].
  intros [Hnd Hlt]. unfold registry_fresh, confined. rewrite Hreg, Hnext.
  split; [split |].
  - now apply handles_of_delete_NoDup.
  - intros h Hin. apply Hlt. now apply handles_of_delete_incl in Hin.
  - split; [lia |]. split.
    + intros h Hin. left. now apply handles_of_delete_incl in Hin.
    + exists added. split; [exact Hcalls |]. intros c h Hc Ht. left. now apply (Htouch c).
Qed.

(** The disposals of the entry of [pitch] are calls on objects of the map. *)
Lemma entry_disposals_in_map (pitch : Z) (reg : list (Z * Chain)) (n : nat) (c : Call)
      (h : Handle) :
  In c (firstn n match JsMap.get pitch reg with
                 | Some c => [DisposePlayer (player c); DisposeShift (shift_id (pitchShift c))]
                 | None => []
                 end) ->
  touches h c = true -> In h (handles_of reg).
Proof.
  intros Hc Ht. apply In_firstn in Hc.
  destruct (JsMap.get pitch reg) as [c0 |] eqn:Hget; [| contradiction].
  destruct (handles_of_get _ _ _ Hget) as [Hp Hq].
  destruct Hc as [<- | [<- | []]]; cbn in Ht; apply Nat.eqb_eq in Ht; now subst h.
Qed.

Section OverlapFacts.

Variable T : Tone.

Lemma release_sound (pitch : Z) (s : State) : sound_step s (snd (release T pitch s)).
Proof.
  destruct (release_effect T pitch s) as (n & reg & -> & Hreg).
  eapply (sound_step_delete pitch);
    [exact Hreg | reflexivity | cbn [calls]; reflexivity |].
  intros c h. apply entry_disposals_in_map.
Qed.

Lemma cleanup_sound (s : State) : sound_step s (snd (cleanup T s)).
Proof.
  destruct (cleanup_run T s) as (n & -> & _). eapply sound_step_calls; try reflexivity.
  cbn [pitchPlayers]. intros c h Hc Ht. apply In_firstn in Hc.
  unfold disposal_calls in Hc. apply in_flat_map in Hc.
  destruct Hc as [kc [Hkc Hc]]. unfold handles_of. apply in_flat_map. exists kc.
  split; [exact Hkc |].
  destruct Hc as [<- | [<- | []]]; cbn in Ht; apply Nat.eqb_eq in Ht; subst h; cbn; tauto.
Qed.

Lemma start_registered_sound (s : State) : sound_step s (snd (start_registered T s)).
Proof.
  destruct (start_registered_run T s) as [n [Hs _]]. rewrite Hs.
  eapply sound_step_calls; try reflexivity.
  cbn [pitchPlayers]. intros c h [<- | Hc] Ht; [discriminate |].
  apply in_map_iff in Hc. destruct Hc as [kc [<- Hkc]]. cbn in Ht.
  apply Nat.eqb_eq in Ht. subst h.
  assert (Hin : In kc (pitchPlayers s)).
  { rewrite <- (firstn_skipn n (pitchPlayers s)). apply in_or_app. now left. }
  unfold handles_of. apply in_flat_map. exists kc. cbn. tauto.
Qed.

Lemma play_loop_sound (r : Render) (rest : list Z) (s : State) :
  sound_step s (snd (play_loop r rest s)).
Proof.
  revert s. induction rest as [| pitch rest IH]; intros s; [apply sound_step_refl |].
  cbn [play_loop]. destruct (JsMap.has pitch (pitchPlayers s)) eqn:Hhas; [apply IH |].
  rewrite setup_to_await_run.
  destruct (seen_audioBlob r) as [b |]; cbn [option_map snd].
  - now apply setup_sound.
  - apply (sound_step_trans _ (after_setup r pitch s)); [now apply setup_sound | apply IH].
Qed.

Lemma toggle_begin_sound (pitch : Z) (w : World) :
  sound_step (comp w) (comp (togglePitch_begin T pitch w)).
Proof.
  unfold togglePitch_begin. cbn [render seen_activePitches seen_audioBlob].
  destruct (JsSet.has pitch (activePitches (comp w))) eqn:Hact.
  - cbn [continue comp]. fold (handle T (Toggle pitch) (comp w)).
    fold (step T (Toggle pitch) (comp w)).
    destruct (toggle_off_effect T pitch (comp w) Hact) as (n & act & reg & -> & Hreg & _).
    eapply (sound_step_delete pitch);
      [exact Hreg | reflexivity | cbn [calls]; reflexivity |].
    intros c h. apply entry_disposals_in_map.
  - destruct (audioBlob (comp w)) as [b |] eqn:Hb; [| now apply sound_step_silent].
    destruct (JsMap.has pitch (pitchPlayers (comp w))) eqn:Hhas;
      [now apply sound_step_silent |].
    rewrite setup_to_await_run. cbn [render seen_audioBlob]. rewrite Hb.
    cbn [option_map suspend comp]. now apply setup_sound.
Qed.

Lemma play_continue_sound (r : Render) (rest : list Z) (w : World) :
  sound_step (comp w) (comp (play_continue T r rest w)).
Proof.
  unfold play_continue. pose proof (play_loop_sound r rest (comp w)) as Hloop.
  destruct (play_loop r rest (comp w)) as [[[[p b] rest'] |] s']; cbn [snd] in Hloop.
  - exact Hloop.
  - cbn [continue comp]. eapply sound_step_trans; [exact Hloop |].
    apply start_registered_sound.
Qed.

Lemma resume_sound (k : Pending) (w : World) :
  sound_step (comp w) (comp (resume T k w)).
Proof.
  destruct k as [p b newActive | r | r p b rest]; cbn [resume].
  - destruct (decodes T b); [| apply sound_step_refl].
    destruct (mounted w); [now apply sound_step_silent | apply sound_step_refl].
  - destruct (seen_audioBlob r) as [b |]; [| apply sound_step_refl].
    eapply sound_step_trans; [| apply play_continue_sound].
    cbn [continue comp]. apply (sound_step_calls _ _ [CreateObjectURL b]); try reflexivity.
    intros c h [<- | []] Ht. discriminate.
  - destruct (decodes T b); [apply play_continue_sound | apply sound_step_refl].
Qed.

Lemma react_sound (e : Event) (w : World) :
  sound_step (comp w) (comp (react T e w)).
Proof.
  destruct e as [b | pitch | | t | | i]; cbn [react].
  - destruct (mounted w); [now apply sound_step_silent | apply sound_step_refl].
  - destruct (mounted w); [apply toggle_begin_sound | apply sound_step_refl].
  - destruct (mounted w); [| apply sound_step_refl].
    destruct (audioBlob (comp w)); [| apply sound_step_refl].
    cbn [suspend comp]. apply (sound_step_calls _ _ [ToneStart]); try reflexivity.
    intros c h [<- | []] Ht. discriminate.
  - now apply sound_step_silent.
  - destruct (mounted w); [| apply sound_step_refl]. cbn [comp]. apply cleanup_sound.
  - destruct (nth_error (pending w) i) as [k |]; [| apply sound_step_refl].
    apply (resume_sound k {| comp := comp w; mounted := mounted w;
                             pending := remove_nth i (pending w) |}).
Qed.

Lemma react_all_sound (es : list Event) (w : World) :
  sound_step (comp w) (comp (react_all T es w)).
Proof.
  revert w. induction es as [| e es IH]; intros w; [apply sound_step_refl |].
  cbn. eapply sound_step_trans; [apply react_sound | apply IH].
Qed.

Lemma initial_registry_fresh : registry_fresh (comp initial_world).
Proof. split; [constructor | intros h []]. Qed.

(** An object that was built and that the map does not hold is out of
    reach of everything that follows. *)
Lemma unreachable_object_untouched (es : list Event) (w : World) (h : Handle) :
  registry_fresh (comp w) ->
  (h < next_handle (comp w))%nat ->
  ~ In h (handles_of (pitchPlayers (comp w))) ->
  (forall c, In c (calls_since (comp w) (comp (react_all T es w))) -> touches h c = false)
  /\ ~ In h (handles_of (pitchPlayers (comp (react_all T es w)))).
Proof.
  intros Hfresh Hlt Hout.
  destruct (react_all_sound es w Hfresh) as [_ (_ & Hh & added & Hcalls & Htouch)].
  split.
  - intros c Hc. rewrite (calls_since_app _ _ _ Hcalls) in Hc.
    destruct (touches h c) eqn:Ht; [| reflexivity].
    destruct (Htouch c h Hc Ht) as [Hin | Hle]; [contradiction | lia].
  - intros Hin. destruct (Hh h Hin) as [Hin0 | Hle]; [contradiction | lia].
Qed.

(** What a click on a grid button disposes of was stored under the pitch
    of the button. When both disposals returned it is no longer in the map;
    when one of them threw it still is. *)
Lemma toggle_disposal (pitch : Z) (w : World) (h : Handle) :
  registry_fresh (comp w) ->
  existsb (disposes h) (calls_since (comp w) (comp (react T (Click_toggle pitch) w))) = true ->
  (h < next_handle (comp (react T (Click_toggle pitch) w)))%nat
  /\ (fst (release T pitch (comp w)) = Returned tt ->
      ~ In h (handles_of (pitchPlayers (comp (react T (Click_toggle pitch) w)))))
  /\ (forall e, fst (release T pitch (comp w)) = Threw e ->
                In h (handles_of (pitchPlayers (comp (react T (Click_toggle pitch) w))))).
Proof.
  intros [Hnd Hlt]. cbn [react].
  destruct (mounted w).
  2:{ rewrite (calls_since_app _ _ []) by (now rewrite app_nil_r). discriminate. }
  unfold togglePitch_begin. cbn [render seen_activePitches seen_audioBlob].
  destruct (JsSet.has pitch (activePitches (comp w))) eqn:Hact.
  - cbn [continue comp]. fold (handle T (Toggle pitch) (comp w)).
    fold (step T (Toggle pitch) (comp w)).
    destruct (fst (release T pitch (comp w))) as [[] | e] eqn:Hout.
    + rewrite <- (toggle_off_outcome T pitch (comp w) Hact) in Hout.
      rewrite (toggle_off_returned T pitch (comp w) Hact Hout).
      destruct (JsMap.get pitch (pitchPlayers (comp w))) as [c |] eqn:Hget.
      2:{ rewrite (calls_since_app _ _ []) by (cbn; now rewrite app_nil_r). discriminate. }
      destruct (handles_of_get _ _ _ Hget) as [Hp Hq].
      erewrite calls_since_app by (unfold set_activePitches, after_release; cbn; reflexivity).
      unfold set_activePitches, after_release. cbn [pitchPlayers next_handle].
      cbn [existsb disposes]. rewrite orb_false_r. intros Hd. apply orb_true_iff in Hd.
      split; [| split].
      * destruct Hd as [Hd | Hd]; apply Nat.eqb_eq in Hd; subst h; now apply Hlt.
      * intros _ Hin. destruct (handles_of_delete_apart _ _ _ _ Hnd Hget Hin) as [Hhp Hhq].
        destruct Hd as [Hd | Hd]; apply Nat.eqb_eq in Hd; congruence.
      * discriminate.
    + rewrite <- (toggle_off_outcome T pitch (comp w) Hact) in Hout.
      destruct (toggle_off_rejected T pitch (comp w) e Hact Hout)
        as (c & n & Hget & -> & Hcase).
      destruct (handles_of_get _ _ _ Hget) as [Hp Hq].
      erewrite calls_since_app by (unfold disposal_threw; cbn; reflexivity).
      unfold disposal_threw. cbn [pitchPlayers next_handle]. intros Hd.
      assert (Hh : h = player c \/ h = shift_id (pitchShift c)).
      { apply existsb_exists in Hd. destruct Hd as [x [Hx Hd]]. apply In_firstn in Hx.
        destruct Hx as [<- | [<- | []]]; cbn in Hd; apply Nat.eqb_eq in Hd; auto. }
      split; [| split].
      * destruct Hh as [-> | ->]; now apply Hlt.
      * discriminate.
      * intros _ _. destruct Hh as [-> | ->]; assumption.
  - assert (Hnone : forall s', calls s' = calls (comp w) ->
                               existsb (disposes h) (calls_since (comp w) s') = true -> False).
    { intros s' Hc. rewrite (calls_since_app _ _ []) by (now rewrite app_nil_r).
      discriminate. }
    destruct (audioBlob (comp w)) as [b |] eqn:Hb;
      [| intros Hd; exfalso; now apply (Hnone _ eq_refl Hd)].
    destruct (JsMap.has pitch (pitchPlayers (comp w))) eqn:Hhas;
      [intros Hd; exfalso; now apply (Hnone _ eq_refl Hd) |].
    rewrite setup_to_await_run. cbn [render seen_audioBlob]. rewrite Hb.
    cbn [option_map suspend comp].
    erewrite calls_since_app by reflexivity.
    destruct (seen_audioBlob (render (comp w))); discriminate.
Qed.

(** C9 (as the code has it). When a click on a grid button disposes of a
    pair - whether or not the load of its player is still awaited - and
    both disposals return, the pair leaves the map in the same step, never
    comes back, and no later call is made on its player or its pitch-shift
    node: the late settlement of the load only resumes the suspended
    handler. When one of the two disposals throws, the handler ends before
    it deletes the entry, and the pair stays in the map. *)
Theorem toggle_disposed_chain_stays_unused
        (es1 : list Event) (pitch : Z) (es2 : list Event) (h : Handle) :
  let w1 := react_all T es1 initial_world in
  let w2 := react T (Click_toggle pitch) w1 in
  existsb (disposes h) (calls_since (comp w1) (comp w2)) = true ->
  (fst (release T pitch (comp w1)) = Returned tt ->
   (forall c, In c (calls_since (comp w2) (comp (react_all T es2 w2))) -> touches h c = false)
   /\ ~ In h (handles_of (pitchPlayers (comp (react_all T es2 w2)))))
  /\ (forall e, fst (release T pitch (comp w1)) = Threw e ->
                In h (handles_of (pitchPlayers (comp w2)))).
Proof.
  intros w1 w2 Hd.
  destruct (react_all_sound es1 initial_world initial_registry_fresh) as [Hfresh1 _].
  fold w1 in Hfresh1.
  destruct (toggle_disposal pitch w1 h Hfresh1 Hd) as (Hlt & Hout & Hin).
  fold w2 in Hlt, Hout, Hin.
  destruct (react_sound (Click_toggle pitch) w1 Hfresh1) as [Hfresh2 _]. fold w2 in Hfresh2.
  split; [| exact Hin].
  intros Hret. apply unreachable_object_untouched; [exact Hfresh2 | exact Hlt | now apply Hout].
Qed.

End OverlapFacts.

(** ** One handler at a time is one way of overlapping

    When the promise a handler awaits settles before the next event, the
    overlapping handlers do what the handlers run one at a time do. *)

Section SettledAtOnce.

Variable T : Tone.

Lemma settle_nothing_pending (n : nat) (w : World) :
  pending w = [] -> react_all T (repeat (Settle 0) n) w = w.
Proof.
  intros Hp. induction n as [| n IH]; [reflexivity |].
  cbn [repeat react_all fold_left]. cbn [react]. rewrite Hp. cbn [nth_error]. exact IH.
Qed.

Lemma react_all_app (es1 es2 : list Event) (w : World) :
  react_all T (es1 ++ es2) w = react_all T es2 (react_all T es1 w).
Proof. unfold react_all. apply fold_left_app. Qed.

Lemma react_all_cons (e : Event) (es : list Event) (w : World) :
  react_all T (e :: es) w = react_all T es (react T e w).
Proof. reflexivity. Qed.

Lemma settle_the_only_one (k : Pending) (s s0 : State) (m : bool) :
  react T (Settle 0) (suspend k s (mkWorld s0 m [])) = resume T k (mkWorld s m []).
Proof. reflexivity. Qed.

Lemma play_continue_cons (r : Render) (pitch : Z) (rest : list Z) (w : World) :
  play_continue T r (pitch :: rest) w
  = if JsMap.has pitch (pitchPlayers (comp w)) then play_continue T r rest w
    else match seen_audioBlob r with
         | Some b =>
             suspend (PlayAwaitsLoad r (next_handle (comp w)) b rest)
                     (after_setup r pitch (comp w)) w
         | None => play_continue T r rest (continue (after_setup r pitch (comp w)) w)
         end.
Proof.
  unfold play_continue. cbn [play_loop].
  destruct (JsMap.has pitch (pitchPlayers (comp w))); [reflexivity |].
  rewrite setup_to_await_run. now destruct (seen_audioBlob r).
Qed.

Lemma play_continue_settles (r : Render) (rest : list Z) (s : State) (m : bool) :
  react_all T (repeat (Settle 0) (List.length rest)) (play_continue T r rest (mkWorld s m []))
  = mkWorld (snd match for_each rest (ensure T r) s with
                 | (Returned _, s1) => start_registered T s1
                 | (Threw e, s1) => (Threw e, s1)
                 end) m [].
Proof.
  revert s. induction rest as [| pitch rest IH]; intros s; [reflexivity |].
  assert (Hlate : forall s1,
             react_all T (repeat (Settle 0) (S (List.length rest)))
                       (play_continue T r rest (mkWorld s1 m []))
             = mkWorld (snd match for_each rest (ensure T r) s1 with
                            | (Returned _, s2) => start_registered T s2
                            | (Threw e, s2) => (Threw e, s2)
                            end) m []).
  { intros s1. cbn [repeat]. rewrite repeat_cons, react_all_app, IH. reflexivity. }
  rewrite for_each_cons, ensure_run, play_continue_cons. cbn [List.length comp].
  destruct (JsMap.has pitch (pitchPlayers s)) eqn:Hhas; [apply (Hlate s) |].
  rewrite setupPitchPlayer_run.
  destruct (seen_audioBlob r) as [b |]; [| apply (Hlate (after_setup r pitch s))].
  cbn [repeat]. rewrite react_all_cons, settle_the_only_one. cbn [resume].
  destruct (decodes T b); [apply IH | now apply settle_nothing_pending].
Qed.

(** A click on a grid button whose load settles at once. *)
Lemma toggle_settled_at_once (pitch : Z) (s : State) :
  react_all T [Click_toggle pitch; Settle 0] (mkWorld s true [])
  = mkWorld (step T (Toggle pitch) s) true [].
Proof.
  unfold step. rewrite !react_all_cons. cbn [react_all fold_left].
  change (react T (Click_toggle pitch) (mkWorld s true []))
    with (togglePitch_begin T pitch (mkWorld s true [])).
  unfold togglePitch_begin. cbn [comp render seen_activePitches seen_audioBlob].
  destruct (JsSet.has pitch (activePitches s)) eqn:Hact; [reflexivity |].
  rewrite toggle_on_run by assumption.
  destruct (audioBlob s) as [b |] eqn:Hb; [| reflexivity].
  destruct (JsMap.has pitch (pitchPlayers s)); [reflexivity |].
  rewrite setup_to_await_run. cbn [render seen_audioBlob]. rewrite Hb. cbn [option_map].
  rewrite settle_the_only_one. cbn [resume mounted comp continue pending].
  now destruct (decodes T b).
Qed.

(** A click on play whose promises settle one after the other. *)
Lemma play_settled_in_turn (s : State) :
  react_all T (Click_play :: repeat (Settle 0) (S (List.length (activePitches s))))
            (mkWorld s true [])
  = mkWorld (step T Play s) true [].
Proof.
  unfold step. rewrite react_all_cons.
  change (react T Click_play (mkWorld s true []))
    with (match audioBlob s with
          | Some _ => suspend (PlayAwaitsToneStart (render s)) (log_call ToneStart s)
                              (mkWorld s true [])
          | None => mkWorld s true []
          end).
  destruct (audioBlob s) as [b |] eqn:Hb.
  - cbn [repeat]. rewrite react_all_cons, settle_the_only_one.
    cbn [resume render seen_audioBlob seen_activePitches]. rewrite Hb.
    rewrite (play_run T s b Hb). apply play_continue_settles.
  - rewrite play_without_recording by assumption. now apply settle_nothing_pending.
Qed.

End SettledAtOnce.

(** ** The major-triad scenario *)

(** C8. A recording that decodes, +4 and +7 switched on, then play: the map
    holds a pair for +4 and a pair for +7, each built once and neither one
    disposed of, and a play that returns has started both players with the
    one clock reading [t]. A pair for the unison exists exactly when the
    unison was left selected (the selection starts as {0}); with the unison
    switched off no pair was ever built for offset 0. *)
Theorem triad_scenario_chains (T : Tone) (b : Blob) (t : Seconds) (unison : bool) :
  decodes T b = true ->
  let s := run T (triad_scenario b unison t) initial_state in
  let s' := step T Play s in
  JsMap.keys (pitchPlayers s') = (if unison then [4; 7; 0] else [4; 7])
  /\ chains_created_for 4 (calls s') = 1%nat
  /\ chains_created_for 7 (calls s') = 1%nat
  /\ chains_created_for 0 (calls s') = (if unison then 1 else 0)%nat
  /\ filter is_dispose (calls s') = []
  /\ (fst (handle T Play s) = Returned tt ->
      filter is_start (calls s')
      = map (fun kc => PlayerStart (player (snd kc)) t) (pitchPlayers s')).
Proof.
  intros H. destruct T as [dec st]. cbn [decodes] in H.
  destruct unison; cbv zeta; repeat (progress (cbv; rewrite ?H));
    repeat match goal with
           | |- context [match st ?l ?p ?u with _ => _ end] => destruct (st l p u)
           end;
    repeat split; try reflexivity; discriminate.
Qed.

(** * Concrete runs *)

(** With a recording, the toggle of +3 makes the calls of [setupPitchPlayer]. *)
Example eager_toggle_run :
  let s := run tone_js [Recorded riff_blob; Toggle 3] initial_state in
  calls s = setup_calls 0%nat 3 (Some riff_blob)
  /\ activePitches s = [0; 3]
  /\ JsMap.keys (pitchPlayers s) = [3].
Proof. repeat split; reflexivity. Qed.

(** With a recording that cannot be decoded, the toggle of +3 is rejected:
    the pair is in the map, the selection is as before, and the next toggle
    of +3 selects it. *)
Example rejected_toggle_run :
  let s := run tone_js [Recorded empty_blob] initial_state in
  handle tone_js (Toggle 3) s
  = (Threw (LoadRejected 0%nat empty_blob), step tone_js (Toggle 3) s)
  /\ activePitches (step tone_js (Toggle 3) s) = [0]
  /\ JsMap.keys (pitchPlayers (step tone_js (Toggle 3) s)) = [3]
  /\ activePitches (run tone_js [Toggle 3; Toggle 3] s) = [0; 3].
Proof. repeat split; reflexivity. Qed.

(** A play suspended on the load of the unison's player, the component
    unmounted, the load settled: the log ends with the two disposals of the
    cleanup followed by the start of the disposed player. *)
Example unmounted_play_run :
  calls (comp (react_all tone_js
                 [Recorder_stopped riff_blob; Click_play; Settle 0%nat; Unmount; Settle 0%nat]
                 initial_world))
  = [ToneStart; CreateObjectURL riff_blob]
    ++ setup_calls 0%nat 0 (Some riff_blob)
    ++ [DisposePlayer 0%nat; DisposeShift 1%nat; ToneNow 0%Q; PlayerStart 0%nat 0%Q].
Proof. reflexivity. Qed.

Lemma interval_classification_exact_witness :
  -12 <= 7 <= 12
  /\ class_of_style (getIntervalStyle 7) = Some PerfectConsonance.
Proof.
  split; [lia |].
  exact (proj2 (interval_classification_exact 7 ltac:(lia))).
Defined.

(** With a recording, switching +3 on builds its pair on the spot. *)
Lemma toggle_on_defers_creation_counterexample :
  ~ toggle_on_defers_creation tone_js (run tone_js [Recorded riff_blob] initial_state) 3.
Proof.
  intros H. destruct (H eq_refl) as [Hnone _]. vm_compute in Hnone. discriminate.
Qed.

Lemma toggle_on_creates_eagerly_witness :
  let s := run tone_js [Recorded riff_blob] initial_state in
  JsSet.has 3 (activePitches s) = false
  /\ chains_created_for 3 (calls_since s (step tone_js (Toggle 3) s)) = 1%nat
  /\ chains_created_for 3
       (calls_since s (step tone_js (Toggle 3) (step tone_js (Toggle 3) s))) = 1%nat.
Proof.
  intros s. split; [reflexivity |].
  destruct (toggle_on_creates_eagerly tone_js s 3 eq_refl) as [_ Hrec].
  destruct (Hrec riff_blob eq_refl eq_refl) as (_ & _ & Hone & _ & Hround).
  split; [exact Hone | exact Hround].
Defined.

(** Pressing play before anything was recorded is not an error. *)
Lemma play_without_recording_fails_counterexample :
  ~ play_without_recording_fails tone_js initial_state.
Proof.
  intros H. destruct (H eq_refl) as [e He]. vm_compute in He. discriminate.
Qed.

Lemma play_without_recording_returns_witness :
  audioBlob initial_state = None
  /\ handle tone_js Play initial_state = (Returned tt, initial_state).
Proof.
  split; [reflexivity |].
  exact (proj1 (play_without_recording_returns tone_js initial_state eq_refl)).
Defined.

Lemma play_starts_every_chain_at_one_time_witness :
  let s := run tone_js [Recorded riff_blob; Toggle 4; Tick (5 # 2)%Q] initial_state in
  audioBlob s = Some riff_blob
  /\ fst (handle tone_js Play s) = Returned tt
  /\ forall k, In k [0; 4] -> JsMap.has k (pitchPlayers (step tone_js Play s)) = true.
Proof.
  intros s. split; [reflexivity |]. split; [reflexivity |].
  exact (proj2 (proj2 (play_starts_every_chain_at_one_time
                         tone_js s riff_blob eq_refl eq_refl))).
Defined.


(** A recording that cannot be decoded: the first toggle of +3 is rejected
    after it stored the pair, the second one finds the pair and selects +3. *)
Lemma toggle_twice_restores_counterexample :
  ~ toggle_twice_restores tone_js (run tone_js [Recorded empty_blob] initial_state) 3.
Proof.
  intros H. specialize (H 3). vm_compute in H. discriminate.
Qed.

Lemma toggle_twice_restores_when_returned_witness :
  let s := run tone_js [Recorded riff_blob] initial_state in
  fst (handle tone_js (Toggle 3) s) = Returned tt
  /\ fst (handle tone_js (Toggle 3) (step tone_js (Toggle 3) s)) = Returned tt
  /\ toggle_twice_restores tone_js s 3.
Proof.
  intros s. split; [reflexivity |]. split; [reflexivity |].
  exact (toggle_twice_restores_when_returned tone_js s 3 eq_refl eq_refl).
Defined.



Lemma triad_scenario_chains_witness :
  decodes tone_js riff_blob = true
  /\ let s := run tone_js (triad_scenario riff_blob false (5 # 2)%Q) initial_state in
     JsMap.keys (pitchPlayers (step tone_js Play s)) = [4; 7]
     /\ filter is_start (calls (step tone_js Play s))
        = [PlayerStart 0%nat (5 # 2)%Q; PlayerStart 2%nat (5 # 2)%Q].
Proof.
  split; [reflexivity |]. intros s.
  destruct (triad_scenario_chains tone_js riff_blob (5 # 2)%Q false eq_refl)
    as (Hkeys & _ & _ & _ & _ & Hstart).
  split; [exact Hkeys | exact (Hstart eq_refl)].
Defined.

(** Play is suspended on the load of the unison's player when the component
    unmounts: the cleanup disposes of the pair, and the resumed play starts
    it. *)
Lemma disposed_while_loading_counterexample :
  ~ disposed_while_loading_stays_unused tone_js
      [Recorder_stopped riff_blob; Click_play; Settle 0; Unmount; Settle 0].
Proof.
  intros H.
  specialize (H [Recorder_stopped riff_blob; Click_play; Settle 0%nat] Unmount
                [Settle 0%nat] 0%nat eq_refl eq_refl).
  assert (Hdisposed : In (DisposePlayer 0%nat)
                         [DisposePlayer 0%nat; DisposeShift 1%nat]) by (now left).
  specialize (H Hdisposed (PlayerStart 0%nat 0%Q)).
  assert (Hstarted : In (PlayerStart 0%nat 0%Q) [ToneNow 0%Q; PlayerStart 0%nat 0%Q])
    by (right; now left).
  specialize (H Hstarted). discriminate.
Qed.

(** The same suspension, but the pair is disposed of by a click on the
    unison, and both disposals return: the resumed play does not touch it.
    And a player that was started without a buffer: its disposal throws, and
    the click leaves the pair in the map. *)
Lemma toggle_disposed_chain_stays_unused_witness :
  let w1 := react_all tone_js [Recorder_stopped riff_blob; Click_play; Settle 0%nat]
                      initial_world in
  let w2 := react tone_js (Click_toggle 0) w1 in
  let v1 := react_all tone_js [Recorder_stopped empty_blob; Click_toggle 0; Click_toggle 3;
                               Settle 0%nat; Click_toggle 3; Click_play; Settle 0%nat]
                      initial_world in
  let v2 := react tone_js (Click_toggle 3) v1 in
  (load_pending 0%nat w1 = true
   /\ existsb (disposes 0%nat) (calls_since (comp w1) (comp w2)) = true
   /\ fst (release tone_js 0 (comp w1)) = Returned tt
   /\ forall c, In c (calls_since (comp w2) (comp (react_all tone_js [Settle 0%nat] w2))) ->
                touches 0%nat c = false)
  /\ (existsb (disposes 0%nat) (calls_since (comp v1) (comp v2)) = true
      /\ fst (release tone_js 3 (comp v1)) = Threw (DisposeThrew 0%nat)
      /\ In 0%nat (handles_of (pitchPlayers (comp v2)))).
Proof.
  intros w1 w2 v1 v2. split.
  - split; [reflexivity |]. split; [reflexivity |]. split; [reflexivity |].
    exact (proj1 (proj1 (toggle_disposed_chain_stays_unused
                           tone_js [Recorder_stopped riff_blob; Click_play; Settle 0%nat]
                           0 [Settle 0%nat] 0%nat eq_refl) eq_refl)).
  - split; [reflexivity |]. split; [reflexivity |].
    exact (proj2 (toggle_disposed_chain_stays_unused
                    tone_js [Recorder_stopped empty_blob; Click_toggle 0; Click_toggle 3;
                             Settle 0%nat; Click_toggle 3; Click_play; Settle 0%nat]
                    3 [] 0%nat eq_refl) (DisposeThrew 0%nat) eq_refl).
Defined.

(** The rejected toggle of +3 leaves a pair under an offset that is not
    selected. *)
Lemma registry_within_selection_counterexample :
  ~ registry_within_selection tone_js [Recorded empty_blob; Toggle 3].
Proof.
  intros [Hsel _]. specialize (Hsel 3 eq_refl). vm_compute in Hsel. discriminate.
Qed.

Lemma registry_within_selection_unless_rejected_witness :
  no_toggle_rejected tone_js [Recorded riff_blob; Toggle 3; Play; Toggle 0] initial_state
  /\ registry_within_selection tone_js [Recorded riff_blob; Toggle 3; Play; Toggle 0].
Proof.
  assert (Hok : no_toggle_rejected tone_js
                  [Recorded riff_blob; Toggle 3; Play; Toggle 0] initial_state).
  { cbn [no_toggle_rejected]. repeat split; reflexivity. }
  split; [exact Hok |].
  exact (proj2 (proj2 (registry_within_selection_unless_rejected tone_js _)) Hok).
Defined.

(** * The rest of the component *)

(** ** The grid and its buttons *)

Lemma array_from_length {A : Type} (n : nat) (f : Z -> A) :
  List.length (array_from n f) = n.
Proof. unfold array_from. now rewrite length_map, length_seq. Qed.

Lemma array_from_nth {A : Type} (n i : nat) (f : Z -> A) (d : A) :
  (i < n)%nat -> nth i (array_from n f) d = f (Z.of_nat i).
Proof.
  intros Hi. unfold array_from.
  rewrite (nth_indep _ d (f (Z.of_nat 0)))
    by (now rewrite length_map, length_seq).
  rewrite (map_nth (fun j => f (Z.of_nat j)) (seq 0 n) 0%nat i), seq_nth by assumption.
  reflexivity.
Qed.

(** X1. The three rows of the grid hold every offset from -12 to 12 and
    nothing else, each one once: the first row runs from -1 down to -12, the
    second is the unison, the third runs from 1 up to 12. *)
Theorem grid_holds_each_offset_once :
  NoDup (List.concat pitchRows)
  /\ (forall o, In o (List.concat pitchRows) <-> -12 <= o <= 12)
  /\ (forall i, (i < 12)%nat ->
                nth i (nth 0 pitchRows []) 0 = - (Z.of_nat i + 1)
                /\ nth i (nth 2 pitchRows []) 0 = Z.of_nat i + 1)
  /\ nth 1 pitchRows [] = [0].
Proof.
  split; [| split; [| split]].
  - apply (NoDup_count_occ' Z.eq_dec). intros o Ho. cbn in Ho.
    repeat (destruct Ho as [<- | Ho]; [reflexivity |]). contradiction.
  - intros o. split.
    + intros Ho. cbn in Ho. repeat (destruct Ho as [<- | Ho]; [lia |]). contradiction.
    + intros Ho. apply grid_offsets in Ho. cbn in Ho. cbn.
      repeat (destruct Ho as [<- | Ho]; [tauto |]). contradiction.
  - intros i Hi. cbn [pitchRows nth]. now rewrite !array_from_nth by assumption.
  - reflexivity.
Qed.

Lemma decimal_parses (n : Z) :
  DecimalString.NilZero.int_of_string (decimal n) = Some (Z.to_int n).
Proof.
  unfold decimal. apply DecimalString.NilZero.isi.
  - destruct n as [| p | p]; cbn; [discriminate | | discriminate].
    intros [= H]. now apply (DecimalPos.Unsigned.to_uint_nonnil p).
  - destruct n as [| p | p]; cbn; [discriminate | discriminate |].
    intros [= H]. now apply (DecimalPos.Unsigned.to_uint_nonnil p).
Qed.

Lemma decimal_injective (a b : Z) : decimal a = decimal b -> a = b.
Proof.
  intros H. apply DecimalZ.to_int_inj.
  pose proof (decimal_parses a) as Ha. rewrite H, decimal_parses in Ha. congruence.
Qed.

Lemma plus_sign_does_not_parse (s : string) :
  DecimalString.NilZero.int_of_string (String.append "+" s) = None.
Proof.
  cbn. unfold DecimalString.NilEmpty.uint_of_string; fold DecimalString.NilEmpty.uint_of_string.
  now destruct (DecimalString.NilEmpty.uint_of_string s).
Qed.

(** X2. The texts of the grid buttons tell the offsets apart: two offsets
    with the same label are the same offset (a positive offset is printed
    with a plus sign, the others as they are). *)
Theorem pitch_labels_are_distinct (a b : Z) :
  pitchLabel a = pitchLabel b -> a = b.
Proof.
  unfold pitchLabel. destruct (0 <? a) eqn:Ha, (0 <? b) eqn:Hb; intros H.
  - apply decimal_injective. now injection H.
  - pose proof (decimal_parses b) as Hp. rewrite <- H, plus_sign_does_not_parse in Hp.
    discriminate.
  - pose proof (decimal_parses a) as Hp. rewrite H, plus_sign_does_not_parse in Hp.
    discriminate.
  - now apply decimal_injective.
Qed.

Lemma interval_style_is_not_active (pitch : Z) : getIntervalStyle pitch <> style_active.
Proof.
  unfold getIntervalStyle.
  destruct (pitch =? 0); [discriminate |].
  destruct (JsSet.has (Z.abs pitch) perfectConsonances); [discriminate |].
  destruct (JsSet.has (Z.abs pitch) imperfectConsonances); discriminate.
Qed.

(** X3. A grid button is green exactly when its offset is selected: the
    colour of a selected button hides its interval class, and no interval
    class is shown in green. *)
Theorem grid_button_green_iff_selected (activePitches : list Z) (pitch : Z) :
  gridButtonColour activePitches pitch = style_active
  <-> JsSet.has pitch activePitches = true.
Proof.
  unfold gridButtonColour. destruct (JsSet.has pitch activePitches); split; intros H.
  - reflexivity.
  - reflexivity.
  - now apply interval_style_is_not_active in H.
  - discriminate.
Qed.

(** X4. The interval style does not depend on the direction of the
    interval, and every offset beyond an octave, which the table does not
    list, is styled as a dissonance. *)
Theorem interval_style_symmetric_and_bounded (o : Z) :
  getIntervalStyle (- o) = getIntervalStyle o
  /\ (12 < Z.abs o -> getIntervalStyle o = style_dissonant).
Proof.
  split.
  - unfold getIntervalStyle. rewrite Z.abs_opp.
    destruct (Z.eqb_spec o 0) as [-> | Hne]; [reflexivity |].
    destruct (Z.eqb_spec (- o) 0); [lia | reflexivity].
  - intros Hbig. unfold getIntervalStyle, JsSet.has, perfectConsonances, imperfectConsonances.
    cbn [existsb].
    repeat match goal with
           | |- context [?x =? ?y] => destruct (Z.eqb_spec x y); [lia |]
           end.
    reflexivity.
Qed.

(** ** Capture and the buttons *)

Lemma concat_nonempty_chunks (ds : list Blob) :
  List.concat (filter (fun d => (0 <? List.length d)%nat) ds) = List.concat ds.
Proof.
  induction ds as [| d ds IH]; [reflexivity |].
  cbn [filter]. destruct (0 <? List.length d)%nat eqn:Hd.
  - now rewrite !concat_cons, IH.
  - rewrite concat_cons, IH. destruct d; [reflexivity | discriminate].
Qed.

Lemma recorder_balance_app (log added : list CaptureCall) :
  recorder_balance (log ++ added)
  = fold_left (fun st call =>
                 match st, call with
                 | Some false, RecorderStart => Some true
                 | Some true, RecorderStart => None
                 | Some true, RecorderStop => Some false
                 | Some false, RecorderStop => None
                 | _, _ => st
                 end) added (recorder_balance log).
Proof. unfold recorder_balance. apply fold_left_app. Qed.

Lemma track_stops_keep_balance (st : option bool) (ts : list Handle) :
  fold_left (fun st call =>
               match st, call with
               | Some false, RecorderStart => Some true
               | Some true, RecorderStart => None
               | Some true, RecorderStop => Some false
               | Some false, RecorderStop => None
               | _, _ => st
               end) (map TrackStop ts) st = st.
Proof.
  induction ts as [| t ts IH]; [reflexivity |].
  cbn [map fold_left]. now destruct st as [[|] |].
Qed.

Section StudioFacts.

Variable T : Tone.

Lemma studio_run_app (es1 es2 : list StudioEvent) (u : Studio) :
  studio_run T (es1 ++ es2) u = studio_run T es2 (studio_run T es1 u).
Proof. unfold studio_run. apply fold_left_app. Qed.

Lemma studio_run_cons (e : StudioEvent) (es : list StudioEvent) (u : Studio) :
  studio_run T (e :: es) u = studio_run T es (studio_react T e u).
Proof. reflexivity. Qed.

(** Chunks that arrive while a recorder is installed. *)
Lemma studio_data_run (ds : list Blob) (u : Studio) (stream : MediaStream) :
  mediaRecorderRef (capture u) = Some stream ->
  studio_run T (map Data_available ds) u
  = mkStudio (mkCapture (isRecording (capture u)) (Some stream)
                        (audioChunksRef (capture u)
                           ++ filter (fun d => (0 <? List.length d)%nat) ds)
                        (capture_calls (capture u)))
             (engine u).
Proof.
  revert u. induction ds as [| d ds IH]; intros u Hrec.
  - destruct u as [[rec ref chunks log] eng]. cbn in *. subst ref. now rewrite app_nil_r.
  - rewrite map_cons, studio_run_cons. cbn [studio_react]. rewrite Hrec.
    unfold ondataavailable. cbn [filter].
    destruct (0 <? List.length d)%nat.
    + rewrite IH by exact Hrec. cbn [capture engine isRecording audioChunksRef capture_calls].
      now rewrite <- app_assoc.
    + destruct u as [[rec ref chunks log] eng]. cbn [capture engine mediaRecorderRef] in *.
      subst ref. now rewrite (IH (mkStudio (mkCapture rec (Some stream) chunks log) eng) eq_refl).
Qed.

(** X5. One take, from a click on Record to the recorder's stop event: the
    recording handed to the engine is made of the bytes of every chunk that
    arrived after that click, in their order - whatever was kept from an
    earlier take is dropped - and it is set even when no byte arrived, which
    enables the play button and the grid. The take leaves the selection, the
    map and the calls into Tone.js as they were, and stops the recorder and
    every track of its stream once. *)
Theorem take_delivers_the_recorded_bytes
        (u : Studio) (stream : MediaStream) (answer : option MediaStream)
        (ds1 ds2 : list Blob) :
  isRecording (capture u) = false ->
  let u' := studio_run T (Record_button (Some stream)
                            :: map Data_available ds1
                            ++ Record_button answer
                            :: map Data_available ds2
                            ++ [Recorder_stops]) u in
  audioBlob (engine u') = Some (List.concat (ds1 ++ ds2))
  /\ controlsDisabled (audioBlob (engine u')) = false
  /\ activePitches (engine u') = activePitches (engine u)
  /\ pitchPlayers (engine u') = pitchPlayers (engine u)
  /\ calls (engine u') = calls (engine u)
  /\ isRecording (capture u') = false
  /\ capture_calls (capture u')
     = capture_calls (capture u)
       ++ [GetUserMedia; NewMediaRecorder stream; RecorderStart; RecorderStop]
       ++ map TrackStop (tracks stream).
Proof.
  intros Hidle u'. unfold u'. clear u'.
  rewrite studio_run_cons. cbn [studio_react]. rewrite Hidle. unfold startRecording.
  rewrite studio_run_app, studio_data_run with (stream := stream) by reflexivity.
  cbn [capture engine isRecording mediaRecorderRef audioChunksRef capture_calls app].
  rewrite studio_run_cons. cbn [studio_react capture isRecording].
  unfold stopRecording. cbn [mediaRecorderRef isRecording audioChunksRef capture_calls engine].
  rewrite studio_run_app, studio_data_run with (stream := stream) by reflexivity.
  cbn [capture engine isRecording mediaRecorderRef audioChunksRef capture_calls].
  rewrite studio_run_cons. cbn [studio_react capture mediaRecorderRef engine studio_run fold_left].
  unfold onstop_blob, step. cbn [audioChunksRef handle setAudioBlob write snd
    set_audioBlob audioBlob activePitches pitchPlayers calls controlsDisabled
    capture engine isRecording capture_calls].
  rewrite <- filter_app, concat_nonempty_chunks, <- !app_assoc.
  repeat split; reflexivity.
Qed.

Lemma studio_react_balanced (e : StudioEvent) (u : Studio) :
  capture_balanced (capture u) -> capture_balanced (capture (studio_react T e u)).
Proof.
  intros Hu. pose proof Hu as [Hbal Hrec].
  destruct e as [answer | data | | | pitch | t]; cbn [studio_react].
  - destruct (isRecording (capture u)) eqn:Hr; cbn [capture].
    + unfold stopRecording. rewrite Hr.
      destruct (mediaRecorderRef (capture u)) as [stream |] eqn:Href;
        [| now specialize (Hrec eq_refl)].
      split; cbn [capture_calls isRecording]; [| discriminate].
      rewrite recorder_balance_app, Hbal. cbn [fold_left]. apply track_stops_keep_balance.
    + unfold startRecording. destruct answer as [stream |];
        split; cbn [capture_calls isRecording mediaRecorderRef].
      * rewrite recorder_balance_app, Hbal. reflexivity.
      * discriminate.
      * rewrite recorder_balance_app, Hbal, Hr. reflexivity.
      * rewrite Hr. discriminate.
  - destruct (mediaRecorderRef (capture u)) eqn:Href; [| exact Hu].
    cbn [capture]. unfold ondataavailable.
    destruct (0 <? List.length data)%nat; [| exact Hu].
    split; cbn [capture_calls isRecording mediaRecorderRef]; [exact Hbal |].
    intros Hr. rewrite Href. discriminate.
  - destruct (mediaRecorderRef (capture u)); exact Hu.
  - destruct (controlsDisabled (audioBlob (engine u))); exact Hu.
  - destruct (controlsDisabled (audioBlob (engine u))); exact Hu.
  - exact Hu.
Qed.

(** X6. With handlers served one at a time (the microphone answers before
    the next event), whatever is clicked and whatever the recorder reports,
    the component's own calls of [start()] and [stop()] on recorders
    alternate, beginning with a [start()]: it never calls [stop()] unless
    its last such call was a [start()], and never calls [start()] while its
    last such call was a [start()]. The record button reads "Stop Recording"
    exactly when the last such call was a [start()] - also when the recorder
    has stopped by itself since, which the component does not notice - and
    a recorder is then installed. *)
Theorem record_button_alternates (es : list StudioEvent) :
  let c := capture (studio_run T es initial_studio) in
  recorder_balance (capture_calls c) = Some (isRecording c)
  /\ (recordLabel (isRecording c) = "Stop Recording"%string
      <-> recorder_balance (capture_calls c) = Some true)
  /\ (isRecording c = true -> mediaRecorderRef c <> None).
Proof.
  assert (H : capture_balanced (capture (studio_run T es initial_studio))).
  { assert (Hgen : forall u, capture_balanced (capture u) ->
                             capture_balanced (capture (studio_run T es u))).
    { induction es as [| e es IH]; intros u Hu; [exact Hu |].
      cbn. apply IH. now apply studio_react_balanced. }
    apply Hgen. split; [reflexivity | discriminate]. }
  destruct H as [Hbal Hrec]. cbv zeta. rewrite Hbal.
  split; [reflexivity |]. split; [| exact Hrec].
  destruct (isRecording (capture (studio_run T es initial_studio))); cbn;
    split; intros H; congruence.
Qed.

Lemma studio_react_idle (e : StudioEvent) (u : Studio) :
  is_recorder_stop e = false ->
  audioBlob (engine u) = None ->
  audioBlob (engine (studio_react T e u)) = None
  /\ activePitches (engine (studio_react T e u)) = activePitches (engine u)
  /\ pitchPlayers (engine (studio_react T e u)) = pitchPlayers (engine u)
  /\ calls (engine (studio_react T e u)) = calls (engine u).
Proof.
  intros He Hb. destruct e as [answer | data | | | pitch | t]; cbn [studio_react];
    try discriminate.
  - destruct (isRecording (capture u)); now repeat split.
  - destruct (mediaRecorderRef (capture u)); now repeat split.
  - rewrite Hb. now repeat split.
  - rewrite Hb. now repeat split.
  - now repeat split.
Qed.

(** X7. Until a recorder has stopped, the play button and the grid are
    dead: whatever is clicked, there is no recording, the selection is still
    the unison alone, the map is empty and no call into Tone.js was made. *)
Theorem buttons_are_dead_before_a_take (es : list StudioEvent) :
  existsb is_recorder_stop es = false ->
  let s := engine (studio_run T es initial_studio) in
  audioBlob s = None
  /\ activePitches s = [0]
  /\ pitchPlayers s = []
  /\ calls s = [].
Proof.
  intros Hes.
  assert (Hgen : forall u,
             audioBlob (engine u) = None ->
             audioBlob (engine (studio_run T es u)) = None
             /\ activePitches (engine (studio_run T es u)) = activePitches (engine u)
             /\ pitchPlayers (engine (studio_run T es u)) = pitchPlayers (engine u)
             /\ calls (engine (studio_run T es u)) = calls (engine u)).
  { induction es as [| e es IH]; intros u Hu; [now repeat split |].
    cbn [existsb] in Hes. apply orb_false_iff in Hes. destruct Hes as [He Hes].
    destruct (studio_react_idle e u He Hu) as (Hb & Ha & Hr & Hc).
    rewrite studio_run_cons.
    destruct (IH Hes _ Hb) as (Hb' & Ha' & Hr' & Hc').
    rewrite Hb', Ha', Hr', Hc'. now repeat split. }
  apply (Hgen initial_studio eq_refl).
Qed.

End StudioFacts.

(** ** Clicks that overtake the microphone *)

(** A click answered before the next event is [startRecording] as a whole. *)
Lemma click_answered_at_once (answer : option MediaStream) (c : Capture) :
  isRecording c = false ->
  capture_react_all [Click_record; Microphone_answers answer] (mkCaptureWorld c 0)
  = mkCaptureWorld (startRecording answer c) 0.
Proof.
  intros Hrec. cbn [capture_react_all fold_left capture_react cap awaiting_microphone].
  rewrite Hrec. cbn [awaiting_microphone cap]. unfold startRecording_resume, startRecording.
  destruct answer; cbn; now rewrite <- app_assoc.
Qed.

(** X17. A second click on Record before the microphone has answered the
    first asks for the microphone again, and both answers start a recorder:
    the second is started while the first records. The click that follows
    stops the second recorder and the tracks of its stream only; the first
    recorder is never stopped, and a track of the first stream that the
    second does not share stays open. *)
Theorem second_record_click_leaves_a_recorder_running
        (c : Capture) (first second : MediaStream) :
  isRecording c = false ->
  let w := capture_react_all [Click_record; Click_record;
                              Microphone_answers (Some first);
                              Microphone_answers (Some second);
                              Click_record] (mkCaptureWorld c 0) in
  capture_calls (cap w)
  = capture_calls c
    ++ [GetUserMedia; GetUserMedia;
        NewMediaRecorder first; RecorderStart;
        NewMediaRecorder second; RecorderStart; RecorderStop]
    ++ map TrackStop (tracks second)
  /\ isRecording (cap w) = false
  /\ awaiting_microphone w = 0%nat
  /\ (recorder_balance (capture_calls c) = Some false ->
      recorder_balance (capture_calls (cap w)) = None)
  /\ (forall t, ~ In t (tracks second) ->
                existsb (stops_track t) (capture_calls (cap w))
                = existsb (stops_track t) (capture_calls c)).
Proof.
  intros Hrec w.
  assert (Hw : w = mkCaptureWorld
                     {| isRecording := false;
                        mediaRecorderRef := Some second;
                        audioChunksRef := [];
                        capture_calls :=
                          capture_calls c
                          ++ [GetUserMedia; GetUserMedia;
                              NewMediaRecorder first; RecorderStart;
                              NewMediaRecorder second; RecorderStart; RecorderStop]
                          ++ map TrackStop (tracks second) |} 0).
  { unfold w. cbn [capture_react_all fold_left]. unfold capture_react at 5.
    cbn [cap]. rewrite Hrec. unfold capture_react at 4. cbn [cap startRecording_begin isRecording].
    rewrite Hrec. cbn. now rewrite <- !app_assoc. }
  clearbody w. subst w. cbn [cap capture_calls isRecording awaiting_microphone].
  split; [reflexivity |]. split; [reflexivity |]. split; [reflexivity |]. split.
  - intros Hbal. rewrite recorder_balance_app, Hbal. cbn.
    apply track_stops_keep_balance.
  - intros t Ht. rewrite existsb_app. cbn [app existsb stops_track orb].
    replace (existsb (stops_track t) (map TrackStop (tracks second))) with false;
      [now rewrite orb_false_r |].
    symmetry. apply not_true_is_false. intros Hex. apply existsb_exists in Hex.
    destruct Hex as [x [Hx Hst]]. apply in_map_iff in Hx. destruct Hx as [t' [<- Ht']].
    cbn in Hst. apply Nat.eqb_eq in Hst. now subst t'.
Qed.

(** ** More on toggling and playing *)



Section EngineMore.

Variable T : Tone.


(** X9. Switching a selected offset off builds nothing and makes at most
    the two disposals of its pair. When they return - as they do when the
    map has no pair for the offset, or when neither object of the pair was
    ever started - the offset leaves the selection and the map. When a
    disposal throws, the handler is rejected with that error before line 95
    and line 104: the offset stays selected and its pair stays in the map. *)
Theorem toggle_off_releases (s : State) (pitch : Z) :
  JsSet.has pitch (activePitches s) = true ->
  let s' := step T (Toggle pitch) s in
  next_handle s' = next_handle s
  /\ (fst (handle T (Toggle pitch) s) = Returned tt ->
      JsSet.has pitch (activePitches s') = false
      /\ JsMap.has pitch (pitchPlayers s') = false
      /\ calls_since s s'
         = match JsMap.get pitch (pitchPlayers s) with
           | Some c => [DisposePlayer (player c); DisposeShift (shift_id (pitchShift c))]
           | None => []
           end)
  /\ (forall e, fst (handle T (Toggle pitch) s) = Threw e ->
        exists c,
          JsMap.get pitch (pitchPlayers s) = Some c
          /\ activePitches s' = activePitches s
          /\ pitchPlayers s' = pitchPlayers s
          /\ ((e = DisposeThrew (player c)
               /\ calls_since s s' = [DisposePlayer (player c)])
              \/ (e = DisposeThrew (shift_id (pitchShift c))
                  /\ calls_since s s' = [DisposePlayer (player c);
                                         DisposeShift (shift_id (pitchShift c))])))
  /\ ((forall c, JsMap.get pitch (pitchPlayers s) = Some c ->
                 existsb (starts (player c)) (calls s) = false
                 /\ existsb (starts (shift_id (pitchShift c))) (calls s) = false) ->
      fst (handle T (Toggle pitch) s) = Returned tt).
Proof.
  intros Hact s'. split; [| split; [| split]].
  - unfold s'. destruct (toggle_off_effect T pitch s Hact) as (n & act & reg & -> & _).
    reflexivity.
  - intros Hret. unfold s'. rewrite (toggle_off_returned T pitch s Hact Hret).
    unfold set_activePitches. cbn [activePitches pitchPlayers].
    split; [rewrite set_has_delete, Z.eqb_refl; reflexivity |].
    destruct (JsMap.get pitch (pitchPlayers s)) as [c |] eqn:Hget.
    + split; [unfold after_release; cbn [pitchPlayers];
              rewrite map_has_delete, Z.eqb_refl; reflexivity |].
      apply calls_since_app. reflexivity.
    + split; [rewrite map_has_get; now rewrite Hget |].
      apply calls_since_app. cbn. now rewrite app_nil_r.
  - intros e Hthrew. unfold s'.
    destruct (toggle_off_rejected T pitch s e Hact Hthrew) as (c & n & Hget & -> & Hcase).
    exists c. split; [exact Hget |]. split; [reflexivity |]. split; [reflexivity |].
    destruct Hcase as [(-> & -> & _) | (-> & -> & _)]; [left | right];
      (split; [reflexivity | apply calls_since_app; reflexivity]).
  - intros Hun. rewrite toggle_off_outcome by assumption.
    now apply release_returns_unstarted.
Qed.





End EngineMore.

(** ** What every run keeps *)

Lemma disposals_none (h : Handle) (added : list Call) :
  (forall x, In x added -> is_dispose x = false) -> disposals h added = 0%nat.
Proof.
  unfold disposals. induction added as [| x added IH]; intros H; [reflexivity |].
  cbn [filter]. assert (Hx : disposes h x = false).
  { specialize (H x (or_introl eq_refl)). destruct x; try reflexivity; discriminate. }
  rewrite Hx. apply IH. intros y Hy. apply H. now right.
Qed.

Lemma setup_calls_not_dispose (n : Handle) (pitch : Z) (blob : option Blob) (x : Call) :
  In x (setup_calls n pitch blob) -> is_dispose x = false.
Proof.
  unfold setup_calls. intros Hx. apply in_app_or in Hx. destruct Hx as [Hx | Hx].
  - cbn in Hx. now repeat (destruct Hx as [<- | Hx]; [reflexivity |]).
  - destruct blob; cbn in Hx; now repeat (destruct Hx as [<- | Hx]; [reflexivity |]).
Qed.

Lemma live_extends (s s' : State) (added : list Call) :
  pitchPlayers s' = pitchPlayers s ->
  next_handle s' = next_handle s ->
  calls s' = calls s ++ added ->
  (forall x, In x added -> is_dispose x = false) ->
  live_and_distinct s -> live_and_distinct s'.
Proof.
  intros Hreg Hnext Hcalls Hadded (Hnd & Hlt & Hlive & Honce & Hfresh).
  assert (Hd : forall h, disposals h (calls s') = disposals h (calls s)).
  { intros h. rewrite Hcalls, disposals_app, (disposals_none h added Hadded). lia. }
  unfold live_and_distinct. rewrite Hreg, Hnext.
  repeat split; try assumption; intros h; rewrite Hd; auto.
Qed.

Lemma live_same_fields (s s' : State) :
  pitchPlayers s' = pitchPlayers s ->
  next_handle s' = next_handle s ->
  calls s' = calls s ->
  live_and_distinct s -> live_and_distinct s'.
Proof.
  intros Hreg Hnext Hcalls. apply (live_extends s s' []); try assumption.
  - now rewrite app_nil_r.
  - intros x [].
Qed.

Lemma disposals_of_cleanup (h : Handle) (reg : list (Z * Chain)) :
  NoDup (handles_of reg) ->
  disposals h (disposal_calls reg)
  = List.length (filter (Nat.eqb h) (handles_of reg)).
Proof.
  induction reg as [| kc reg IH]; intros Hnd; [reflexivity |].
  unfold handles_of, disposal_calls in *. cbn [flat_map]. cbn [flat_map app] in Hnd.
  inversion Hnd as [| ? ? _ Hnd']; subst. inversion Hnd' as [| ? ? _ Hnd'']; subst.
  rewrite disposals_app, disposals_pair, filter_app, length_app, (IH Hnd'').
  cbn [filter]. rewrite (Nat.eqb_sym h (player (snd kc))),
    (Nat.eqb_sym h (shift_id (pitchShift (snd kc)))).
  destruct (Nat.eqb (player (snd kc)) h), (Nat.eqb (shift_id (pitchShift (snd kc))) h);
    reflexivity.
Qed.

Lemma NoDup_app_apart {A : Type} (l1 l2 : list A) (x : A) :
  NoDup (l1 ++ l2) -> In x l1 -> In x l2 -> False.
Proof.
  induction l1 as [| y l1 IH]; intros Hnd Hin Hx; [contradiction |].
  cbn in Hnd. inversion Hnd as [| ? ? Hy Hnd']; subst.
  destruct Hin as [-> | Hin]; [| now apply IH].
  apply Hy. apply in_or_app. now right.
Qed.

Lemma disposal_calls_handles (reg : list (Z * Chain)) (c : Call) (h : Handle) :
  In c (disposal_calls reg) -> disposed_by c = Some h -> In h (handles_of reg).
Proof.
  unfold disposal_calls, handles_of. intros Hc Hh. apply in_flat_map in Hc.
  destruct Hc as [kc [Hkc Hc]]. apply in_flat_map. exists kc. split; [exact Hkc |].
  destruct Hc as [<- | [<- | []]]; cbn in Hh; injection Hh as <-; cbn; tauto.
Qed.

(** Distinct objects are disposed of by distinct calls. *)
Lemma disposal_calls_NoDup (reg : list (Z * Chain)) :
  NoDup (handles_of reg) -> NoDup (disposal_calls reg).
Proof.
  induction reg as [| kc reg IH]; intros Hnd; [constructor |].
  unfold handles_of in Hnd. cbn [flat_map app] in Hnd. fold (handles_of reg) in Hnd.
  inversion Hnd as [| ? ? Hp Hnd']; subst. inversion Hnd' as [| ? ? Hq Hnd'']; subst.
  unfold disposal_calls. cbn [flat_map app]. fold (disposal_calls reg).
  constructor; [| constructor; [| now apply IH]].
  - intros [Heq | Hin]; [discriminate |].
    apply Hp. right. now apply (disposal_calls_handles reg _ _ Hin).
  - intros Hin. apply Hq. now apply (disposal_calls_handles reg _ _ Hin).
Qed.

Lemma disposals_outside (h : Handle) (reg : list (Z * Chain)) (n : nat) :
  ~ In h (handles_of reg) -> disposals h (firstn n (disposal_calls reg)) = 0%nat.
Proof.
  intros Hout. unfold disposals.
  destruct (filter (disposes h) (firstn n (disposal_calls reg))) as [| c l] eqn:Hf;
    [reflexivity |].
  exfalso. assert (Hc : In c (filter (disposes h) (firstn n (disposal_calls reg))))
    by (rewrite Hf; now left).
  apply filter_In in Hc. destruct Hc as [Hc Hd]. apply In_firstn in Hc.
  apply Hout. apply (disposal_calls_handles reg c); [exact Hc |].
  destruct c; try discriminate; cbn in *; apply Nat.eqb_eq in Hd; now subst.
Qed.

Lemma count_in_NoDup (h : Handle) (l : list Handle) :
  NoDup l ->
  List.length (filter (Nat.eqb h) l) = if in_dec Nat.eq_dec h l then 1%nat else 0%nat.
Proof.
  induction 1 as [| x l Hx Hnd IH]; [reflexivity |].
  cbn [filter]. destruct (Nat.eqb_spec h x) as [<- | Hne].
  - cbn [List.length]. rewrite IH.
    destruct (in_dec Nat.eq_dec h l); [contradiction |].
    destruct (in_dec Nat.eq_dec h (h :: l)) as [_ | Hn]; [reflexivity |].
    exfalso. apply Hn. now left.
  - rewrite IH. destruct (in_dec Nat.eq_dec h l) as [Hin | Hout];
      destruct (in_dec Nat.eq_dec h (x :: l)) as [Hin' | Hout']; try reflexivity.
    + exfalso. apply Hout'. now right.
    + destruct Hin' as [-> | Hin']; [now contradiction Hne | contradiction].
Qed.

Lemma add_NoDup (x : Z) (l : list Z) : NoDup l -> NoDup (JsSet.add x l).
Proof.
  intros Hnd. unfold JsSet.add. destruct (JsSet.has x l) eqn:Hx; [exact Hnd |].
  apply NoDup_app; [exact Hnd | repeat constructor; intros [] |].
  intros y Hy [<- | []]. apply set_has_In in Hy. congruence.
Qed.

Lemma delete_NoDup (x : Z) (l : list Z) : NoDup l -> NoDup (JsSet.delete x l).
Proof. unfold JsSet.delete. apply NoDup_filter. Qed.

Section RunInvariants.

Variable T : Tone.

Lemma step_live (op : Op) (s : State) :
  match op with Toggle _ => fst (handle T op s) = Returned tt | _ => True end ->
  live_and_distinct s -> live_and_distinct (step T op s).
Proof.
  intros Hret Hs. destruct op as [b | pitch | | t]; unfold step.
  - now apply (live_same_fields s).
  - destruct (JsSet.has pitch (activePitches s)) eqn:Hact.
    + fold (step T (Toggle pitch) s). rewrite (toggle_off_returned T pitch s Hact Hret).
      rewrite toggle_off_outcome in Hret by assumption.
      pose proof (release_live T pitch s Hret Hs) as Hr.
      rewrite (release_returned T pitch s Hret) in Hr.
      revert Hr. apply live_same_fields; reflexivity.
    + pose proof (ensure_live T (render s) pitch s Hs) as He.
      rewrite ensure_run, setupPitchPlayer_run in He.
      rewrite toggle_on_run by assumption.
      destruct (audioBlob s) as [b |]; [| now apply (live_same_fields s)].
      destruct (JsMap.has pitch (pitchPlayers s)); [now apply (live_same_fields s) |].
      cbn [snd] in He.
      destruct (decodes T b); cbn [snd];
        [now apply (live_same_fields (after_setup (render s) pitch s)) | exact He].
  - destruct (audioBlob s) as [b |] eqn:Hb;
      [| rewrite play_without_recording by assumption; exact Hs].
    rewrite (play_run T s b Hb).
    assert (H0 : live_and_distinct (log_call (CreateObjectURL b) (log_call ToneStart s))).
    { apply (live_extends s _ [ToneStart; CreateObjectURL b]); try reflexivity;
        [cbn; now rewrite <- app_assoc | | exact Hs].
      intros x [<- | [<- | []]]; reflexivity. }
    pose proof (for_each_invariant (ensure T (render s)) live_and_distinct (activePitches s)
                  (fun x s1 _ => ensure_live T (render s) x s1) _ H0) as H1.
    destruct (for_each (activePitches s) (ensure T (render s))
                       (log_call (CreateObjectURL b) (log_call ToneStart s)))
      as [[[] | e] s1]; cbn [snd] in *; [| exact H1].
    destruct (start_registered_run T s1) as [n [Hs1 _]]. rewrite Hs1.
    eapply (live_extends s1); try reflexivity; [| exact H1].
    intros x [<- | Hx]; [reflexivity |].
    apply in_map_iff in Hx. now destruct Hx as [kc [<- _]].
  - now apply (live_same_fields s).
Qed.

Lemma run_live (ops : list Op) (s : State) :
  no_toggle_rejected T ops s -> live_and_distinct s -> live_and_distinct (run T ops s).
Proof.
  revert s. induction ops as [| op ops IH]; intros s Hok Hs; [exact Hs |].
  destruct Hok as [Hop Hrest]. cbn. apply IH; [exact Hrest |]. now apply step_live.
Qed.

Lemma initial_live : live_and_distinct initial_state.
Proof.
  unfold live_and_distinct. cbn.
  repeat split; try (intros h []); auto using NoDup_nil.
Qed.

(** Run one at a time, the handlers keep the objects of the map distinct. *)
Lemma step_fresh (op : Op) (s : State) :
  registry_fresh s -> registry_fresh (step T op s).
Proof.
  intros Hs. destruct op as [b | pitch | | t].
  - exact Hs.
  - pose proof (react_all_sound T [Click_toggle pitch; Settle 0%nat] (mkWorld s true []) Hs)
      as [Hfresh _].
    now rewrite toggle_settled_at_once in Hfresh.
  - pose proof (react_all_sound T (Click_play :: repeat (Settle 0%nat)
                                                   (S (List.length (activePitches s))))
                                (mkWorld s true []) Hs) as [Hfresh _].
    now rewrite play_settled_in_turn in Hfresh.
  - exact Hs.
Qed.

Lemma run_fresh (ops : list Op) (s : State) :
  registry_fresh s -> registry_fresh (run T ops s).
Proof.
  revert s. induction ops as [| op ops IH]; intros s Hs; [exact Hs |].
  cbn. apply IH. now apply step_fresh.
Qed.

(** X12. The cleanup of the effect, in a state reached one handler at a
    time: it makes disposals only, in the order of the map, player before
    pitch-shift node, and leaves the map and the selection as they were (the
    entries are not removed). When it returns, every object of the map was
    disposed of by it exactly once - and, if no toggle was rejected before,
    exactly once altogether. When a disposal throws, the [forEach] ends
    there: the objects after it in the map are not disposed of. Objects
    outside the map are not touched. *)
Theorem cleanup_disposes_in_map_order (ops : list Op) :
  let s := run T ops initial_state in
  let s' := snd (cleanup T s) in
  pitchPlayers s' = pitchPlayers s
  /\ activePitches s' = activePitches s
  /\ (exists issued, calls_since s s' = firstn issued (disposal_calls (pitchPlayers s)))
  /\ (fst (cleanup T s) = Returned tt ->
      calls_since s s' = disposal_calls (pitchPlayers s)
      /\ (forall h, In h (handles_of (pitchPlayers s)) ->
                    disposals h (calls_since s s') = 1%nat)
      /\ (no_toggle_rejected T ops initial_state ->
          forall h, In h (handles_of (pitchPlayers s)) -> disposals h (calls s') = 1%nat))
  /\ (forall e, fst (cleanup T s) = Threw e ->
        exists before c h rest,
          disposal_calls (pitchPlayers s) = before ++ c :: rest
          /\ calls_since s s' = before ++ [c]
          /\ disposed_by c = Some h
          /\ e = DisposeThrew h
          /\ forall x, In x rest -> ~ In x (calls_since s s'))
  /\ (forall h, ~ In h (handles_of (pitchPlayers s)) ->
                disposals h (calls_since s s') = 0%nat).
Proof.
  intros s s'.
  assert (Hnd : NoDup (handles_of (pitchPlayers s))).
  { apply (run_fresh ops initial_state). split; [constructor | intros h []]. }
  destruct (cleanup_run T s) as (n & Hs' & Hret & Hthrew). fold s' in Hs'.
  assert (Hsince : calls_since s s' = firstn n (disposal_calls (pitchPlayers s))).
  { apply calls_since_app. now rewrite Hs'. }
  split; [now rewrite Hs' |]. split; [now rewrite Hs' |].
  split; [now exists n |]. split; [| split].
  - intros Hr. specialize (Hret Hr). rewrite Hret in Hsince.
    split; [exact Hsince |].
    assert (Hone : forall h, In h (handles_of (pitchPlayers s)) ->
                             disposals h (disposal_calls (pitchPlayers s)) = 1%nat).
    { intros h Hin. rewrite disposals_of_cleanup, count_in_NoDup by exact Hnd.
      now destruct (in_dec Nat.eq_dec h (handles_of (pitchPlayers s))). }
    split; [intros h Hin; rewrite Hsince; now apply Hone |].
    intros Hok h Hin.
    pose proof (run_live ops initial_state Hok initial_live) as (_ & _ & Hlive & _).
    fold s in Hlive. rewrite Hs'. cbn [calls].
    rewrite disposals_app, (Hlive h Hin), Hret. now apply Hone.
  - intros e He. destruct (Hthrew e He) as (before & c & h & Hb & Hc & Hh & _ & Hle).
    exists before, c, h, (skipn n (disposal_calls (pitchPlayers s))).
    split; [| split; [| split; [| split]]].
    + rewrite <- (firstn_skipn n (disposal_calls (pitchPlayers s))) at 1.
      rewrite Hb, <- app_assoc. reflexivity.
    + now rewrite Hsince.
    + exact Hc.
    + exact Hh.
    + intros x Hx Hin. rewrite Hsince in Hin.
      pose proof (disposal_calls_NoDup _ Hnd) as Hcalls.
      rewrite <- (firstn_skipn n (disposal_calls (pitchPlayers s))) in Hcalls.
      exact (NoDup_app_apart _ _ x Hcalls Hin Hx).
  - intros h Hout. rewrite Hsince. now apply disposals_outside.
Qed.

End RunInvariants.

(** ** Every pair is built and loaded once *)

Lemma setup_calls_touch (n : Handle) (pitch : Z) (blob : option Blob) (x : Call) (h : Handle) :
  In x (setup_calls n pitch blob) -> touches h x = true -> h = n \/ h = S n.
Proof.
  unfold setup_calls. intros Hx Ht. apply in_app_or in Hx. destruct Hx as [Hx | Hx].
  - cbn in Hx. destruct Hx as [<- | [<- | [<- | [<- | []]]]];
      cbn [touches shift_id pitchShift new_chain] in Ht;
      repeat match goal with
             | H : (_ || _) = true |- _ => apply orb_true_iff in H; destruct H
             | H : Nat.eqb _ _ = true |- _ => apply Nat.eqb_eq in H
             end; auto.
  - destruct blob; cbn in Hx; [| contradiction].
    destruct Hx as [<- | [<- | []]]; cbn [touches] in Ht; [discriminate |].
    apply Nat.eqb_eq in Ht. auto.
Qed.

Section BuiltOnceFacts.

Variable R : Handle -> Blob -> Prop.

Lemma built_objects_exist (s : State) (k : Z) (c : Chain) :
  log_fresh s -> built_once R s -> In (k, c) (pitchPlayers s) ->
  (player c < next_handle s)%nat /\ (shift_id (pitchShift c) < next_handle s)%nat.
Proof.
  intros Hfresh Hbuilt Hin.
  destruct (Hbuilt k c Hin) as (Hc & b & pre & post & _ & Hcalls & _).
  split.
  - apply (Hfresh (NewPlayer (player c))); [| cbn; apply Nat.eqb_refl].
    rewrite Hcalls. apply in_or_app. right. apply in_or_app. left. cbn. tauto.
  - apply (Hfresh (Connect (player c) (S (player c)))).
    + rewrite Hcalls. apply in_or_app. right. apply in_or_app. left. cbn. tauto.
    + rewrite Hc. cbn. rewrite Nat.eqb_refl. apply orb_true_r.
Qed.

(** Calls that are no loads and go to objects that exist keep both facts,
    also when entries leave the map. *)
Lemma built_once_extends (s s' : State) (added : list Call) :
  (forall kc, In kc (pitchPlayers s') -> In kc (pitchPlayers s)) ->
  (next_handle s <= next_handle s')%nat ->
  calls s' = calls s ++ added ->
  (forall x h, In x added -> touches h x = true -> (h < next_handle s')%nat) ->
  (forall x, In x added -> is_load x = false) ->
  log_fresh s /\ built_once R s -> log_fresh s' /\ built_once R s'.
Proof.
  intros Hreg Hnext Hcalls Htouch Hload [Hfresh Hbuilt]. split.
  - intros x h Hx Ht. rewrite Hcalls in Hx. apply in_app_or in Hx.
    destruct Hx as [Hx | Hx]; [| now apply (Htouch x)].
    specialize (Hfresh x h Hx Ht). lia.
  - intros k c Hin.
    destruct (Hbuilt k c (Hreg _ Hin)) as (Hc & b & pre & post & HR & Hlog & Hpre & Hpost).
    split; [exact Hc |]. exists b, pre, (post ++ added).
    split; [exact HR |]. split; [now rewrite Hcalls, Hlog, <- !app_assoc |].
    split; [exact Hpre |].
    intros x Hx. apply in_app_or in Hx. destruct Hx as [Hx | Hx]; [now apply Hpost |].
    specialize (Hload x Hx). now destruct x.
Qed.

Lemma built_once_same (s s' : State) :
  pitchPlayers s' = pitchPlayers s -> next_handle s' = next_handle s -> calls s' = calls s ->
  log_fresh s /\ built_once R s -> log_fresh s' /\ built_once R s'.
Proof.
  intros Hreg Hnext Hcalls. apply (built_once_extends s s' []).
  - intros kc. now rewrite Hreg.
  - lia.
  - now rewrite app_nil_r.
  - intros x h [].
  - intros x [].
Qed.

Lemma built_once_setup (r : Render) (b : Blob) (pitch : Z) (s : State) :
  seen_audioBlob r = Some b ->
  R (next_handle s) b ->
  JsMap.has pitch (pitchPlayers s) = false ->
  log_fresh s /\ built_once R s ->
  log_fresh (after_setup r pitch s) /\ built_once R (after_setup r pitch s).
Proof.
  intros Hr HRnew Hhas [Hfresh Hbuilt]. unfold after_setup. rewrite Hr. split.
  - intros x h Hx Ht. cbn [calls next_handle] in *. apply in_app_or in Hx.
    destruct Hx as [Hx | Hx].
    + specialize (Hfresh x h Hx Ht). lia.
    + destruct (setup_calls_touch _ _ _ _ _ Hx Ht); lia.
  - intros k c Hin. cbn [pitchPlayers calls] in *.
    rewrite map_set_fresh in Hin by assumption. apply in_app_or in Hin.
    destruct Hin as [Hin | [[= <- <-] | []]].
    + destruct (built_objects_exist s k c Hfresh Hbuilt Hin) as [Hlt _].
      destruct (Hbuilt k c Hin) as (Hc & b0 & pre & post & HR & Hlog & Hpre & Hpost).
      split; [exact Hc |]. exists b0, pre, (post ++ setup_calls (next_handle s) pitch (Some b)).
      split; [exact HR |]. split; [now rewrite Hlog, <- !app_assoc |]. split; [exact Hpre |].
      intros x Hx. apply in_app_or in Hx. destruct Hx as [Hx | Hx]; [now apply Hpost |].
      destruct (is_load_of (player c) x) eqn:Hl; [| reflexivity].
      assert (Ht : touches (player c) x = true) by (destruct x; try discriminate; exact Hl).
      destruct (setup_calls_touch _ _ _ _ _ Hx Ht); lia.
    + split; [reflexivity |]. cbn [new_chain player].
      exists b, (calls s), []. split; [exact HRnew |].
      split; [now rewrite app_nil_r |]. split; [| intros x []].
      intros x Hx. destruct (touches (next_handle s) x) eqn:Ht; [| reflexivity].
      specialize (Hfresh x _ Hx Ht). lia.
Qed.

End BuiltOnceFacts.

Lemma built_once_refine (R R' : Handle -> Blob -> Prop) (s : State) :
  (forall p b, (p < next_handle s)%nat -> R p b -> R' p b) ->
  log_fresh s -> built_once R s -> built_once R' s.
Proof.
  intros Himp Hfresh Hbuilt k c Hin.
  destruct (built_objects_exist R s k c Hfresh Hbuilt Hin) as [Hlt _].
  destruct (Hbuilt k c Hin) as (Hc & b & pre & post & HR & Hrest).
  split; [exact Hc |]. exists b, pre, post. split; [now apply Himp | exact Hrest].
Qed.

Section BuiltOnce.

Variable T : Tone.
Variable R : Handle -> Blob -> Prop.

Lemma built_once_ensure (r : Render) (b : Blob) (pitch : Z) (s0 s : State) :
  seen_audioBlob r = Some b ->
  (forall p, (next_handle s0 <= p)%nat -> R p b) ->
  built_since R s0 s -> built_since R s0 (snd (ensure T r pitch s)).
Proof.
  intros Hr HR (Hle & Hs). rewrite ensure_run.
  destruct (JsMap.has pitch (pitchPlayers s)) eqn:Hhas; [now split |].
  rewrite setupPitchPlayer_run. cbn [snd].
  split; [unfold after_setup; cbn [next_handle]; lia |].
  apply (built_once_setup R r b); auto.
Qed.

Lemma built_once_step (op : Op) (s : State) :
  (forall b p, audioBlob s = Some b -> (next_handle s <= p)%nat -> R p b) ->
  log_fresh s /\ built_once R s -> log_fresh (step T op s) /\ built_once R (step T op s).
Proof.
  intros HR Hs. destruct op as [b | pitch | | t].
  - now apply (built_once_same R s).
  - destruct (JsSet.has pitch (activePitches s)) eqn:Hact.
    + destruct (toggle_off_effect T pitch s Hact) as (n & act & reg & -> & Hreg & _).
      eapply (built_once_extends R s); cbn [pitchPlayers next_handle calls];
        [| lia | reflexivity | | | exact Hs].
      * intros kc Hin. destruct Hreg as [-> | ->]; [exact Hin |].
        now apply map_In_delete in Hin.
      * intros x h Hx Ht. apply In_firstn in Hx.
        destruct (JsMap.get pitch (pitchPlayers s)) as [c |] eqn:Hget; [| contradiction].
        apply map_get_In in Hget. destruct Hs as [Hfresh Hbuilt].
        destruct (built_objects_exist R s pitch c Hfresh Hbuilt Hget) as [Hp Hq].
        destruct Hx as [<- | [<- | []]]; cbn in Ht; apply Nat.eqb_eq in Ht; now subst h.
      * intros x Hx. apply In_firstn in Hx.
        destruct (JsMap.get pitch (pitchPlayers s)); [| contradiction].
        destruct Hx as [<- | [<- | []]]; reflexivity.
    + unfold step. rewrite toggle_on_run by assumption.
      assert (Hsame : forall a, log_fresh (set_activePitches a s)
                                /\ built_once R (set_activePitches a s)).
      { intros a. now apply (built_once_same R s). }
      destruct (audioBlob s) as [b |] eqn:Hb; [| apply Hsame].
      destruct (JsMap.has pitch (pitchPlayers s)) eqn:Hhas; [apply Hsame |].
      pose proof (built_once_setup R (render s) b pitch s Hb
                    (HR b (next_handle s) eq_refl (le_n _)) Hhas Hs) as Hsetup.
      destruct (decodes T b); cbn [snd]; [| exact Hsetup].
      now apply (built_once_same R (after_setup (render s) pitch s)).
  - unfold step. destruct (audioBlob s) as [b |] eqn:Hb;
      [| rewrite play_without_recording by assumption; exact Hs].
    rewrite (play_run T s b Hb).
    assert (H0 : built_since R s (log_call (CreateObjectURL b) (log_call ToneStart s))).
    { split; [cbn; lia |].
      apply (built_once_extends R s _ [ToneStart; CreateObjectURL b]); cbn [log_call pitchPlayers
        next_handle calls]; auto; [now rewrite <- app_assoc | |].
      - intros x h [<- | [<- | []]] Ht; discriminate.
      - intros x [<- | [<- | []]]; reflexivity. }
    pose proof (for_each_invariant (ensure T (render s)) (built_since R s) (activePitches s)
                  (fun x s1 _ => built_once_ensure (render s) b x s s1 Hb
                                   (fun p Hp => HR b p eq_refl Hp)) _ H0) as (_ & H1).
    destruct (for_each (activePitches s) (ensure T (render s))
                       (log_call (CreateObjectURL b) (log_call ToneStart s)))
      as [[[] | e] s1]; cbn [snd] in *; [| exact H1].
    destruct (start_registered_run T s1) as [n [Hs1 _]]. rewrite Hs1.
    eapply (built_once_extends R s1); cbn [pitchPlayers next_handle calls];
      [auto | lia | reflexivity | | | exact H1].
    + intros x h [<- | Hx] Ht; [discriminate |].
      apply in_map_iff in Hx. destruct Hx as [[k c] [<- Hkc]]. cbn in Ht.
      apply Nat.eqb_eq in Ht. subst h. apply In_firstn in Hkc.
      destruct H1 as [Hfresh Hbuilt].
      now destruct (built_objects_exist R s1 k c Hfresh Hbuilt Hkc).
    + intros x [<- | Hx]; [reflexivity |].
      apply in_map_iff in Hx. now destruct Hx as [kc [<- _]].
  - now apply (built_once_same R s).
Qed.

End BuiltOnce.

Section BuiltDuring.

Variable T : Tone.

Lemma run_snoc (ops : list Op) (op : Op) (s : State) :
  run T (ops ++ [op]) s = step T op (run T ops s).
Proof. unfold run. now rewrite fold_left_app. Qed.

Lemma built_during_runs (todo done : list Op) :
  log_fresh (run T done initial_state)
  /\ built_once (built_during T (done ++ todo)) (run T done initial_state) ->
  log_fresh (run T (done ++ todo) initial_state)
  /\ built_once (built_during T (done ++ todo)) (run T (done ++ todo) initial_state).
Proof.
  revert done. induction todo as [| op todo IH]; intros done Hs;
    [now rewrite app_nil_r in * |].
  replace (done ++ op :: todo) with ((done ++ [op]) ++ todo) in *
    by (now rewrite <- app_assoc).
  apply IH. rewrite run_snoc.
  set (s := run T done initial_state) in *.
  set (R := built_during T ((done ++ [op]) ++ todo)) in *.
  set (R' := fun p b => R p b \/ (audioBlob s = Some b /\ (next_handle s <= p)%nat)).
  assert (Hs' : log_fresh s /\ built_once R' s).
  { destruct Hs as [Hfresh Hbuilt]. split; [exact Hfresh |].
    apply (built_once_refine R R'); [| exact Hfresh | exact Hbuilt].
    intros p b _ HR. now left. }
  pose proof (built_once_step T R' op s (fun b p Hb Hp => or_intror (conj Hb Hp)) Hs')
    as [Hfresh1 Hbuilt1].
  split; [exact Hfresh1 |].
  apply (built_once_refine R' R); [| exact Hfresh1 | exact Hbuilt1].
  intros p b Hlt [HR | [Hb Hp]]; [exact HR |].
  exists done, op, todo. split; [now rewrite <- app_assoc |].
  fold s. repeat split; assumption.
Qed.

(** X13. After any sequence of operations run one at a time, every pair in
    the map is the work of one complete run of [setupPitchPlayer] for the
    offset it is stored under: a player and a pitch-shift node with that
    pitch, a window of 0.1 and no delay, the player taken off the
    destination and connected to the node, and the player asked once to
    load a recording. That recording is the one the component held when the
    handler that built the pair began: the pair was built by one operation
    of the sequence, and the recording loaded is [audioBlob] of the state in
    which that operation started. No later call loads that player again, so
    a new recording does not reach the pairs that exist. *)
Theorem every_chain_is_built_and_loaded_once (ops : list Op) :
  built_once (built_during T ops) (run T ops initial_state).
Proof.
  apply (built_during_runs ops []). split; [intros c h [] | intros k c []].
Qed.

End BuiltDuring.

(** ** One voice per selected offset *)

Section Voices.

Variable T : Tone.

Lemma step_selection_NoDup (op : Op) (s : State) :
  NoDup (activePitches s) -> NoDup (activePitches (step T op s)).
Proof.
  intros Hs. destruct op as [b | pitch | | t]; unfold step.
  - exact Hs.
  - destruct (JsSet.has pitch (activePitches s)) eqn:Hact.
    + fold (step T (Toggle pitch) s).
      destruct (toggle_off_effect T pitch s Hact) as (n & act & reg & -> & _ & Hsel).
      cbn [activePitches]. destruct Hsel as [-> | ->]; [exact Hs | now apply delete_NoDup].
    + rewrite toggle_on_run by assumption.
      destruct (audioBlob s) as [b |]; [| now apply add_NoDup].
      destruct (JsMap.has pitch (pitchPlayers s)); [now apply add_NoDup |].
      destruct (decodes T b); [now apply add_NoDup | exact Hs].
  - destruct (audioBlob s) as [b |] eqn:Hb.
    + destruct (play_final_state T s b Hb) as (_ & Hact & _). unfold step in Hact.
      now rewrite Hact.
    + now rewrite play_without_recording.
  - exact Hs.
Qed.

Lemma run_selection_NoDup (ops : list Op) (s : State) :
  NoDup (activePitches s) -> NoDup (activePitches (run T ops s)).
Proof.
  revert s. induction ops as [| op ops IH]; intros s Hs; [exact Hs |].
  cbn. apply IH. now apply step_selection_NoDup.
Qed.

(** What a play that returns has done: the calls it added and the pairs
    the map holds afterwards. *)
Lemma play_returned_shape (s : State) (b : Blob) :
  audioBlob s = Some b ->
  fst (handle T Play s) = Returned tt ->
  (exists prepared,
      calls_since s (step T Play s)
      = prepared ++ ToneNow (clock s)
          :: map (fun kc => PlayerStart (player (snd kc)) (clock s))
                 (pitchPlayers (step T Play s))
      /\ filter is_start prepared = [])
  /\ (forall k, In k (activePitches s) -> JsMap.has k (pitchPlayers (step T Play s)) = true).
Proof.
  intros Hb Hret. unfold step. rewrite (play_run T s b Hb) in *.
  set (s0 := log_call (CreateObjectURL b) (log_call ToneStart s)) in *.
  pose proof (ensure_loop_prepares T (render s) (activePitches s) s0)
    as (_ & _ & Hclock & (added & Hcalls & _ & Hstart) & _).
  pose proof (for_each_returned (ensure T (render s))
                (fun k s1 => JsMap.has k (pitchPlayers s1) = true) (activePitches s)
                (fun x s1 _ => ensure_registers T (render s) x s1)
                (fun x y s1 => ensure_keeps_keys T (render s) x y s1) s0) as Hall.
  destruct (for_each (activePitches s) (ensure T (render s)) s0) as [[[] | e] s1];
    cbn [fst snd] in *; [| discriminate].
  destruct (start_registered_run T s1) as [n [Hs Hfull]].
  rewrite Hs, (Hfull Hret). cbn [pitchPlayers]. split.
  - exists ([ToneStart; CreateObjectURL b] ++ added). split.
    + apply calls_since_app. cbn [calls]. rewrite Hcalls, Hclock. unfold s0. cbn.
      now rewrite <- !app_assoc.
    + cbn. exact Hstart.
  - intros k Hk. now apply Hall.
Qed.

Lemma filter_starts (t : Seconds) (reg : list (Z * Chain)) :
  filter is_start (map (fun kc => PlayerStart (player (snd kc)) t) reg)
  = map (fun kc => PlayerStart (player (snd kc)) t) reg.
Proof. induction reg as [| kc reg IH]; [reflexivity |]. cbn. now rewrite IH. Qed.

(** X14. In a state reached from the initial state with the handlers run
    one at a time, each to its end, and without a rejected toggle, a play
    that has a recording and returns leaves the map with exactly the
    selected offsets as its keys, each once, and has started exactly one
    player for each selected offset: as many starts as offsets are selected,
    all with the one clock reading. (When a click overtakes a pending load
    the map can hold a pair whose offset is not selected, and play starts
    it too.) *)
Theorem play_sounds_one_voice_per_selected_offset (ops : list Op) (b : Blob) :
  let s := run T ops initial_state in
  let s' := step T Play s in
  no_toggle_rejected T ops initial_state ->
  audioBlob s = Some b ->
  fst (handle T Play s) = Returned tt ->
  Permutation (JsMap.keys (pitchPlayers s')) (activePitches s)
  /\ filter is_start (calls_since s s')
     = map (fun kc => PlayerStart (player (snd kc)) (clock s)) (pitchPlayers s')
  /\ List.length (filter is_start (calls_since s s')) = List.length (activePitches s).
Proof.
  intros s s' Hok Hb Hret.
  assert (Hnd : NoDup (activePitches s)).
  { apply run_selection_NoDup. cbn. repeat constructor. intros []. }
  pose proof (run_keys_selected T ops initial_state Hok (initial_keys_selected)) as Hsel.
  fold s in Hsel.
  pose proof (step_keys_selected T Play s I Hsel) as Hsel'. fold s' in Hsel'.
  destruct (run_one_pair T (ops ++ [Play]) initial_state initial_one_pair) as [Hkeys _].
  unfold run in Hkeys. rewrite fold_left_app in Hkeys. cbn [fold_left] in Hkeys.
  fold (run T ops initial_state) in Hkeys. fold s in Hkeys. fold s' in Hkeys.
  destruct (play_final_state T s b Hb) as (_ & Hact & _). fold s' in Hact.
  destruct (play_returned_shape s b Hb Hret) as [[prepared [Hcalls Hstart]] Hall].
  fold s' in Hcalls, Hall.
  assert (Hperm : Permutation (JsMap.keys (pitchPlayers s')) (activePitches s)).
  { apply NoDup_Permutation; [exact Hkeys | exact Hnd |]. intros k. split.
    - intros Hk. apply map_has_In in Hk. apply Hsel' in Hk. rewrite Hact in Hk.
      now apply set_has_In.
    - intros Hk. apply map_has_In. now apply Hall. }
  assert (Hfilter : filter is_start (calls_since s s')
                    = map (fun kc => PlayerStart (player (snd kc)) (clock s))
                          (pitchPlayers s')).
  { rewrite Hcalls, filter_app, Hstart. cbn [app filter is_now is_start].
    apply filter_starts. }
  split; [exact Hperm |]. split; [exact Hfilter |].
  rewrite Hfilter, length_map, <- (Permutation_length Hperm).
  unfold JsMap.keys. now rewrite length_map.
Qed.

End Voices.

(** ** Clicks that overtake a pending load *)

Section Overtaking.

Variable T : Tone.

(** X15. Two grid buttons clicked one after the other, the second before
    the load of the first has settled: both handlers read the selection of
    the same render, so the one that resumes last overwrites the selection
    of the other. With a recording that decodes, two offsets [a] and [c]
    that are neither selected nor in the map, the selection ends as the old
    one plus [c] alone, [a] is not selected, and the map holds a pair for
    [a] as well as for [c]. Served one at a time, the same two clicks
    select both. *)
Theorem overtaking_click_drops_the_first_selection (s : State) (b : Blob) (a c : Z) :
  audioBlob s = Some b ->
  decodes T b = true ->
  a <> c ->
  JsSet.has a (activePitches s) = false ->
  JsSet.has c (activePitches s) = false ->
  JsMap.has a (pitchPlayers s) = false ->
  JsMap.has c (pitchPlayers s) = false ->
  let w := react_all T [Click_toggle a; Click_toggle c; Settle 0; Settle 0]
                     (mkWorld s true []) in
  pending w = []
  /\ activePitches (comp w) = JsSet.add c (activePitches s)
  /\ JsSet.has a (activePitches (comp w)) = false
  /\ JsMap.has a (pitchPlayers (comp w)) = true
  /\ JsMap.has c (pitchPlayers (comp w)) = true
  /\ JsSet.has a (activePitches (run T [Toggle a; Toggle c] s)) = true.
Proof.
  intros Hb Hdec Hac Ha Hc Hma Hmc w.
  assert (Hw : exists s1 s2,
             w = mkWorld (set_activePitches (JsSet.add c (activePitches s))
                            (set_activePitches (JsSet.add a (activePitches s)) s2)) true []
             /\ pitchPlayers s1 = JsMap.set a (new_chain (next_handle s) a) (pitchPlayers s)
             /\ pitchPlayers s2 = JsMap.set c (new_chain (next_handle s1) c) (pitchPlayers s1)).
  { unfold w. rewrite !react_all_cons. cbn [react_all fold_left].
    change (react T (Click_toggle a) (mkWorld s true []))
      with (togglePitch_begin T a (mkWorld s true [])).
    unfold togglePitch_begin at 1. cbn [comp render seen_activePitches seen_audioBlob].
    rewrite Ha, Hb, Hma, setup_to_await_run. cbn [render seen_audioBlob]. rewrite Hb.
    cbn [option_map]. unfold suspend at 1. cbn [mounted pending app].
    set (s1 := after_setup (render s) a s).
    assert (Hs1 : activePitches s1 = activePitches s /\ audioBlob s1 = Some b
                  /\ JsMap.has c (pitchPlayers s1) = false
                  /\ pitchPlayers s1
                     = JsMap.set a (new_chain (next_handle s) a) (pitchPlayers s)).
    { unfold s1, after_setup. cbn [activePitches audioBlob pitchPlayers].
      repeat split; try assumption. rewrite map_has_set, Hmc.
      destruct (Z.eqb_spec c a) as [Heq | _]; [now subst c | reflexivity]. }
    destruct Hs1 as (Hact1 & Hb1 & Hmc1 & Hreg1). clearbody s1.
    match goal with
    | |- context [react T (Click_toggle c) ?w0] =>
        change (react T (Click_toggle c) w0) with (togglePitch_begin T c w0)
    end.
    unfold togglePitch_begin. cbn [comp render seen_activePitches seen_audioBlob].
    rewrite Hact1, Hc, Hb1, Hmc1, setup_to_await_run. cbn [render seen_audioBlob].
    rewrite Hb1. cbn [option_map]. unfold suspend. cbn [mounted pending app].
    exists s1, (after_setup (render s1) c s1).
    set (s2 := after_setup (render s1) c s1).
    assert (Hs2 : pitchPlayers s2
                  = JsMap.set c (new_chain (next_handle s1) c) (pitchPlayers s1)).
    { reflexivity. }
    clearbody s2.
    cbn [react nth_error pending comp mounted remove_nth resume]. rewrite Hdec.
    cbn [mounted continue comp pending nth_error remove_nth resume]. rewrite Hdec.
    cbn [mounted continue comp pending].
    split; [reflexivity |]. split; assumption. }
  destruct Hw as (s1 & s2 & Hw & Hreg1 & Hs2). clearbody w. subst w.
  cbn [comp pending set_activePitches activePitches pitchPlayers].
  split; [reflexivity |]. split; [reflexivity |].
  split.
  { rewrite set_has_add, Ha. destruct (Z.eqb_spec a c) as [Heq | _]; [contradiction | reflexivity]. }
  split.
  { rewrite Hs2, Hreg1, !map_has_set, Z.eqb_refl. cbn. apply orb_true_r. }
  split.
  { now rewrite Hs2, map_has_set, Z.eqb_refl. }
  cbn [run fold_left].
  assert (Hca : (c =? a) = false) by (apply Z.eqb_neq; congruence).
  assert (Hret : fst (handle T (Toggle a) s) = Returned tt).
  { apply toggle_on_returns_if_decodable; [exact Ha |]. intros b0 Hb0. rewrite Hb in Hb0.
    now injection Hb0 as <-. }
  pose proof (toggle_returned_selection T a s Hret) as Hsel. rewrite Ha in Hsel.
  assert (Hret' : fst (handle T (Toggle c) (step T (Toggle a) s)) = Returned tt).
  { apply toggle_on_returns_if_decodable.
    - now rewrite Hsel, set_has_add, Hc, Hca.
    - intros b0 Hb0. rewrite toggle_keeps_recording, Hb in Hb0. now injection Hb0 as <-. }
  rewrite (toggle_returned_selection T c _ Hret'), Hsel.
  rewrite !set_has_add, Hc. rewrite Hca. cbn [orb].
  rewrite !set_has_add, Z.eqb_refl. cbn. apply orb_true_r.
Qed.

(** X16. A second click on the same grid button before its load has
    settled does not switch the offset off again: the second handler still
    reads the old selection, finds the pair already in the map and selects
    the offset. Whether the load succeeds or not, the offset ends selected
    and the map holds the one pair the first click built; no second pair is
    built and nothing is disposed of. *)
Theorem double_click_leaves_the_offset_selected (s : State) (b : Blob) (a : Z) :
  audioBlob s = Some b ->
  JsSet.has a (activePitches s) = false ->
  JsMap.has a (pitchPlayers s) = false ->
  let w := react_all T [Click_toggle a; Click_toggle a; Settle 0] (mkWorld s true []) in
  pending w = []
  /\ activePitches (comp w) = JsSet.add a (activePitches s)
  /\ pitchPlayers (comp w) = pitchPlayers s ++ [(a, new_chain (next_handle s) a)]
  /\ calls (comp w) = calls s ++ setup_calls (next_handle s) a (Some b).
Proof.
  intros Hb Ha Hma w.
  cut (exists s1, w = mkWorld (set_activePitches (JsSet.add a (activePitches s)) s1) true []
                  /\ pitchPlayers s1 = pitchPlayers s ++ [(a, new_chain (next_handle s) a)]
                  /\ calls s1 = calls s ++ setup_calls (next_handle s) a (Some b)).
  { intros (s1 & Hw & Hreg1 & Hcalls1). clearbody w. subst w.
    cbn [comp pending set_activePitches activePitches pitchPlayers calls].
    repeat split; assumption. }
  unfold w. rewrite !react_all_cons. cbn [react_all fold_left].
  change (react T (Click_toggle a) (mkWorld s true []))
    with (togglePitch_begin T a (mkWorld s true [])).
  unfold togglePitch_begin at 1. cbn [comp render seen_activePitches seen_audioBlob].
  rewrite Ha, Hb, Hma, setup_to_await_run. cbn [render seen_audioBlob]. rewrite Hb.
  cbn [option_map]. unfold suspend at 1. cbn [mounted pending app].
  exists (after_setup (render s) a s).
  set (s1 := after_setup (render s) a s).
  assert (Hs1 : activePitches s1 = activePitches s /\ audioBlob s1 = Some b
                /\ JsMap.has a (pitchPlayers s1) = true
                /\ pitchPlayers s1 = pitchPlayers s ++ [(a, new_chain (next_handle s) a)]
                /\ calls s1 = calls s ++ setup_calls (next_handle s) a (Some b)).
  { unfold s1, after_setup. cbn [activePitches audioBlob pitchPlayers calls render seen_audioBlob].
    rewrite Hb. repeat split; try assumption.
    - now rewrite map_has_set, Z.eqb_refl.
    - now apply map_set_fresh. }
  destruct Hs1 as (Hact1 & Hb1 & Hma1 & Hreg1 & Hcalls1). clearbody s1.
  match goal with
  | |- context [react T (Click_toggle a) ?w0] =>
      change (react T (Click_toggle a) w0) with (togglePitch_begin T a w0)
  end.
  unfold togglePitch_begin. cbn [comp render seen_activePitches seen_audioBlob].
  rewrite Hact1, Ha, Hb1, Hma1. unfold continue. cbn [mounted pending].
  cbn [react nth_error pending comp mounted remove_nth resume].
  destruct (decodes T b); cbn [mounted continue comp pending];
    (split; [| split; assumption]).
  - reflexivity.
  - reflexivity.
Qed.

End Overtaking.

(** * More concrete runs *)

Lemma grid_holds_each_offset_once_witness :
  (3 < 12)%nat
  /\ nth 3 (nth 0 pitchRows []) 0 = -4
  /\ nth 3 (nth 2 pitchRows []) 0 = 4
  /\ In (-12) (List.concat pitchRows).
Proof.
  destruct grid_holds_each_offset_once as (_ & Hin & Hnth & _).
  split; [lia |].
  destruct (Hnth 3%nat ltac:(lia)) as [Hdown Hup].
  split; [exact Hdown |]. split; [exact Hup |].
  apply Hin. lia.
Defined.

Lemma pitch_labels_are_distinct_witness :
  pitchLabel 7 = pitchLabel (3 + 4) /\ 7 = 3 + 4.
Proof.
  split; [reflexivity |].
  exact (pitch_labels_are_distinct 7 (3 + 4) eq_refl).
Defined.

Lemma grid_button_green_iff_selected_witness :
  JsSet.has 4 [0; 4] = true /\ gridButtonColour [0; 4] 4 = style_active.
Proof.
  split; [reflexivity |].
  apply (proj2 (grid_button_green_iff_selected [0; 4] 4)). reflexivity.
Defined.

Lemma interval_style_symmetric_and_bounded_witness :
  12 < Z.abs (-13)
  /\ getIntervalStyle (- (-13)) = getIntervalStyle (-13)
  /\ getIntervalStyle (-13) = style_dissonant.
Proof.
  destruct (interval_style_symmetric_and_bounded (-13)) as [Hsym Hfar].
  split; [cbn; lia |]. split; [exact Hsym |].
  apply Hfar. cbn. lia.
Defined.

Lemma take_delivers_the_recorded_bytes_witness :
  let stream := mkMediaStream [0%nat; 1%nat] in
  let u' := studio_run tone_js
              [Record_button (Some stream); Data_available riff_blob;
               Record_button None; Data_available empty_blob; Recorder_stops]
              initial_studio in
  isRecording (capture initial_studio) = false
  /\ audioBlob (engine u') = Some riff_blob
  /\ capture_calls (capture u')
     = [GetUserMedia; NewMediaRecorder stream; RecorderStart; RecorderStop;
        TrackStop 0%nat; TrackStop 1%nat].
Proof.
  intros stream u'. split; [reflexivity |].
  destruct (take_delivers_the_recorded_bytes tone_js initial_studio stream None
              [riff_blob] [empty_blob] eq_refl)
    as (Hblob & _ & _ & _ & _ & _ & Hcalls).
  split; [exact Hblob | exact Hcalls].
Defined.

Lemma record_button_alternates_witness :
  let c := capture (studio_run tone_js [Record_button (Some (mkMediaStream [0%nat]))]
                               initial_studio) in
  isRecording c = true
  /\ recorder_balance (capture_calls c) = Some true
  /\ mediaRecorderRef c <> None.
Proof.
  intros c.
  destruct (record_button_alternates tone_js [Record_button (Some (mkMediaStream [0%nat]))])
    as (_ & Hlabel & Href).
  split; [reflexivity |]. split.
  - apply (proj1 Hlabel). reflexivity.
  - apply Href. reflexivity.
Defined.

Lemma buttons_are_dead_before_a_take_witness :
  let es := [Play_button; Grid_button 4; Record_button (Some (mkMediaStream [0%nat]));
             Data_available riff_blob; Grid_button 7; Play_button] in
  existsb is_recorder_stop es = false
  /\ calls (engine (studio_run tone_js es initial_studio)) = []
  /\ activePitches (engine (studio_run tone_js es initial_studio)) = [0].
Proof.
  intros es. split; [reflexivity |].
  destruct (buttons_are_dead_before_a_take tone_js es eq_refl) as (_ & Hact & _ & Hcalls).
  split; [exact Hcalls | exact Hact].
Defined.


(** A pair that was never started is released; a pair whose player was
    started without a buffer cannot be disposed of, and stays. *)
Lemma toggle_off_releases_witness :
  let s := run tone_js [Recorded riff_blob; Toggle 4] initial_state in
  let v := run tone_js [Recorded empty_blob; Toggle 0; Toggle 3; Toggle 3; Play]
               initial_state in
  (JsSet.has 4 (activePitches s) = true
   /\ fst (handle tone_js (Toggle 4) s) = Returned tt
   /\ JsMap.has 4 (pitchPlayers (step tone_js (Toggle 4) s)) = false
   /\ calls_since s (step tone_js (Toggle 4) s) = [DisposePlayer 0%nat; DisposeShift 1%nat])
  /\ (JsSet.has 3 (activePitches v) = true
      /\ fst (handle tone_js (Toggle 3) v) = Threw (DisposeThrew 0%nat)
      /\ exists c,
           JsMap.get 3 (pitchPlayers v) = Some c
           /\ activePitches (step tone_js (Toggle 3) v) = activePitches v
           /\ pitchPlayers (step tone_js (Toggle 3) v) = pitchPlayers v
           /\ ((DisposeThrew 0%nat = DisposeThrew (player c)
                /\ calls_since v (step tone_js (Toggle 3) v) = [DisposePlayer (player c)])
               \/ (DisposeThrew 0%nat = DisposeThrew (shift_id (pitchShift c))
                   /\ calls_since v (step tone_js (Toggle 3) v)
                      = [DisposePlayer (player c);
                         DisposeShift (shift_id (pitchShift c))]))).
Proof.
  intros s v. split.
  - split; [reflexivity |]. split; [reflexivity |].
    destruct (toggle_off_releases tone_js s 4 eq_refl) as (_ & Hret & _).
    destruct (Hret eq_refl) as (_ & Hmap & Hcalls).
    split; [exact Hmap | exact Hcalls].
  - split; [reflexivity |]. split; [reflexivity |].
    destruct (toggle_off_releases tone_js v 3 eq_refl) as (_ & _ & Hthrew & _).
    exact (Hthrew (DisposeThrew 0%nat) eq_refl).
Defined.



(** Two pairs that were never started are disposed of by the cleanup; when
    the player of the first pair was started without a buffer, its disposal
    throws and the second pair is not disposed of. *)
Lemma cleanup_disposes_in_map_order_witness :
  let ops := [Recorded riff_blob; Toggle 4; Toggle 7; Toggle 0] in
  let s := run tone_js ops initial_state in
  let bad := [Recorded empty_blob; Toggle 0; Toggle 3; Toggle 3; Play;
              Recorded riff_blob; Toggle 4] in
  let v := run tone_js bad initial_state in
  (fst (cleanup tone_js s) = Returned tt
   /\ no_toggle_rejected tone_js ops initial_state
   /\ In 2%nat (handles_of (pitchPlayers s))
   /\ calls_since s (snd (cleanup tone_js s))
      = [DisposePlayer 0%nat; DisposeShift 1%nat; DisposePlayer 2%nat; DisposeShift 3%nat]
   /\ disposals 2%nat (calls (snd (cleanup tone_js s))) = 1%nat)
  /\ (fst (cleanup tone_js v) = Threw (DisposeThrew 0%nat)
      /\ JsMap.keys (pitchPlayers v) = [3; 4]
      /\ exists before c h rest,
           disposal_calls (pitchPlayers v) = before ++ c :: rest
           /\ calls_since v (snd (cleanup tone_js v)) = before ++ [c]
           /\ disposed_by c = Some h
           /\ DisposeThrew 0%nat = DisposeThrew h
           /\ forall x, In x rest -> ~ In x (calls_since v (snd (cleanup tone_js v)))).
Proof.
  intros ops s bad v. split.
  - assert (Hok : no_toggle_rejected tone_js ops initial_state).
    { cbn [no_toggle_rejected ops]. repeat split; reflexivity. }
    assert (H2 : In 2%nat (handles_of (pitchPlayers s))) by (cbn; tauto).
    destruct (cleanup_disposes_in_map_order tone_js ops) as (_ & _ & _ & Hret & _).
    destruct (Hret eq_refl) as (Hcalls & _ & Honce).
    split; [reflexivity |]. split; [exact Hok |]. split; [exact H2 |].
    split; [exact Hcalls | exact (Honce Hok 2%nat H2)].
  - split; [reflexivity |]. split; [reflexivity |].
    destruct (cleanup_disposes_in_map_order tone_js bad) as (_ & _ & _ & _ & Hthrew & _).
    exact (Hthrew (DisposeThrew 0%nat) eq_refl).
Defined.

(** The pair of +4 was built by the second operation and loaded the
    recording of the first; the later recording did not reach it. *)
Lemma every_chain_is_built_and_loaded_once_witness :
  let ops := [Recorded riff_blob; Toggle 4; Recorded empty_blob; Toggle 0; Play] in
  let s := run tone_js ops initial_state in
  In (4, new_chain 0%nat 4) (pitchPlayers s)
  /\ audioBlob s = Some empty_blob
  /\ exists b pre post,
       built_during tone_js ops 0%nat b
       /\ calls s = pre ++ setup_calls 0%nat 4 (Some b) ++ post
       /\ (forall x, In x pre -> touches 0%nat x = false)
       /\ (forall x, In x post -> is_load_of 0%nat x = false).
Proof.
  intros ops s.
  assert (Hin : In (4, new_chain 0%nat 4) (pitchPlayers s)) by (cbn; tauto).
  split; [exact Hin |]. split; [reflexivity |].
  exact (proj2 (every_chain_is_built_and_loaded_once tone_js ops
                  4 (new_chain 0%nat 4) Hin)).
Defined.

Lemma play_sounds_one_voice_per_selected_offset_witness :
  let ops := [Recorded riff_blob; Toggle 4; Toggle 7; Toggle 0] in
  let s := run tone_js ops initial_state in
  no_toggle_rejected tone_js ops initial_state
  /\ audioBlob s = Some riff_blob
  /\ fst (handle tone_js Play s) = Returned tt
  /\ Permutation (JsMap.keys (pitchPlayers (step tone_js Play s))) [4; 7]
  /\ List.length (filter is_start (calls_since s (step tone_js Play s))) = 2%nat.
Proof.
  intros ops s.
  assert (Hok : no_toggle_rejected tone_js ops initial_state).
  { cbn [no_toggle_rejected ops]. repeat split; reflexivity. }
  split; [exact Hok |]. split; [reflexivity |]. split; [reflexivity |].
  destruct (play_sounds_one_voice_per_selected_offset tone_js ops riff_blob Hok eq_refl eq_refl)
    as (Hperm & _ & Hlen).
  split; [exact Hperm | exact Hlen].
Defined.

Lemma overtaking_click_drops_the_first_selection_witness :
  let s := run tone_js [Recorded riff_blob] initial_state in
  let w := react_all tone_js [Click_toggle 4; Click_toggle 7; Settle 0%nat; Settle 0%nat]
                     (mkWorld s true []) in
  4 <> 7
  /\ activePitches (comp w) = [0; 7]
  /\ JsMap.has 4 (pitchPlayers (comp w)) = true
  /\ JsSet.has 4 (activePitches (run tone_js [Toggle 4; Toggle 7] s)) = true.
Proof.
  intros s w. split; [lia |].
  destruct (overtaking_click_drops_the_first_selection tone_js s riff_blob 4 7
              eq_refl eq_refl ltac:(lia) eq_refl eq_refl eq_refl eq_refl)
    as (_ & Hsel & _ & Hmap & _ & Hseq).
  split; [exact Hsel |]. split; [exact Hmap | exact Hseq].
Defined.

Lemma double_click_leaves_the_offset_selected_witness :
  let s := run tone_js [Recorded empty_blob] initial_state in
  let w := react_all tone_js [Click_toggle 4; Click_toggle 4; Settle 0%nat]
                     (mkWorld s true []) in
  audioBlob s = Some empty_blob
  /\ activePitches (comp w) = [0; 4]
  /\ pitchPlayers (comp w) = [(4, new_chain 0%nat 4)].
Proof.
  intros s w. split; [reflexivity |].
  destruct (double_click_leaves_the_offset_selected tone_js s empty_blob 4
              eq_refl eq_refl eq_refl) as (_ & Hsel & Hmap & _).
  split; [exact Hsel | exact Hmap].
Defined.

Lemma second_record_click_leaves_a_recorder_running_witness :
  let first := mkMediaStream [0%nat] in
  let second := mkMediaStream [1%nat] in
  let w := capture_react_all [Click_record; Click_record;
                              Microphone_answers (Some first);
                              Microphone_answers (Some second);
                              Click_record] (mkCaptureWorld initial_capture 0) in
  isRecording initial_capture = false
  /\ recorder_balance (capture_calls (cap w)) = None
  /\ existsb (stops_track 0%nat) (capture_calls (cap w)) = false.
Proof.
  intros first second w. split; [reflexivity |].
  destruct (second_record_click_leaves_a_recorder_running initial_capture first second eq_refl)
    as (_ & _ & _ & Hbal & Htrack).
  split; [exact (Hbal eq_refl) |].
  apply (Htrack 0%nat). cbn. intros [H | []]. discriminate.
Defined.
